(** * Digital twin for crack evolution: the streaming loop of [src/code/server.py]

    The development embeds the real-time loop of [server.py]: the scaler
    lookup [norm], the mesh loop that queries the PINN surrogate, the damage
    evolution law, the bounded history [deque], the LSTM prognostics gate and
    the per-connection loop [websocket_endpoint].

    Modelling choices.
    - A Python [float] is an exact rational ([Q]) kept in lowest terms: every
      arithmetic operator returns its exact result through [Qred].  Rounding
      of IEEE binary64 is outside this model; decimal literals of the source
      denote the rationals they spell.  Infinities and NaN are added in
      [PyFloat], and the loop body is repeated over them in [NonFinite].
    - Python exceptions are values of [Py.exn]; fallible code returns
      [Py.result].  Module-level globals ([time], [damage_state], [history])
      form the record [State], threaded explicitly; a raised exception keeps
      the mutations done before it, as in Python.
    - The Keras models [pinn] and [lstm] and the parsed [scaler_params.json]
      are parameters: the collaborators are arbitrary functions that may
      raise.
    - [websocket_endpoint] is the loop of one connection observed for a
      bounded number of iterations.  Several connections are coroutines on
      the same globals, resumed at their [await] points in any order
      ([serve]).  In both every [ws.send_json] returns; [while_True_ws] and
      [serve_ws] are the same loops on websockets whose sends may raise.
    - The data preparation of the training notebook
      [src/code/models/PINN/Code.py] is in module [Training]: the header
      search and clean-up of the material sheets, the joined stress-strain
      curve, the min-max normalisation and its inverse.  The conversion to
      the array's dtype done by a numpy assignment is the parameter [cast].
      The network, its loss and the training loop are TensorFlow code and
      are not embedded. *)

From Stdlib Require Import QArith Qminmax Qabs Lqa Lia Sorted.
From stdpp Require Import gmap strings list.

Local Open Scope Q_scope.

Declare Scope py_scope.
Delimit Scope py_scope with py.

(** ** Python and numpy primitives used by the server *)

Module Py.

Inductive exn : Type :=
| KeyError (key : string)
| ZeroDivisionError
| ValueError
| Exception (msg : string).

Inductive result (A : Type) : Type :=
| Ok (a : A)
| Raise (e : exn).

Arguments Ok {A} a.
Arguments Raise {A} e.

#[global] Instance result_ret : MRet result := @Ok.

#[global] Instance result_bind : MBind result :=
  λ A B f r, match r with Ok a => f a | Raise e => Raise e end.

(** [int] to [float] conversion in mixed arithmetic. *)
Definition of_int (n : nat) : Q := inject_Z (Z.of_nat n).

Definition add (a b : Q) : Q := Qred (a + b).
Definition sub (a b : Q) : Q := Qred (a - b).
Definition mul (a b : Q) : Q := Qred (a * b).

(** [a / b]: true division raises on a zero divisor. *)
Definition truediv (a b : Q) : result Q :=
  if Qeq_bool b 0 then Raise ZeroDivisionError else Ok (Qred (a / b)).

(** [a < b] *)
Definition lt (a b : Q) : bool := negb (Qle_bool b a).

(** [min(a, b)]: the first argument unless the second is strictly smaller. *)
Definition min (a b : Q) : Q := if lt b a then b else a.

(** [d[key]] on a [dict] with string keys. *)
Definition getitem {V : Type} (d : gmap string V) (key : string) : result V :=
  match d !! key with
  | Some v => Ok v
  | None => Raise (KeyError key)
  end.

(** [collections.deque(maxlen=...).append(x)]: append on the right, then
    drop the leftmost element when the length exceeds [maxlen]. *)
Definition deque_append {A : Type} (maxlen : nat) (d : list A) (x : A) : list A :=
  let d' := d ++ [x] in
  if (maxlen <? length d')%nat then drop 1 d' else d'.

Definition maximum (a b : Q) : Q := if lt a b then b else a.

(** [np.max(l)]: raises [ValueError] on an empty sequence. *)
Definition np_max (l : list Q) : result Q :=
  match l with
  | [] => Raise ValueError
  | x :: l' => Ok (foldl maximum x l')
  end.

Definition np_sum (l : list Q) : Q := foldl add 0 l.

(** [np.mean(l)].  numpy yields nan on an empty sequence; the server only
    reaches this call after [np.max] succeeded on the same sequence. *)
Definition np_mean (l : list Q) : Q := Qred (np_sum l / of_int (length l)).

End Py.

Import Py.

(** Inside [( ... )%py] the operators are the Python ones. *)
Arguments Py.add (a b)%_py_scope.
Arguments Py.sub (a b)%_py_scope.
Arguments Py.mul (a b)%_py_scope.
Arguments Py.truediv (a b)%_py_scope.
Notation "a + b" := (Py.add a b) : py_scope.
Notation "a - b" := (Py.sub a b) : py_scope.
Notation "a * b" := (Py.mul a b) : py_scope.

(** ** Data *)

(** One output row of the surrogate, [pinn.predict(X)[0]]: the three targets
    [strain, stress, damage] of [models/PINN/Code.py]. *)
Record PinnRow : Type := { out_strain : Q; out_stress : Q; out_damage : Q }.

(** The module-level globals of [server.py]. *)
Record State : Type := {
  time : Q;
  damage_state : Q;
  history : list (Q * Q)
}.

(** The JSON object passed to [ws.send_json]; [rul] is [None] or a float. *)
Record Message : Type := {
  msg_time : Q;
  msg_stress_field : list Q;
  msg_damage_prediction : Q;
  msg_rul : option Q
}.

(** ** Settings and initial state *)

Definition DEBUG_NO_VGG : bool := true.
Definition RESOLUTION : nat := 50.
Definition BEAM_LENGTH : Q := 1050.
Definition BEAM_HEIGHT : Q := 300.
Definition FAILURE_THRESHOLD : Q := 0.9.
Definition TIME_STEP : Q := 1.0.
Definition history_maxlen : nat := 10.

Definition initial_state : State :=
  {| time := 0.0; damage_state := 0.05; history := [] |}.

(** ** Damage evolution law (lines 89-90) *)

Definition growth_rate (max_stress : Q) : Q :=
  (0.002 + 0.00000004 * max_stress)%py.

Definition evolve (damage : Q) (max_stress : Q) : Q :=
  Py.min 1.0 (damage + growth_rate max_stress)%py.

(** Damage amplification of one mesh point (line 78). *)
Definition amplify (crack_severity base_stress : Q) : Q :=
  (base_stress * (1.0 + 2.5 * crack_severity))%py.

(** The mesh in loop order: [for y in range(R+1): for x in range(R+1)]. *)
Definition grid (R : nat) : list (nat * nat) :=
  y ← seq 0 (S R); (λ x, (x, y)) <$> seq 0 (S R).

(** [(i / R - 0.5) * extent] (lines 63-64). *)
Definition phys (i R : nat) (extent : Q) : result Q :=
  ratio ← Py.truediv (Py.of_int i) (Py.of_int R);
  Ok ((ratio - 0.5) * extent)%py.

(** [time += TIME_STEP] (line 122), run after the message was sent. *)
Definition advance_clock (st : State) : State :=
  {| time := (time st + TIME_STEP)%py;
     damage_state := damage_state st;
     history := history st |}.

(** Outcome of a connection observed for a bounded number of iterations. *)
Inductive outcome : Type :=
| Running
| Crashed (e : exn).

(** The [while True] loop (lines 44-123) around a loop body that runs up to
    the message to send: the message is sent, the clock advanced, and the
    loop repeats; an exception of the body ends the coroutine.  This is the
    loop while every [ws.send_json] returns; [while_True_ws] below takes
    the outcome of the send from the websocket. *)
Fixpoint while_True (body : State → State * result Message) (n : nat) (st : State)
    : State * list Message * outcome :=
  match n with
  | O => (st, [], Running)
  | S n' =>
    match body st with
    | (st1, Raise e) => (st1, [], Crashed e)
    | (st1, Ok m) =>
      let '(st2, ms, o) := while_True body n' (advance_clock st1) in
      (st2, m :: ms, o)
    end
  end.

Section Server.

(** The parsed [scaler_params.json] and the two loaded Keras models. *)
Variable scalers : gmap string (gmap string Q).
Variable pinn : list Q → result PinnRow.
Variable lstm : list (Q * Q) → result Q.

(** [norm(val, key)] (lines 20-21). *)
Definition norm (val : Q) (key : string) : result Q :=
  entry ← Py.getitem scalers key;
  mean ← Py.getitem entry "mean";
  entry' ← Py.getitem scalers key;
  scale ← Py.getitem entry' "scale";
  Py.truediv (val - mean)%py scale.

(** The normalised input row [X] of one mesh point (lines 63-73). *)
Definition features (R : nat) (L H : Q) (x y : nat) : result (list Q) :=
  phys_x ← phys x R L;
  phys_y ← phys y R H;
  f_x ← norm phys_x "x";
  f_y ← norm phys_y "y";
  f_load ← norm 50000 "load_mag";
  f_defl ← norm 5.5 "global_deflection";
  f_fc ← norm 25 "fc";
  f_fy ← norm 314 "fy";
  Ok [f_x; f_y; f_load; f_defl; f_fc; f_fy].

(** Body of the inner loop (lines 63-80): the stress appended for one point. *)
Definition mesh_point (R : nat) (L H crack_severity : Q) (p : nat * nat) : result Q :=
  X ← features R L H p.1 p.2;
  row ← pinn X;
  let base_stress := out_stress row in
  Ok (amplify crack_severity base_stress).

(** The two nested loops (lines 58-80). *)
Definition stress_loop (R : nat) (L H crack_severity : Q) : result (list Q) :=
  mapM (mesh_point R L H crack_severity) (grid R).

(** LSTM prognostics and RUL (lines 97-107). *)
Definition prognostics (damage : Q) (hist : list (Q * Q)) : result (Q * option Q) :=
  if (length hist =? history_maxlen)%nat then
    damage_pred ← lstm hist;
    if Py.lt damage_pred FAILURE_THRESHOLD then
      rul ← Py.truediv (FAILURE_THRESHOLD - damage_pred)%py TIME_STEP;
      Ok (damage_pred, Some rul)
    else Ok (damage_pred, Some 0.0)
  else Ok (damage, None).

(** Lines 89-92: the damage update and the push on the history deque. *)
Definition update_state (st : State) (max_stress avg_stress : Q) : State :=
  {| time := time st;
     damage_state := evolve (damage_state st) max_stress;
     history := Py.deque_append history_maxlen (history st)
                  (max_stress, avg_stress) |}.

(** Lines 85-117, run once the mesh loop has filled [stress_field]: the
    statistics, the damage update, the push on the history, the prognostics
    and the message handed to [ws.send_json].  Returns the globals as they
    stand when the message is built or the exception is raised. *)
Definition after_mesh (st : State) (stress_field : list Q) : State * result Message :=
  match Py.np_max stress_field with
  | Raise e => (st, Raise e)
  | Ok max_stress =>
    let avg_stress := Py.np_mean stress_field in
    let st1 := update_state st max_stress avg_stress in
    match prognostics (damage_state st1) (history st1) with
    | Raise e => (st1, Raise e)
    | Ok (damage_pred, rul) =>
      (st1, Ok {| msg_time := time st1;
                  msg_stress_field := stress_field;
                  msg_damage_prediction := damage_pred;
                  msg_rul := rul |})
    end
  end.

(** One pass through lines 46-117 of the loop body. *)
Definition tick (st : State) : State * result Message :=
  let crack_severity :=
    if DEBUG_NO_VGG then damage_state st else damage_state st in
  match stress_loop RESOLUTION BEAM_LENGTH BEAM_HEIGHT crack_severity with
  | Raise e => (st, Raise e)
  | Ok stress_field => after_mesh st stress_field
  end.

(** The coroutine [websocket_endpoint] observed for [n] iterations of its
    loop: the final globals, the messages sent in order, and whether the
    coroutine is still looping or was ended by an exception. *)
Definition websocket_endpoint (n : nat) (st : State) : State * list Message * outcome :=
  while_True tick n st.

End Server.

(** ** Several connections

    FastAPI runs one [websocket_endpoint] coroutine per connection on one
    event loop, all on the same module globals.  A coroutine gives up
    control only at an [await]: in [ws.accept] and [asyncio.sleep], from
    which it resumes at the top of the loop body, and in [ws.send_json],
    from which it resumes at line 120.  The code between two such points
    runs without interleaving; which coroutine is resumed next is up to the
    event loop. *)

(** Where the coroutine of a connection is suspended. *)
Inductive pc : Type :=
| Looping
| Sending
| Closed (e : exn).

(** The module globals and the coroutines of the open connections. *)
Record Process : Type := {
  globals : State;
  conns : list pc
}.

(** The event loop resumes connection [i], which runs to its next
    suspension point: the loop body up to the message handed to
    [ws.send_json], or the clock advance that follows the send.  Every send
    returns here; [resume_ws] below lets it raise. *)
Definition resume (body : State → State * result Message) (i : nat) (p : Process)
    : Process * option Message :=
  match conns p !! i with
  | Some Looping =>
    match body (globals p) with
    | (st1, Ok m) =>
      ({| globals := st1; conns := <[i := Sending]> (conns p) |}, Some m)
    | (st1, Raise e) =>
      ({| globals := st1; conns := <[i := Closed e]> (conns p) |}, None)
    end
  | Some Sending =>
    ({| globals := advance_clock (globals p);
        conns := <[i := Looping]> (conns p) |}, None)
  | _ => (p, None)
  end.

(** The process under a schedule of resumptions: the final process and the
    messages sent, in sending order, each with its connection. *)
Fixpoint serve (body : State → State * result Message) (sched : list nat)
    (p : Process) : Process * list (nat * Message) :=
  match sched with
  | [] => (p, [])
  | i :: sched' =>
    let '(p1, sent) := resume body i p in
    let '(p2, rest) := serve body sched' p1 in
    (p2, match sent with Some m => (i, m) :: rest | None => rest end)
  end.

(** The process after start-up with [k] connections accepted. *)
Definition start (k : nat) : Process :=
  {| globals := initial_state; conns := replicate k Looping |}.

(** The messages received by connection [i], in order. *)
Definition received (i : nat) (sent : list (nat * Message)) : list Message :=
  snd <$> filter (λ im, im.1 = i) sent.

(** What a message says about the structure, apart from its time stamp. *)
Definition content (m : Message) : list Q * Q * option Q :=
  (msg_stress_field m, msg_damage_prediction m, msg_rul m).

Definition set_time (t : Q) (st : State) : State :=
  {| time := t; damage_state := damage_state st; history := history st |}.

Definition set_msg_time (t : Q) (r : result Message) : result Message :=
  match r with
  | Ok m => Ok {| msg_time := t;
                  msg_stress_field := msg_stress_field m;
                  msg_damage_prediction := msg_damage_prediction m;
                  msg_rul := msg_rul m |}
  | Raise e => Raise e
  end.

(** Two states with the same damage and history: they differ in the clock
    at most. *)
Definition same_structure (g st : State) : Prop :=
  damage_state g = damage_state st ∧ history g = history st.

(** A loop body that reads the clock only to stamp its message. *)
Definition timeless (body : State → State * result Message) : Prop :=
  ∀ t st, body (set_time t st)
          = (set_time t (body st).1, set_msg_time t (body st).2).

(** ** A send that fails

    [await ws.send_json(...)] (line 112) raises when the client has gone.
    The loop has no handler, so the exception ends the coroutine: the
    message is not delivered and the clock is not advanced, while the damage
    update and the push on the history done earlier in the iteration stay.
    The websocket is given by the outcome of each send.  [print] (line 120)
    and [asyncio.sleep] (line 123) are taken to return. *)

(** The loop of one connection on the websocket [send_json]; the messages
    returned are the delivered ones. *)
Fixpoint while_True_ws (body : State → State * result Message)
    (send_json : Message → result ()) (n : nat) (st : State)
    : State * list Message * outcome :=
  match n with
  | O => (st, [], Running)
  | S n' =>
    match body st with
    | (st1, Raise e) => (st1, [], Crashed e)
    | (st1, Ok m) =>
      match send_json m with
      | Raise e => (st1, [], Crashed e)
      | Ok _ =>
        let '(st2, ms, o) := while_True_ws body send_json n' (advance_clock st1) in
        (st2, m :: ms, o)
      end
    end
  end.

(** Connection [i] resumed on its websocket [send_json i].  A send that
    raises closes the connection whenever the event loop gets back to it;
    nothing else of the process depends on when, so it is closed at once. *)
Definition resume_ws (body : State → State * result Message)
    (send_json : nat → Message → result ()) (i : nat) (p : Process)
    : Process * option Message :=
  match conns p !! i with
  | Some Looping =>
    match body (globals p) with
    | (st1, Ok m) =>
      match send_json i m with
      | Ok _ =>
        ({| globals := st1; conns := <[i := Sending]> (conns p) |}, Some m)
      | Raise e =>
        ({| globals := st1; conns := <[i := Closed e]> (conns p) |}, None)
      end
    | (st1, Raise e) =>
      ({| globals := st1; conns := <[i := Closed e]> (conns p) |}, None)
    end
  | Some Sending =>
    ({| globals := advance_clock (globals p);
        conns := <[i := Looping]> (conns p) |}, None)
  | _ => (p, None)
  end.

(** The process under a schedule: the final process and the messages
    delivered, in order, each with its connection. *)
Fixpoint serve_ws (body : State → State * result Message)
    (send_json : nat → Message → result ()) (sched : list nat) (p : Process)
    : Process * list (nat * Message) :=
  match sched with
  | [] => (p, [])
  | i :: sched' =>
    let '(p1, sent) := resume_ws body send_json i p in
    let '(p2, rest) := serve_ws body send_json sched' p1 in
    (p2, match sent with Some m => (i, m) :: rest | None => rest end)
  end.

(** A websocket whose client has gone. *)
Definition disconnected : Message → result () :=
  λ _, Raise (Exception "WebSocketDisconnect").

(** ** Non-finite floats

    The globals and the answers of the collaborators above are finite.  A
    Keras model can also answer [nan] or [inf], and nothing in the loop
    checks for it.  This part repeats the loop body over floats that may be
    non-finite.  On finite values the operations are those of [Py]; on the
    others they follow IEEE 754 as Python and numpy apply it. *)

Module PyFloat.

Inductive t : Type :=
| Fin (q : Q)
| PosInf
| NegInf
| NaN.

(** A finite [p] times [inf] ([positive]) or [-inf]. *)
Definition mul_inf (positive : bool) (p : Q) : t :=
  match p ?= 0 with
  | Eq => NaN
  | Gt => if positive then PosInf else NegInf
  | Lt => if positive then NegInf else PosInf
  end.

Definition neg (a : t) : t :=
  match a with
  | Fin q => Fin (Qred (- q))
  | PosInf => NegInf
  | NegInf => PosInf
  | NaN => NaN
  end.

Definition add (a b : t) : t :=
  match a, b with
  | Fin p, Fin q => Fin (Py.add p q)
  | NaN, _ | _, NaN => NaN
  | PosInf, NegInf | NegInf, PosInf => NaN
  | PosInf, _ | _, PosInf => PosInf
  | NegInf, _ | _, NegInf => NegInf
  end.

Definition sub (a b : t) : t :=
  match a, b with
  | Fin p, Fin q => Fin (Py.sub p q)
  | _, _ => add a (neg b)
  end.

Definition mul (a b : t) : t :=
  match a, b with
  | Fin p, Fin q => Fin (Py.mul p q)
  | NaN, _ | _, NaN => NaN
  | Fin p, PosInf | PosInf, Fin p => mul_inf true p
  | Fin p, NegInf | NegInf, Fin p => mul_inf false p
  | PosInf, PosInf | NegInf, NegInf => PosInf
  | PosInf, NegInf | NegInf, PosInf => NegInf
  end.

(** [a / b] on Python floats: a zero divisor raises, whatever [a] is. *)
Definition truediv (a b : t) : result t :=
  match b with
  | Fin q =>
    if Qeq_bool q 0 then Raise ZeroDivisionError
    else Ok match a with
            | Fin p => Fin (Qred (p / q))
            | PosInf => mul_inf true q
            | NegInf => mul_inf false q
            | NaN => NaN
            end
  | PosInf | NegInf => Ok match a with Fin _ => Fin 0 | _ => NaN end
  | NaN => Ok NaN
  end.

(** [a < b]: false as soon as one side is [nan]. *)
Definition lt (a b : t) : bool :=
  match a, b with
  | Fin p, Fin q => Py.lt p q
  | NaN, _ | _, NaN => false
  | _, NegInf => false
  | NegInf, _ => true
  | PosInf, _ => false
  | _, PosInf => true
  end.

(** [min(a, b)]: the first argument unless the second is strictly smaller;
    so [min(1.0, nan)] is [1.0]. *)
Definition min (a b : t) : t := if lt b a then b else a.

(** [np.maximum], which propagates [nan]. *)
Definition maximum (a b : t) : t :=
  match a, b with
  | NaN, _ | _, NaN => NaN
  | _, _ => if lt a b then b else a
  end.

Definition np_max (l : list t) : result t :=
  match l with
  | [] => Raise ValueError
  | x :: l' => Ok (foldl maximum x l')
  end.

Definition np_sum (l : list t) : t := foldl add (Fin 0) l.

(** [np.mean]: the sum over the count; as for [Py.np_mean] the server
    reaches it on a non-empty sequence only. *)
Definition np_mean (l : list t) : t :=
  match np_sum l with
  | Fin p => Fin (Qred (p / Py.of_int (length l)))
  | a => a
  end.

End PyFloat.

Module NonFinite.

Import PyFloat.

(** The row [pinn.predict(X)[0]], the globals and the message, with floats
    that may be non-finite.  The clock only ever has 1.0 added to 0.0. *)
Record PinnRow : Type := {
  out_strain : PyFloat.t; out_stress : PyFloat.t; out_damage : PyFloat.t
}.

Record State : Type := {
  time : Q;
  damage_state : PyFloat.t;
  history : list (PyFloat.t * PyFloat.t)
}.

Record Message : Type := {
  msg_time : Q;
  msg_stress_field : list PyFloat.t;
  msg_damage_prediction : PyFloat.t;
  msg_rul : option PyFloat.t
}.

(** Lines 89-90. *)
Definition growth_rate (max_stress : PyFloat.t) : PyFloat.t :=
  add (Fin 0.002) (mul (Fin 0.00000004) max_stress).

Definition evolve (damage max_stress : PyFloat.t) : PyFloat.t :=
  PyFloat.min (Fin 1.0) (add damage (growth_rate max_stress)).

(** Line 78. *)
Definition amplify (crack_severity base_stress : PyFloat.t) : PyFloat.t :=
  mul base_stress (add (Fin 1.0) (mul (Fin 2.5) crack_severity)).

Section Server.

Variable scalers : gmap string (gmap string Q).
Variable pinn : list Q → result PinnRow.
Variable lstm : list (PyFloat.t * PyFloat.t) → result PyFloat.t.

(** Lines 63-80; the input row is that of [features]. *)
Definition mesh_point (R : nat) (L H : Q) (crack_severity : PyFloat.t)
    (p : nat * nat) : result PyFloat.t :=
  X ← features scalers R L H p.1 p.2;
  row ← pinn X;
  let base_stress := out_stress row in
  Ok (amplify crack_severity base_stress).

Definition stress_loop (R : nat) (L H : Q) (crack_severity : PyFloat.t)
    : result (list PyFloat.t) :=
  mapM (mesh_point R L H crack_severity) (grid R).

(** Lines 97-107. *)
Definition prognostics (damage : PyFloat.t) (hist : list (PyFloat.t * PyFloat.t))
    : result (PyFloat.t * option PyFloat.t) :=
  if (length hist =? history_maxlen)%nat then
    damage_pred ← lstm hist;
    if PyFloat.lt damage_pred (Fin FAILURE_THRESHOLD) then
      rul ← truediv (sub (Fin FAILURE_THRESHOLD) damage_pred) (Fin TIME_STEP);
      Ok (damage_pred, Some rul)
    else Ok (damage_pred, Some (Fin 0.0))
  else Ok (damage, None).

(** Lines 89-92. *)
Definition update_state (st : State) (max_stress avg_stress : PyFloat.t) : State :=
  {| time := time st;
     damage_state := evolve (damage_state st) max_stress;
     history := Py.deque_append history_maxlen (history st)
                  (max_stress, avg_stress) |}.

(** Lines 85-117. *)
Definition after_mesh (st : State) (stress_field : list PyFloat.t)
    : State * result Message :=
  match np_max stress_field with
  | Raise e => (st, Raise e)
  | Ok max_stress =>
    let avg_stress := np_mean stress_field in
    let st1 := update_state st max_stress avg_stress in
    match prognostics (damage_state st1) (history st1) with
    | Raise e => (st1, Raise e)
    | Ok (damage_pred, rul) =>
      (st1, Ok {| msg_time := time st1;
                  msg_stress_field := stress_field;
                  msg_damage_prediction := damage_pred;
                  msg_rul := rul |})
    end
  end.

(** One pass through lines 46-117. *)
Definition tick (st : State) : State * result Message :=
  let crack_severity :=
    if DEBUG_NO_VGG then damage_state st else damage_state st in
  match stress_loop RESOLUTION BEAM_LENGTH BEAM_HEIGHT crack_severity with
  | Raise e => (st, Raise e)
  | Ok stress_field => after_mesh st stress_field
  end.

End Server.

End NonFinite.

(** The finite values among the possibly non-finite ones. *)
Definition fin_row (row : PinnRow) : NonFinite.PinnRow :=
  {| NonFinite.out_strain := PyFloat.Fin (out_strain row);
     NonFinite.out_stress := PyFloat.Fin (out_stress row);
     NonFinite.out_damage := PyFloat.Fin (out_damage row) |}.

Definition fin_sample (s : Q * Q) : PyFloat.t * PyFloat.t :=
  (PyFloat.Fin s.1, PyFloat.Fin s.2).

Definition fin_state (st : State) : NonFinite.State :=
  {| NonFinite.time := time st;
     NonFinite.damage_state := PyFloat.Fin (damage_state st);
     NonFinite.history := fin_sample <$> history st |}.

Definition fin_message (m : Message) : NonFinite.Message :=
  {| NonFinite.msg_time := msg_time m;
     NonFinite.msg_stress_field := PyFloat.Fin <$> msg_stress_field m;
     NonFinite.msg_damage_prediction := PyFloat.Fin (msg_damage_prediction m);
     NonFinite.msg_rul := PyFloat.Fin <$> msg_rul m |}.

(** A result carried over by [f]. *)
Definition lift {A B : Type} (f : A → B) (r : result A) : result B :=
  match r with
  | Ok a => Ok (f a)
  | Raise e => Raise e
  end.

(** ** Start-up *)

(** What the module holds once it is imported. *)
Record Service : Type := {
  svc_pinn : list Q → result PinnRow;
  svc_lstm : list (Q * Q) → result Q;
  svc_scalers : gmap string (gmap string Q);
  svc_state : State
}.

(** The module-level statements (lines 13-33).  The arguments are the
    outcomes of the two [load_model] calls and of reading and parsing
    [scaler_params.json]; each may raise, which aborts the import. *)
Definition startup
    (load_pinn : result (list Q → result PinnRow))
    (load_lstm : result (list (Q * Q) → result Q))
    (load_scalers : result (gmap string (gmap string Q))) : result Service :=
  pinn ← load_pinn;
  lstm ← load_lstm;
  scalers ← load_scalers;
  Ok {| svc_pinn := pinn;
        svc_lstm := lstm;
        svc_scalers := scalers;
        svc_state := initial_state |}.

(** ** Example collaborators

    A complete scaler table and collaborators with fixed outputs, used to run
    the server on concrete inputs. *)

Definition scaler_entry (mean scale : Q) : gmap string Q :=
  {[ "mean"%string := mean; "scale"%string := scale ]}.

Definition example_scalers : gmap string (gmap string Q) :=
  {[ "x"%string := scaler_entry 0 525;
     "y"%string := scaler_entry 0 150;
     "load_mag"%string := scaler_entry 40000 10000;
     "global_deflection"%string := scaler_entry 5 2;
     "fc"%string := scaler_entry 30 5;
     "fy"%string := scaler_entry 400 50 ]}.

(** A surrogate predicting the same stress at every mesh point. *)
Definition constant_pinn (s : Q) : list Q → result PinnRow :=
  λ _, Ok {| out_strain := 0; out_stress := s; out_damage := 0 |}.

(** A prognostics model predicting the same damage for every window. *)
Definition constant_lstm (d : Q) : list (Q * Q) → result Q :=
  λ _, Ok d.

(** A surrogate answering the same, possibly non-finite, stress at every
    mesh point, and a prognostics model answering the same damage. *)
Definition constant_pinnF (s : PyFloat.t) : list Q → result NonFinite.PinnRow :=
  λ _, Ok {| NonFinite.out_strain := PyFloat.Fin 0;
             NonFinite.out_stress := s;
             NonFinite.out_damage := PyFloat.Fin 0 |}.

Definition constant_lstmF (d : PyFloat.t)
    : list (PyFloat.t * PyFloat.t) → result PyFloat.t :=
  λ _, Ok d.

(** Collaborators whose [predict] call raises. *)
Definition failing_pinn : list Q → result PinnRow :=
  λ _, Raise (Exception "pinn.predict failed").

Definition failing_lstm : list (Q * Q) → result Q :=
  λ _, Raise (Exception "lstm.predict failed").

(** A constant surrogate on the example table fills the stress field with
    one value (see [tick_constant]); this is the rest of such a tick. *)
Definition constant_tick (s : Q) (lstm : list (Q * Q) → result Q) (st : State)
    : State * result Message :=
  after_mesh lstm st (replicate 2601 (amplify (damage_state st) s)).

(** ** Notions used to state the properties *)

(** The last [k] elements of [l], oldest first; all of [l] when shorter. *)
Definition last_n {A : Type} (k : nat) (l : list A) : list A :=
  drop (length l - k) l.

(** The stress sample [[max_stress, avg_stress]] of a message's field. *)
Definition sample_of (m : Message) (s : Q * Q) : Prop :=
  Py.np_max (msg_stress_field m) = Ok s.1
  ∧ s.2 = Py.np_mean (msg_stress_field m).

(** The feature names looked up by the loop body (lines 67-72). *)
Definition required_features : list string :=
  ["x"; "y"; "load_mag"; "global_deflection"; "fc"; "fy"]%string.

(** [scalers[key][field]] when both keys are present. *)
Definition scaler_param (scalers : gmap string (gmap string Q))
    (key field : string) : option Q :=
  scalers !! key ≫= (.!! field).

(** A table with a mean and a non-zero scale for every required feature. *)
Definition complete (scalers : gmap string (gmap string Q)) : Prop :=
  Forall (λ key, is_Some (scaler_param scalers key "mean")
                 ∧ ∃ s, scaler_param scalers key "scale" = Some s ∧ ¬ s == 0)
         required_features.

(** What [norm(val, key)] raises, whatever [val] is: the first of its
    lookups that fails, or the division by a zero scale. *)
Definition norm_error (scalers : gmap string (gmap string Q)) (key : string)
    : option exn :=
  match scalers !! key with
  | None => Some (KeyError key)
  | Some entry =>
    match entry !! "mean"%string with
    | None => Some (KeyError "mean")
    | Some _ =>
      match entry !! "scale"%string with
      | None => Some (KeyError "scale")
      | Some scale => if Qeq_bool scale 0 then Some ZeroDivisionError else None
      end
    end
  end.

(** The error of the first feature, in the order of lines 67-72, whose
    normalisation raises. *)
Definition first_error (scalers : gmap string (gmap string Q)) : option exn :=
  head (omap (norm_error scalers) required_features).

(** Lines 75-80 for one input row [X]: the surrogate is queried and its
    stress amplified. *)
Definition query (pinn : list Q → result PinnRow) (crack_severity : Q)
    (X : list Q) : result Q :=
  row ← pinn X;
  Ok (amplify crack_severity (out_stress row)).

(** The normalisation in the words of the specification:
    (value - mean) / scale. *)
Definition normalised (scalers : gmap string (gmap string Q))
    (value : Q) (key : string) : Q :=
  (value - default 0 (scaler_param scalers key "mean"))
  / default 0 (scaler_param scalers key "scale").

(** The physical coordinate in the words of the specification:
    (i / R - 0.5) * extent. *)
Definition phys_coord (i R : nat) (extent : Q) : Q :=
  (inject_Z (Z.of_nat i) / inject_Z (Z.of_nat R) - 0.5) * extent.

Section TickResult.

Variable scalers : gmap string (gmap string Q).
Variable pinn : list Q → result PinnRow.
Variable lstm : list (Q * Q) → result Q.

(** The three ways a tick can end: the mesh loop raised, the prognostics
    raised after the globals were updated, or a message was built. *)
Inductive tick_result (st : State) : State → result Message → Prop :=
| tick_mesh_raised e :
    stress_loop scalers pinn RESOLUTION BEAM_LENGTH BEAM_HEIGHT (damage_state st)
      = Raise e →
    tick_result st st (Raise e)
| tick_lstm_raised sf max_stress e :
    stress_loop scalers pinn RESOLUTION BEAM_LENGTH BEAM_HEIGHT (damage_state st)
      = Ok sf →
    Py.np_max sf = Ok max_stress →
    let st1 := update_state st max_stress (Py.np_mean sf) in
    prognostics lstm (damage_state st1) (history st1) = Raise e →
    tick_result st st1 (Raise e)
| tick_sent sf max_stress damage_pred rul :
    stress_loop scalers pinn RESOLUTION BEAM_LENGTH BEAM_HEIGHT (damage_state st)
      = Ok sf →
    Py.np_max sf = Ok max_stress →
    let st1 := update_state st max_stress (Py.np_mean sf) in
    prognostics lstm (damage_state st1) (history st1) = Ok (damage_pred, rul) →
    tick_result st st1
      (Ok {| msg_time := time st;
             msg_stress_field := sf;
             msg_damage_prediction := damage_pred;
             msg_rul := rul |}).

End TickResult.

(** * The training notebook, [models/PINN/Code.py]

    The functions of the notebook that prepare the data on which the
    surrogate is trained.  TensorFlow, pandas and numpy values are modelled
    as the lists of rationals they hold; the calls into pandas that parse a
    cell are arguments. *)

Module Training.

(** Python exceptions of classes that [Py.exn] does not name. *)
Definition IndexError : exn := Exception "IndexError".
Definition TypeError : exn := Exception "TypeError".

(** Elementwise numpy operations on one value.  numpy's division does not
    raise; the notebook divides by non-zero constants or behind a guard. *)
Definition np_truediv (a b : Q) : Q := Qred (a / b).
Definition np_abs (a : Q) : Q := Qred (Qabs a).
Definition np_neg (a : Q) : Q := Qred (- a).

(** ** Normalisation (lines 123-133) *)

(** A two-dimensional array is given by its columns, a [list (list Q)]:
    [data[:, i]] is column [i], and raises [IndexError] when the array has
    no such column. *)
Definition column (data : list (list Q)) (i : nat) : result (list Q) :=
  match data !! i with
  | Some values => Ok values
  | None => Raise IndexError
  end.

(** Lines 130-132 on one column: the guarded denominator, the vectorised
    [(data[:, i] - col_min) / denom], and the conversion of each result to
    the dtype of [data_norm] done by the slice assignment.  [np.copy] keeps
    the dtype of [data], and [cast] is that conversion: it leaves a value
    as it is for the float arrays the notebook passes (lines 119-120), and
    it is [astype_int] for an integer array. *)
Definition normalize_column (cast : Q → Q) (col_min col_max : Q)
    (values : list Q) : list Q :=
  let denom := (col_max - col_min)%py in
  let denom := if Qeq_bool denom 0 then 1.0 else denom in
  (λ v, cast (np_truediv (v - col_min)%py denom)) <$> values.

(** The conversion of a float to an integer dtype: truncation toward zero. *)
Definition astype_int (v : Q) : Q :=
  inject_Z (Z.quot (Qnum v) (Zpos (Qden v))).

(** The loop [for i, col in enumerate(columns)] from index [i] on, writing
    into the copy [data_norm]. *)
Fixpoint normalize_loop (cast : Q → Q) (data : list (list Q))
    (scaler_dict : gmap string (gmap string Q))
    (i : nat) (columns : list string) (data_norm : list (list Q))
    : result (list (list Q)) :=
  match columns with
  | [] => Ok data_norm
  | col :: columns' =>
    if bool_decide (is_Some (scaler_dict !! col)) then
      entry ← Py.getitem scaler_dict col;
      col_min ← Py.getitem entry "min";
      entry' ← Py.getitem scaler_dict col;
      col_max ← Py.getitem entry' "max";
      values ← column data i;
      normalize_loop cast data scaler_dict (S i) columns'
        (<[i := normalize_column cast col_min col_max values]> data_norm)
    else normalize_loop cast data scaler_dict (S i) columns' data_norm
  end.

Definition normalize_data (cast : Q → Q) (data : list (list Q))
    (columns : list string) (scaler_dict : gmap string (gmap string Q))
    : result (list (list Q)) :=
  let data_norm := data in
  normalize_loop cast data scaler_dict 0 columns data_norm.

(** The unscaling used on the predictions (lines 164-165, 169, 240-241):
    [v * (scaler[key]['max'] - scaler[key]['min']) + scaler[key]['min']]. *)
Definition unscale (scaler : gmap string (gmap string Q)) (key : string) (v : Q)
    : result Q :=
  entry ← Py.getitem scaler key;
  col_max ← Py.getitem entry "max";
  entry' ← Py.getitem scaler key;
  col_min ← Py.getitem entry' "min";
  entry'' ← Py.getitem scaler key;
  col_min' ← Py.getitem entry'' "min";
  Ok (v * (col_max - col_min) + col_min')%py.

(** ** Reading the material curves (lines 64-102) *)

(** [needle in hay] on strings. *)
Fixpoint contains (needle hay : string) : bool :=
  String.prefix needle hay
  || match hay with
     | EmptyString => false
     | String _ hay' => contains needle hay'
     end.

Definition is_strain_header (val : string) : bool :=
  contains "inelastic" val || contains "cracking" val.

Definition is_stress_header (val : string) : bool :=
  contains "stress" val || contains "sigma" val || contains "σ" val.

(** The three variables of [get_columns_by_header]. *)
Record Found : Type := {
  stress_col : option nat;
  strain_col : option nat;
  start_row : option nat
}.

(** The inner loop [for c, val in enumerate(row_vals)] from column [c] on. *)
Fixpoint scan_row (r c : nat) (row_vals : list string) (f : Found) : Found :=
  match row_vals with
  | [] => f
  | val :: row_vals' =>
    let f1 :=
      if is_strain_header val
      then {| stress_col := stress_col f; strain_col := Some c; start_row := Some r |}
      else f in
    let f2 :=
      if is_stress_header val
      then {| stress_col := Some c; strain_col := strain_col f1;
              start_row := start_row f1 |}
      else f1 in
    scan_row r (S c) row_vals' f2
  end.

(** The outer loop over the rows from row [r] on, with its [break]. *)
Fixpoint scan_rows (r : nat) (rows : list (list string)) (f : Found) : Found :=
  match rows with
  | [] => f
  | row_vals :: rows' =>
    let f' := scan_row r 0 row_vals f in
    if bool_decide (is_Some (stress_col f') ∧ is_Some (strain_col f'))
    then f'
    else scan_rows (S r) rows' f'
  end.

(** Cell [(r, c)] of a table of strings is a header of the given kind. *)
Definition header_at (is_header : string → bool) (df_str : list (list string))
    (r c : nat) : Prop :=
  ∃ row val, df_str !! r = Some row ∧ row !! c = Some val ∧ is_header val = true.

(** What the three variables say once the first [n] rows were scanned. *)
Definition scanned (df_str : list (list string)) (n : nat) (f : Found) : Prop :=
  match stress_col f with
  | Some c => ∃ r, (r < n)%nat ∧ header_at is_stress_header df_str r c
  | None => ∀ r c, (r < n)%nat → ¬ header_at is_stress_header df_str r c
  end
  ∧ match strain_col f with
    | Some c => ∃ r, start_row f = Some r ∧ (r < n)%nat
                     ∧ header_at is_strain_header df_str r c
    | None => start_row f = None
              ∧ ∀ r c, (r < n)%nat → ¬ header_at is_strain_header df_str r c
    end.

Section Sheets.

(** A cell of a sheet read with [header=None]; [str_lower] is
    [astype(str)] followed by [str.lower], and [to_numeric] is
    [pd.to_numeric(errors='coerce')], with [None] for NaN. *)
Variable cell : Type.
Variable str_lower : cell → string.
Variable to_numeric : cell → option Q.

Definition get_columns_by_header (df_raw : list (list cell))
    : option nat * option nat * option nat :=
  let df_str := (λ row : list cell, str_lower <$> row) <$> df_raw in
  let f := scan_rows 0 (take (Nat.min 20 (length df_raw)) df_str)
             {| stress_col := None; strain_col := None; start_row := None |} in
  (stress_col f, strain_col f, start_row f).

Definition E_conc : Q := 25000.0.

(** A row of the selected block [iloc[start_row+1:, [col_stress, col_strain]]]
    after [to_numeric], or [None] when [dropna] removes it. *)
Definition numeric_row (col_stress col_strain : nat) (row : list cell)
    : option (Q * Q) :=
  stress ← row !! col_stress ≫= to_numeric;
  strain_ine ← row !! col_strain ≫= to_numeric;
  Some (stress, strain_ine).

(** Lines 79-82: the header search, the selection of the block below the
    header row, and its clean-up.  [None + 1] is a [TypeError]; [iloc]
    refuses a column list that holds [None] with an [IndexError]. *)
Definition numeric_block (df_raw : list (list cell)) : result (list (Q * Q)) :=
  let '(col_stress, col_strain, start_row) := get_columns_by_header df_raw in
  match start_row with
  | None => Raise TypeError
  | Some start_row =>
    match col_stress, col_strain with
    | Some col_stress, Some col_strain =>
      Ok (omap (numeric_row col_stress col_strain) (drop (start_row + 1) df_raw))
    | _, _ => Raise IndexError
    end
  end.

Definition extract_clean_cdp_data (df_raw : list (list cell)) (type : string)
    : result (list Q * list Q) :=
  data ← numeric_block df_raw;
  let stress := fst <$> data in
  let strain_ine := snd <$> data in
  if String.eqb type "comp" then
    let stress := (λ s, np_neg (np_abs s)) <$> stress in
    let strain :=
      zip_with (λ e s, np_neg (np_abs e + np_truediv (np_abs s) E_conc)%py)
        strain_ine stress in
    Ok (strain, stress)
  else
    let stress := np_abs <$> stress in
    let strain :=
      zip_with (λ e s, (np_abs e + np_truediv (np_abs s) E_conc)%py)
        strain_ine stress in
    Ok (strain, stress).

(** Cell [(r, c)] of the sheet, lower-cased, is a header of the given kind. *)
Definition header_cell (is_header : string → bool) (df_raw : list (list cell))
    (r c : nat) : Prop :=
  ∃ row x, df_raw !! r = Some row ∧ row !! c = Some x
           ∧ is_header (str_lower x) = true.

(** Lines 97-102: the two curves joined into one, compression reversed,
    with the origin between them. *)
Definition full_curve (df_comp_raw df_tens_raw : list (list cell))
    : result (Q * list Q * list Q) :=
  comp ← extract_clean_cdp_data df_comp_raw "comp";
  tens ← extract_clean_cdp_data df_tens_raw "tens";
  FC_REF_FILE ← Py.np_max (np_abs <$> comp.2);
  let full_strain := reverse comp.1 ++ [0] ++ tens.1 in
  let full_stress := reverse comp.2 ++ [0] ++ tens.2 in
  Ok (FC_REF_FILE, full_strain, full_stress).

End Sheets.

End Training.

(** A small sheet in the layout of the material workbook: a title row, the
    header row and the rows below it.  A cell is given by its lower-cased
    text and its numeric reading. *)
Definition example_sheet : list (list (string * option Q)) :=
  [[("concrete damaged plasticity"%string, None); ("nan"%string, None)];
   [("yield stress"%string, None); ("inelastic strain"%string, None)];
   [("10"%string, Some 10); ("0"%string, Some 0)];
   [("25"%string, Some 25); ("0.001"%string, Some 0.001)];
   [("n/a"%string, None); ("0.002"%string, Some 0.002)]].

(** ** Invariant of the globals *)

(** What every reachable state satisfies: the damage is at most 1.0 and the
    window holds at most [history_maxlen] samples. *)
Definition sound (st : State) : Prop :=
  damage_state st <= 1
  ∧ (length (history st) ≤ history_maxlen)%nat.

(** ** Facts about the Python primitives *)

Lemma add_spec (a b : Q) : (a + b)%py == a + b.
Proof. apply Qred_correct. Qed.

Lemma sub_spec (a b : Q) : (a - b)%py == a - b.
Proof. apply Qred_correct. Qed.

Lemma mul_spec (a b : Q) : (a * b)%py == a * b.
Proof. apply Qred_correct. Qed.

Lemma lt_spec (a b : Q) : Py.lt a b = true ↔ a < b.
Proof.
  unfold Py.lt. rewrite negb_true_iff. split.
  - intros Hb. apply Qnot_le_lt. intros Hle.
    apply Qle_bool_iff in Hle. congruence.
  - intros Hlt. destruct (Qle_bool b a) eqn:E; [|reflexivity].
    apply Qle_bool_iff in E. lra.
Qed.

Lemma lt_false (a b : Q) : Py.lt a b = false ↔ b <= a.
Proof.
  unfold Py.lt. rewrite negb_false_iff. apply Qle_bool_iff.
Qed.

Lemma truediv_ok (a b : Q) :
  ¬ b == 0 → Py.truediv a b = Ok (Qred (a / b)).
Proof.
  intros Hb. unfold Py.truediv.
  destruct (Qeq_bool b 0) eqn:E; [|reflexivity].
  apply Qeq_bool_iff in E. contradiction.
Qed.

Lemma truediv_zero (a b : Q) :
  b == 0 → Py.truediv a b = Raise ZeroDivisionError.
Proof.
  intros Hb. unfold Py.truediv. apply Qeq_bool_iff in Hb. by rewrite Hb.
Qed.

Lemma min_cases (a b : Q) :
  (b < a ∧ Py.min a b = b) ∨ (a <= b ∧ Py.min a b = a).
Proof.
  unfold Py.min. destruct (Py.lt b a) eqn:E.
  - left. split; [by apply lt_spec|reflexivity].
  - right. split; [by apply lt_false|reflexivity].
Qed.

(** Unfolds the float operators to rational arithmetic. *)
Ltac py_arith :=
  unfold growth_rate, evolve, amplify in *;
  rewrite ?add_spec, ?sub_spec, ?mul_spec in *.

(** [mapM] over [result] succeeds exactly when the body succeeds on every
    element, and then collects the results in order. *)
Lemma mapM_cons {A B : Type} (f : A → result B) (x : A) (l : list A) :
  mapM f (x :: l) =
  match f x with
  | Ok y => match mapM f l with Ok k => Ok (y :: k) | Raise e => Raise e end
  | Raise e => Raise e
  end.
Proof. reflexivity. Qed.

Lemma mapM_Ok {A B : Type} (f : A → result B) (l : list A) (k : list B) :
  mapM f l = Ok k ↔ Forall2 (λ x y, f x = Ok y) l k.
Proof.
  revert k. induction l as [|x l IH]; intros k.
  - split.
    + intros [= <-]. constructor.
    + intros H. inversion H. reflexivity.
  - rewrite mapM_cons. split.
    + destruct (f x) as [y|e] eqn:Hfx; [|discriminate].
      destruct (mapM f l) as [k'|e] eqn:Hl; [|discriminate].
      intros [= <-]. constructor; [exact Hfx|]. by apply IH.
    + intros H. inversion H as [|? y ? k' Hfx Hrest]; subst.
      rewrite Hfx. apply IH in Hrest. by rewrite Hrest.
Qed.

(** The first failing element decides the exception of [mapM]. *)
Lemma mapM_total {A B : Type} (f : A → result B) (l : list A) :
  (∀ x, ∃ y, f x = Ok y) → ∃ k, mapM f l = Ok k.
Proof.
  intros Hf. induction l as [|x l [k IH]]; [by exists []|].
  destruct (Hf x) as [y Hy]. exists (y :: k).
  by rewrite mapM_cons, Hy, IH.
Qed.

Lemma mapM_Raise_head {A B : Type} (f : A → result B) (x : A) (l : list A) (e : exn) :
  f x = Raise e → mapM f (x :: l) = Raise e.
Proof. intros H. rewrite mapM_cons. by rewrite H. Qed.

(** ** The bounded deque *)

Lemma length_last_n {A : Type} (k : nat) (l : list A) :
  length (last_n k l) = Nat.min k (length l).
Proof. unfold last_n. rewrite length_drop. lia. Qed.

Lemma deque_append_last_n {A : Type} (k : nat) (l : list A) (x : A) :
  Py.deque_append k (last_n k l) x = last_n k (l ++ [x]).
Proof.
  unfold Py.deque_append, last_n.
  rewrite !length_app, length_drop. simpl.
  destruct (Nat.ltb_spec k (length l - (length l - k) + 1)) as [Hlt|Hge].
  - rewrite <- drop_app_le by lia. rewrite drop_drop.
    f_equal. lia.
  - replace (length l - k)%nat with 0%nat by lia.
    replace (length l + 1 - k)%nat with 0%nat by lia.
    by rewrite !drop_0.
Qed.

Lemma foldl_deque_append {A : Type} (k : nat) (xs : list A) :
  foldl (Py.deque_append k) [] xs = last_n k xs.
Proof.
  induction xs as [|x xs IH] using rev_ind; [reflexivity|].
  by rewrite foldl_snoc, IH, deque_append_last_n.
Qed.

Lemma deque_append_full {A : Type} (k : nat) (d : list A) (x : A) :
  (0 < k)%nat → length d = k → Py.deque_append k d x = drop 1 d ++ [x].
Proof.
  intros Hk Hlen. unfold Py.deque_append. rewrite length_app. simpl.
  destruct (Nat.ltb_spec k (length d + 1)) as [_|Hge]; [|lia].
  destruct d as [|y d]; simpl.
  - simpl in Hlen. lia.
  - by rewrite drop_0.
Qed.

Lemma length_deque_append {A : Type} (k : nat) (d : list A) (x : A) :
  (length d ≤ k → length (Py.deque_append k d x) ≤ k)%nat.
Proof.
  intros Hlen. unfold Py.deque_append.
  destruct (Nat.ltb_spec k (length (d ++ [x]))) as [Hlt|Hge].
  - rewrite length_drop, length_app. simpl. lia.
  - exact Hge.
Qed.

(** ** The mesh *)

Lemma length_rows (w a n : nat) :
  length (seq a n ≫= λ y, (λ x, (x, y)) <$> seq 0 w) = (n * w)%nat.
Proof.
  revert a. induction n as [|n IH]; intros a; [reflexivity|].
  simpl seq. rewrite bind_cons, length_app, length_fmap, length_seq, IH. lia.
Qed.

Lemma lookup_rows (w a n i j : nat) :
  (i < w)%nat → (j < n)%nat →
  (seq a n ≫= λ y, (λ x, (x, y)) <$> seq 0 w) !! (j * w + i)%nat
  = Some (i, (a + j)%nat).
Proof.
  intros Hi. revert a j. induction n as [|n IH]; intros a j Hj; [lia|].
  simpl seq. rewrite bind_cons. destruct j as [|j].
  - rewrite lookup_app_l by (rewrite length_fmap, length_seq; lia).
    rewrite list_lookup_fmap, lookup_seq_lt by lia. simpl.
    do 2 f_equal. lia.
  - rewrite lookup_app_r by (rewrite length_fmap, length_seq; lia).
    rewrite length_fmap, length_seq.
    replace (S j * w + i - w)%nat with (j * w + i)%nat by lia.
    rewrite IH by lia. do 2 f_equal. lia.
Qed.

Lemma length_grid (R : nat) : length (grid R) = (S R * S R)%nat.
Proof. apply length_rows. Qed.

Lemma lookup_grid (R ix iy : nat) :
  (ix ≤ R)%nat → (iy ≤ R)%nat →
  grid R !! (iy * S R + ix)%nat = Some (ix, iy).
Proof. intros Hx Hy. unfold grid. rewrite lookup_rows; [done|lia|lia]. Qed.

(** ** One tick *)

Section TickFacts.

Variable scalers : gmap string (gmap string Q).
Variable pinn : list Q → result PinnRow.
Variable lstm : list (Q * Q) → result Q.

Lemma length_stress_loop (R : nat) (L H c : Q) (sf : list Q) :
  stress_loop scalers pinn R L H c = Ok sf → length sf = (S R * S R)%nat.
Proof.
  unfold stress_loop. intros Hsf. apply mapM_Ok, Forall2_length in Hsf.
  by rewrite <- Hsf, length_grid.
Qed.

Lemma np_max_nonempty (l : list Q) :
  (0 < length l)%nat → ∃ m, Py.np_max l = Ok m.
Proof. destruct l as [|x l]; simpl; [lia|eauto]. Qed.

Lemma tick_spec (st : State) :
  tick_result scalers pinn lstm st
    (tick scalers pinn lstm st).1 (tick scalers pinn lstm st).2.
Proof.
  unfold tick, after_mesh. simpl (if DEBUG_NO_VGG then _ else _).
  destruct (stress_loop _ _ _ _ _ _) as [sf|e] eqn:Hloop.
  - destruct (np_max_nonempty sf) as [m Hm].
    { rewrite (length_stress_loop _ _ _ _ _ Hloop). lia. }
    rewrite Hm.
    destruct (prognostics _ _ _) as [[dp rul]|e] eqn:Hprog; simpl.
    + by eapply tick_sent.
    + by eapply tick_lstm_raised.
  - simpl. by apply tick_mesh_raised.
Qed.

Lemma tick_inv (st st' : State) (r : result Message) :
  tick scalers pinn lstm st = (st', r) → tick_result scalers pinn lstm st st' r.
Proof. intros H. pose proof (tick_spec st) as Hs. by rewrite H in Hs. Qed.

(** A tick whose mesh loop succeeded updates the globals and then runs the
    prognostics on the updated damage and window. *)
Lemma tick_unfold (st : State) (sf : list Q) (max_stress : Q) :
  stress_loop scalers pinn RESOLUTION BEAM_LENGTH BEAM_HEIGHT (damage_state st)
    = Ok sf →
  Py.np_max sf = Ok max_stress →
  let st1 := update_state st max_stress (Py.np_mean sf) in
  tick scalers pinn lstm st =
  (st1,
   match prognostics lstm (damage_state st1) (history st1) with
   | Ok (damage_pred, rul) =>
     Ok {| msg_time := time st;
           msg_stress_field := sf;
           msg_damage_prediction := damage_pred;
           msg_rul := rul |}
   | Raise e => Raise e
   end).
Proof.
  intros Hsf Hmax st1. unfold tick, after_mesh.
  simpl (if DEBUG_NO_VGG then _ else _).
  rewrite Hsf, Hmax. fold st1.
  by destruct (prognostics _ _ _) as [[dp rul]|e].
Qed.

(** Once the mesh loop succeeded the globals are updated, whether or not
    the prognostics raises afterwards. *)
Lemma tick_state (st : State) (sf : list Q) (max_stress : Q) :
  stress_loop scalers pinn RESOLUTION BEAM_LENGTH BEAM_HEIGHT (damage_state st)
    = Ok sf →
  Py.np_max sf = Ok max_stress →
  (tick scalers pinn lstm st).1 = update_state st max_stress (Py.np_mean sf).
Proof.
  intros Hsf Hmax.
  destruct (tick_spec st) as [e He|sf' m e Hsf' Hm|sf' m dp rul Hsf' Hm];
    rewrite Hsf in *; try discriminate;
    injection Hsf' as <-; rewrite Hmax in Hm; injection Hm as <-; reflexivity.
Qed.

Lemma tick_state_raised (st : State) (e : exn) :
  stress_loop scalers pinn RESOLUTION BEAM_LENGTH BEAM_HEIGHT (damage_state st)
    = Raise e →
  tick scalers pinn lstm st = (st, Raise e).
Proof.
  intros Hsf. unfold tick. simpl (if DEBUG_NO_VGG then _ else _).
  by rewrite Hsf.
Qed.

End TickFacts.

(** ** The damage law *)

Lemma growth_rate_spec (m : Q) : growth_rate m == 0.002 + 0.00000004 * m.
Proof. py_arith. reflexivity. Qed.

Lemma growth_rate_nonneg (m : Q) : 0 <= growth_rate m ↔ -50000 <= m.
Proof. rewrite growth_rate_spec. split; intros; lra. Qed.

Lemma evolve_spec (d m : Q) : evolve d m == Qmin 1.0 (d + growth_rate m).
Proof.
  unfold evolve. destruct (min_cases 1.0 (d + growth_rate m)%py) as [[Hlt ->]|[Hle ->]];
    rewrite add_spec in *.
  - symmetry. apply Q.min_r. lra.
  - symmetry. apply Q.min_l. lra.
Qed.

Lemma evolve_le_1 (d m : Q) : evolve d m <= 1.
Proof.
  rewrite evolve_spec. apply Qle_trans with 1.0; [apply Q.le_min_l|lra].
Qed.

Lemma evolve_monotone (d m : Q) :
  d <= 1 → 0 <= growth_rate m → d <= evolve d m.
Proof.
  intros Hd Hg. rewrite evolve_spec.
  apply Q.min_glb; lra.
Qed.

Lemma evolve_terminal (d m : Q) :
  d == 1 → 0 <= growth_rate m → evolve d m == 1.
Proof.
  intros Hd Hg. rewrite evolve_spec, Q.min_l; lra.
Qed.

Lemma amplify_spec (c b : Q) : amplify c b == b * (1 + 2.5 * c).
Proof. py_arith. lra. Qed.

Section MeshFacts.

Variable scalers : gmap string (gmap string Q).
Variable pinn : list Q → result PinnRow.

Lemma mesh_point_inv (R : nat) (L H c : Q) (p : nat * nat) (s : Q) :
  mesh_point scalers pinn R L H c p = Ok s →
  ∃ X row, features scalers R L H p.1 p.2 = Ok X ∧ pinn X = Ok row
           ∧ s = amplify c (out_stress row).
Proof.
  unfold mesh_point, mbind, result_bind.
  destruct (features _ _ _ _ _ _) as [X|e] eqn:HX; [|discriminate].
  destruct (pinn X) as [row|e] eqn:Hrow; [|discriminate].
  intros [= <-]. eauto.
Qed.

Lemma stress_loop_inv (R : nat) (L H c : Q) (sf : list Q) :
  stress_loop scalers pinn R L H c = Ok sf →
  Forall2 (λ p s, ∃ X row, features scalers R L H p.1 p.2 = Ok X
                           ∧ pinn X = Ok row
                           ∧ s = amplify c (out_stress row))
          (grid R) sf.
Proof.
  intros Hsf. apply mapM_Ok in Hsf.
  eapply Forall2_impl; [exact Hsf|]. intros p s. apply mesh_point_inv.
Qed.

End MeshFacts.

(** ** The grid sampler *)

Lemma normalised_proper (scalers : gmap string (gmap string Q))
    (v w : Q) (key : string) :
  v == w → normalised scalers v key == normalised scalers w key.
Proof. intros Hvw. unfold normalised. by rewrite Hvw. Qed.

Lemma norm_ok (scalers : gmap string (gmap string Q)) (v : Q) (key : string) :
  is_Some (scaler_param scalers key "mean") →
  (∃ s, scaler_param scalers key "scale" = Some s ∧ ¬ s == 0) →
  ∃ v', norm scalers v key = Ok v' ∧ v' == normalised scalers v key.
Proof.
  intros [m Hm] (s & Hs & Hs0).
  unfold norm, normalised. rewrite Hm, Hs. simpl.
  unfold scaler_param in Hm, Hs.
  destruct (scalers !! key) as [entry|] eqn:Hentry; [|discriminate].
  simpl in Hm, Hs.
  unfold Py.getitem, mbind, result_bind. rewrite Hentry, Hm, Hs.
  rewrite truediv_ok by exact Hs0.
  eexists. split; [reflexivity|].
  by rewrite Qred_correct, sub_spec.
Qed.

Lemma norm_missing (scalers : gmap string (gmap string Q)) (v : Q) (key : string) :
  scalers !! key = None → norm scalers v key = Raise (KeyError key).
Proof.
  intros Hkey. unfold norm, Py.getitem, mbind, result_bind. by rewrite Hkey.
Qed.

Lemma phys_ok (i R : nat) (extent : Q) :
  (0 < R)%nat → ∃ p, phys i R extent = Ok p ∧ p == phys_coord i R extent.
Proof.
  intros HR. unfold phys, phys_coord, Py.of_int.
  rewrite truediv_ok.
  - eexists. split; [reflexivity|].
    by rewrite mul_spec, sub_spec, Qred_correct.
  - intros H0. unfold Qeq in H0. simpl in H0. lia.
Qed.

Lemma phys_zero (i : nat) (extent : Q) :
  phys i 0 extent = Raise ZeroDivisionError.
Proof. reflexivity. Qed.

Lemma features_ok (scalers : gmap string (gmap string Q))
    (R : nat) (L H : Q) (x y : nat) :
  complete scalers → (0 < R)%nat →
  ∃ X, features scalers R L H x y = Ok X
       ∧ Forall2 Qeq X
           [normalised scalers (phys_coord x R L) "x";
            normalised scalers (phys_coord y R H) "y";
            normalised scalers 50000 "load_mag";
            normalised scalers 5.5 "global_deflection";
            normalised scalers 25 "fc";
            normalised scalers 314 "fy"].
Proof.
  intros Hc HR. unfold complete, required_features in Hc.
  repeat match goal with
         | Hf : Forall _ (_ :: _) |- _ =>
           apply Forall_cons in Hf; destruct Hf as [[? ?] Hf]
         end.
  destruct (phys_ok x R L HR) as (px & Hpx & Hpx').
  destruct (phys_ok y R H HR) as (py & Hpy & Hpy').
  destruct (norm_ok scalers px "x") as (fx & Hfx & Hfx'); [done..|].
  destruct (norm_ok scalers py "y") as (fy & Hfy & Hfy'); [done..|].
  destruct (norm_ok scalers 50000 "load_mag") as (fl & Hfl & Hfl'); [done..|].
  destruct (norm_ok scalers 5.5 "global_deflection") as (fd & Hfd & Hfd'); [done..|].
  destruct (norm_ok scalers 25 "fc") as (fc & Hfc & Hfc'); [done..|].
  destruct (norm_ok scalers 314 "fy") as (ff & Hff & Hff'); [done..|].
  exists [fx; fy; fl; fd; fc; ff]. split.
  - unfold features, mbind, result_bind.
    by rewrite Hpx, Hpy, Hfx, Hfy, Hfl, Hfd, Hfc, Hff.
  - repeat constructor; try assumption.
    + rewrite Hfx'. by apply normalised_proper.
    + rewrite Hfy'. by apply normalised_proper.
Qed.

Lemma Forall2_replicate_r {A B : Type} (P : A → B → Prop) (l : list A) (y : B) :
  Forall (λ x, P x y) l → Forall2 P l (replicate (length l) y).
Proof. induction 1; simpl; by constructor. Qed.

Lemma complete_example : complete example_scalers.
Proof.
  unfold complete, required_features.
  repeat constructor; try (vm_compute; eauto; fail);
    (eexists; split; [vm_compute; reflexivity|vm_compute; discriminate]).
Qed.

(** With the example table and a constant surrogate the mesh loop yields
    the same amplified stress at each of the 2601 points. *)
Lemma stress_loop_constant (s c : Q) :
  stress_loop example_scalers (constant_pinn s)
    RESOLUTION BEAM_LENGTH BEAM_HEIGHT c
  = Ok (replicate 2601 (amplify c s)).
Proof.
  unfold stress_loop. apply mapM_Ok.
  change 2601%nat with (S RESOLUTION * S RESOLUTION)%nat.
  rewrite <- length_grid. apply Forall2_replicate_r.
  apply Forall_forall. intros [x y] _.
  destruct (features_ok example_scalers RESOLUTION BEAM_LENGTH BEAM_HEIGHT x y)
    as (X & HX & _); [apply complete_example|unfold RESOLUTION; lia|].
  unfold mesh_point, mbind, result_bind. simpl. by rewrite HX.
Qed.

(** ** Runs of one connection *)

Section RunFacts.

Variable scalers : gmap string (gmap string Q).
Variable pinn : list Q → result PinnRow.
Variable lstm : list (Q * Q) → result Q.

Local Abbreviation run := (websocket_endpoint scalers pinn lstm).
Local Abbreviation tick1 := (tick scalers pinn lstm).

Lemma run_S (n : nat) (st : State) :
  run (S n) st =
  match tick1 st with
  | (st1, Raise e) => (st1, [], Crashed e)
  | (st1, Ok m) =>
    ((run n (advance_clock st1)).1.1,
     m :: (run n (advance_clock st1)).1.2,
     (run n (advance_clock st1)).2)
  end.
Proof.
  unfold websocket_endpoint. simpl.
  destruct (tick1 st) as [st1 [m|e]]; [|reflexivity].
  by destruct (while_True _ n _) as [[st2 ms] o].
Qed.

(** The window after a run is the window before it with the samples of the
    run pushed in order: one per message, and one more when the prognostics
    raised after the push. *)
Lemma run_history (n : nat) (st0 : State) :
  ∃ samples,
    history (run n st0).1.1
    = foldl (Py.deque_append history_maxlen) (history st0) samples
    ∧ Forall2 sample_of (run n st0).1.2 (take (length (run n st0).1.2) samples)
    ∧ (length (run n st0).1.2 ≤ length samples ≤ S (length (run n st0).1.2))%nat
    ∧ ((run n st0).2 = Running →
       length samples = n ∧ length (run n st0).1.2 = n).
Proof.
  revert st0. induction n as [|n IH]; intros st0.
  - exists []. simpl. repeat split; try constructor; lia.
  - rewrite run_S.
    destruct (tick1 st0) as [st' r] eqn:Ht. apply tick_inv in Ht.
    destruct Ht
      as [e He|sf ms e Hsf Hm st1 Hprog|sf ms dp rul Hsf Hm st1 Hprog].
    + exists []. simpl. repeat split; try constructor; try lia; discriminate.
    + exists [(ms, Py.np_mean sf)]. simpl.
      repeat split; try constructor; try lia; discriminate.
    + destruct (IH (advance_clock st1)) as (samples & Hh & Hs & Hlen & Hrun).
      exists ((ms, Py.np_mean sf) :: samples). cbn [fst snd length take foldl].
      split; [exact Hh|]. split.
      { constructor; [|exact Hs]. split; [exact Hm|reflexivity]. }
      split; [lia|]. intros Ho. destruct (Hrun Ho). lia.
Qed.

(** Times reported by a run: the k-th message carries the clock of the
    start plus k time steps. *)
Lemma run_times (n : nat) (st0 : State) (k : nat) (m : Message) :
  (run n st0).1.2 !! k = Some m →
  msg_time m == time st0 + inject_Z (Z.of_nat k) * TIME_STEP.
Proof.
  revert st0 k m. induction n as [|n IH]; intros st0 k m; [discriminate|].
  rewrite run_S.
  destruct (tick1 st0) as [st' r] eqn:Ht. apply tick_inv in Ht.
  destruct Ht
    as [e He|sf ms e Hsf Hm st1 Hprog|sf ms dp rul Hsf Hm st1 Hprog];
    try discriminate.
  cbn [fst snd]. destruct k as [|k].
  - intros [= <-]. cbn [msg_time]. change (inject_Z (Z.of_nat 0)) with 0. lra.
  - simpl lookup. intros Hk. apply IH in Hk. rewrite Hk.
    cbn [advance_clock time st1 update_state]. rewrite add_spec.
    rewrite Nat2Z.inj_succ, <- Z.add_1_r, inject_Z_plus.
    unfold TIME_STEP. change (inject_Z 1) with 1. lra.
Qed.

(** The first message of a run carries the clock of the start. *)
Lemma run_first_time (n : nat) (st0 : State) (m : Message) :
  (run n st0).1.2 !! 0%nat = Some m → msg_time m = time st0.
Proof.
  destruct n as [|n]; [discriminate|]. rewrite run_S.
  destruct (tick1 st0) as [st' r] eqn:Ht. apply tick_inv in Ht.
  destruct Ht
    as [e He|sf ms e Hsf Hm st1 Hprog|sf ms dp rul Hsf Hm st1 Hprog];
    try discriminate.
  cbn [fst snd]. by intros [= <-].
Qed.

(** The clock after a run: one time step per message sent. *)
Lemma run_clock (n : nat) (st0 : State) :
  time (run n st0).1.1
  == time st0 + inject_Z (Z.of_nat (length (run n st0).1.2)) * TIME_STEP.
Proof.
  revert st0. induction n as [|n IH]; intros st0.
  - cbn [websocket_endpoint while_True fst snd length].
    change (inject_Z (Z.of_nat 0)) with 0. lra.
  - rewrite run_S.
    destruct (tick1 st0) as [st' r] eqn:Ht. apply tick_inv in Ht.
    destruct Ht
      as [e He|sf ms e Hsf Hm st1 Hprog|sf ms dp rul Hsf Hm st1 Hprog].
    + cbn [fst snd length]. change (inject_Z (Z.of_nat 0)) with 0. lra.
    + cbn [fst snd length time st1 update_state].
      change (inject_Z (Z.of_nat 0)) with 0. lra.
    + cbn [fst snd length]. rewrite IH.
      cbn [advance_clock time st1 update_state]. rewrite add_spec.
      rewrite Nat2Z.inj_succ, <- Z.add_1_r, inject_Z_plus.
      unfold TIME_STEP. change (inject_Z 1) with 1. lra.
Qed.

End RunFacts.

(** ** Evaluating runs with a constant surrogate *)

Lemma tick_constant (s : Q) (lstm : list (Q * Q) → result Q) (st : State) :
  tick example_scalers (constant_pinn s) lstm st = constant_tick s lstm st.
Proof.
  unfold tick, constant_tick. simpl (if DEBUG_NO_VGG then _ else _).
  by rewrite stress_loop_constant.
Qed.

Lemma while_True_ext (body1 body2 : State → State * result Message) :
  (∀ st, body1 st = body2 st) →
  ∀ n st, while_True body1 n st = while_True body2 n st.
Proof.
  intros Hbody. induction n as [|n IH]; intros st; [reflexivity|].
  simpl. rewrite Hbody. destruct (body2 st) as [st1 [m|e]]; [|reflexivity].
  by rewrite IH.
Qed.

Lemma run_constant (s : Q) (lstm : list (Q * Q) → result Q) (n : nat) (st : State) :
  websocket_endpoint example_scalers (constant_pinn s) lstm n st
  = while_True (constant_tick s lstm) n st.
Proof.
  unfold websocket_endpoint. apply while_True_ext. intros st'.
  apply tick_constant.
Qed.

(** ** Claims on the damage law and the amplification *)

(** C1 (as amended).  The growth rate is not clamped.  For a tick whose
    maximum stress is at least -50000, that is whose growth rate is
    non-negative, and whose prior damage lies in [0,1], the damage after the
    tick is the evolved value, is not smaller than the damage before, and
    lies in [0,1]. *)
Theorem damage_nondecreasing_when_growth_nonneg
    (scalers : gmap string (gmap string Q))
    (pinn : list Q → result PinnRow) (lstm : list (Q * Q) → result Q)
    (st : State) (sf : list Q) (max_stress : Q) :
  stress_loop scalers pinn RESOLUTION BEAM_LENGTH BEAM_HEIGHT (damage_state st)
    = Ok sf →
  Py.np_max sf = Ok max_stress →
  0 <= damage_state st → damage_state st <= 1 →
  -50000 <= max_stress →
  let st' := (tick scalers pinn lstm st).1 in
  damage_state st' = evolve (damage_state st) max_stress
  ∧ 0 <= growth_rate max_stress
  ∧ damage_state st <= damage_state st'
  ∧ 0 <= damage_state st' ∧ damage_state st' <= 1.
Proof.
  intros Hsf Hmax H0 H1 Hms st'.
  assert (Hd : damage_state st' = evolve (damage_state st) max_stress).
  { subst st'. by rewrite (tick_state _ _ lstm st sf max_stress). }
  apply growth_rate_nonneg in Hms.
  pose proof (evolve_monotone (damage_state st) max_stress H1 Hms).
  pose proof (evolve_le_1 (damage_state st) max_stress).
  rewrite Hd. repeat split; try assumption. lra.
Qed.

Lemma damage_nondecreasing_when_growth_nonneg_witness :
  let st' := (tick example_scalers (constant_pinn 1000) (constant_lstm 0.85)
                initial_state).1 in
  damage_state st' = evolve 0.05 1125
  ∧ 0 <= growth_rate 1125
  ∧ 0.05 <= damage_state st'
  ∧ 0 <= damage_state st' ∧ damage_state st' <= 1.
Proof.
  apply (damage_nondecreasing_when_growth_nonneg
           example_scalers (constant_pinn 1000) (constant_lstm 0.85)
           initial_state (replicate 2601 1125) 1125).
  - rewrite stress_loop_constant. vm_compute. reflexivity.
  - vm_compute. reflexivity.
  - vm_compute. discriminate.
  - vm_compute. discriminate.
  - vm_compute. discriminate.
Defined.

(** C1, counterexample.  With a surrogate predicting -100000 at every point
    the first tick lowers the damage from 0.05 to 0.0475; with -2000000 it
    leaves [0,1] and becomes -0.038. *)
Lemma damage_can_decrease :
  let st1 := (tick example_scalers (constant_pinn (-100000)) (constant_lstm 0.85)
                initial_state).1 in
  let st2 := (tick example_scalers (constant_pinn (-2000000)) (constant_lstm 0.85)
                initial_state).1 in
  damage_state initial_state == 0.05
  ∧ damage_state st1 == 0.0475
  ∧ ¬ damage_state initial_state <= damage_state st1
  ∧ damage_state st2 == -0.038
  ∧ ¬ 0 <= damage_state st2.
Proof.
  intros st1 st2. subst st1 st2. rewrite !tick_constant.
  vm_compute. repeat split; try reflexivity; intros H; apply H; reflexivity.
Qed.

(** C2 (as amended).  Every tick that reaches the damage update computes
    growth_rate = 0.002 + 0.00000004 * max_stress and sets the damage to
    min(1.0, old + growth_rate).  Once the damage is 1.0 a non-negative
    growth rate leaves it at 1.0.  Damage 0.05 and maximum stress 1000 give
    growth 0.00204 and new damage 0.05204. *)
Theorem damage_transition
    (scalers : gmap string (gmap string Q))
    (pinn : list Q → result PinnRow) (lstm : list (Q * Q) → result Q)
    (st : State) (sf : list Q) (max_stress : Q) :
  stress_loop scalers pinn RESOLUTION BEAM_LENGTH BEAM_HEIGHT (damage_state st)
    = Ok sf →
  Py.np_max sf = Ok max_stress →
  let st' := (tick scalers pinn lstm st).1 in
  growth_rate max_stress == 0.002 + 0.00000004 * max_stress
  ∧ damage_state st' == Qmin 1.0 (damage_state st + growth_rate max_stress)
  ∧ (damage_state st == 1.0 → 0 <= growth_rate max_stress →
     damage_state st' == 1.0)
  ∧ growth_rate 1000 == 0.00204
  ∧ evolve 0.05 1000 == 0.05204.
Proof.
  intros Hsf Hmax st'.
  assert (Hd : damage_state st' = evolve (damage_state st) max_stress).
  { subst st'. by rewrite (tick_state _ _ lstm st sf max_stress). }
  rewrite Hd. split; [apply growth_rate_spec|]. split; [apply evolve_spec|].
  split; [|split; vm_compute; reflexivity].
  intros H1 Hg. rewrite evolve_terminal; [reflexivity|lra|exact Hg].
Qed.

Lemma damage_transition_witness :
  let st' := (tick example_scalers (constant_pinn 1000) (constant_lstm 0.85)
                initial_state).1 in
  growth_rate 1125 == 0.002 + 0.00000004 * 1125
  ∧ damage_state st' == Qmin 1.0 (0.05 + growth_rate 1125)
  ∧ (0.05 == 1.0 → 0 <= growth_rate 1125 → damage_state st' == 1.0)
  ∧ growth_rate 1000 == 0.00204
  ∧ evolve 0.05 1000 == 0.05204.
Proof.
  apply (damage_transition
           example_scalers (constant_pinn 1000) (constant_lstm 0.85)
           initial_state (replicate 2601 1125) 1125).
  - rewrite stress_loop_constant. vm_compute. reflexivity.
  - vm_compute. reflexivity.
Defined.

(** C2, counterexample.  With a surrogate predicting -25000000 at every
    point the damage reaches 1.0 at the fourth tick from the initial state
    and the fifth tick moves it to -2.498: the state 1.0 is not terminal. *)
Lemma damage_one_not_terminal :
  let after k :=
    (websocket_endpoint example_scalers (constant_pinn (-25000000))
       (constant_lstm 0.85) k initial_state).1.1 in
  damage_state (after 4%nat) == 1.0
  ∧ damage_state (after 5%nat) == -2.498
  ∧ ¬ damage_state (after 5%nat) == 1.0.
Proof.
  intros after. subst after. cbv beta. rewrite !run_constant.
  vm_compute. repeat split; try reflexivity. discriminate.
Qed.

(** C8.  Every entry of the stress field of a tick is the surrogate's stress
    at that mesh point times (1 + 2.5 * c), where c is the damage state read
    at the start of the tick, before that tick's damage update; for c = 0 the
    entry equals the base stress. *)
Theorem amplification_law
    (scalers : gmap string (gmap string Q))
    (pinn : list Q → result PinnRow) (lstm : list (Q * Q) → result Q)
    (st st' : State) (m : Message) :
  tick scalers pinn lstm st = (st', Ok m) →
  Forall2
    (λ p s, ∃ X row,
        features scalers RESOLUTION BEAM_LENGTH BEAM_HEIGHT p.1 p.2 = Ok X
        ∧ pinn X = Ok row
        ∧ s = amplify (damage_state st) (out_stress row)
        ∧ s == out_stress row * (1 + 2.5 * damage_state st)
        ∧ (damage_state st == 0 → s == out_stress row))
    (grid RESOLUTION) (msg_stress_field m)
  ∧ (∀ b c : Q, amplify c b == b * (1 + 2.5 * c))
  ∧ (∀ b : Q, amplify 0 b == b).
Proof.
  intros Htick. split; [|split].
  - apply tick_inv in Htick.
    inversion Htick as [| |sf ms dp rul Hsf Hm st1 Hprog]; subst. simpl.
    apply stress_loop_inv in Hsf.
    eapply Forall2_impl; [exact Hsf|].
    intros p s (X & row & HX & Hrow & ->).
    exists X, row. repeat split; try assumption.
    + apply amplify_spec.
    + intros Hc. rewrite amplify_spec, Hc. lra.
  - intros b c. apply amplify_spec.
  - intros b. rewrite amplify_spec. lra.
Qed.

Lemma amplification_law_witness :
  ∃ st' m,
    tick example_scalers (constant_pinn 1000) (constant_lstm 0.85) initial_state
      = (st', Ok m)
    ∧ Forall2
        (λ p s, ∃ X row,
            features example_scalers RESOLUTION BEAM_LENGTH BEAM_HEIGHT p.1 p.2
              = Ok X
            ∧ constant_pinn 1000 X = Ok row
            ∧ s = amplify 0.05 (out_stress row)
            ∧ s == out_stress row * (1 + 2.5 * 0.05)
            ∧ (0.05 == 0 → s == out_stress row))
        (grid RESOLUTION) (msg_stress_field m).
Proof.
  destruct (tick example_scalers (constant_pinn 1000) (constant_lstm 0.85)
              initial_state) as [st' [m|e]] eqn:Htick.
  - exists st', m. split; [reflexivity|].
    exact (proj1 (amplification_law _ _ _ _ _ _ Htick)).
  - rewrite tick_constant in Htick. vm_compute in Htick. discriminate.
Defined.

(** ** The prognostics gate *)

(** C5.  In a tick that reached the prognostics step, the LSTM is consulted
    exactly when the history window, after this tick's push, holds 10
    samples.  If it does not, the message carries the current damage state
    as prediction and no RUL ([None]), whatever the LSTM would answer.  If
    it does, the outcome is decided by the LSTM applied to the window: its
    exception ends the tick, and its prediction p is reported with
    rul = (0.9 - p) / 1.0 when p < 0.9 and rul = 0.0 otherwise. *)
Theorem prognostics_gate
    (scalers : gmap string (gmap string Q))
    (pinn : list Q → result PinnRow) (lstm : list (Q * Q) → result Q)
    (st : State) (sf : list Q) (max_stress : Q) :
  stress_loop scalers pinn RESOLUTION BEAM_LENGTH BEAM_HEIGHT (damage_state st)
    = Ok sf →
  Py.np_max sf = Ok max_stress →
  let st1 := update_state st max_stress (Py.np_mean sf) in
  let r := (tick scalers pinn lstm st).2 in
  (length (history st1) ≠ 10%nat →
   r = Ok {| msg_time := time st;
             msg_stress_field := sf;
             msg_damage_prediction := damage_state st1;
             msg_rul := None |})
  ∧ (length (history st1) = 10%nat →
     match lstm (history st1) with
     | Raise e => r = Raise e
     | Ok p =>
       ∃ rul,
         r = Ok {| msg_time := time st;
                   msg_stress_field := sf;
                   msg_damage_prediction := p;
                   msg_rul := Some rul |}
         ∧ (p < 0.9 → rul == (0.9 - p) / 1.0)
         ∧ (0.9 <= p → rul = 0.0)
     end).
Proof.
  intros Hsf Hmax st1 r. subst r.
  rewrite (tick_unfold _ _ lstm st sf max_stress Hsf Hmax). fold st1.
  cbn [snd]. unfold prognostics. change history_maxlen with 10%nat. split.
  - intros Hlen. apply Nat.eqb_neq in Hlen. by rewrite Hlen.
  - intros Hlen. apply Nat.eqb_eq in Hlen. rewrite Hlen.
    unfold mbind, result_bind.
    destruct (lstm (history st1)) as [p|e]; [|reflexivity].
    destruct (Py.lt p FAILURE_THRESHOLD) eqn:Hlt.
    + apply lt_spec in Hlt. unfold FAILURE_THRESHOLD in *.
      rewrite truediv_ok by (unfold TIME_STEP; lra). simpl.
      eexists. split; [reflexivity|]. split.
      * intros _. rewrite Qred_correct, sub_spec. reflexivity.
      * intros Hge. lra.
    + apply lt_false in Hlt. unfold FAILURE_THRESHOLD in *.
      exists 0.0. split; [reflexivity|]. split; [intros Hp; lra|reflexivity].
Qed.

Lemma prognostics_gate_witness :
  let st9 :=
    (while_True (constant_tick 0 (constant_lstm 0.85)) 9 initial_state).1.1 in
  (tick example_scalers (constant_pinn 0) (constant_lstm 0.85) initial_state).2
  = Ok {| msg_time := 0.0;
          msg_stress_field := replicate 2601 0;
          msg_damage_prediction := evolve 0.05 0;
          msg_rul := None |}
  ∧ ∃ rul,
      (tick example_scalers (constant_pinn 0) (constant_lstm 0.85) st9).2
      = Ok {| msg_time := time st9;
              msg_stress_field := replicate 2601 0;
              msg_damage_prediction := 0.85;
              msg_rul := Some rul |}
      ∧ (0.85 < 0.9 → rul == (0.9 - 0.85) / 1.0)
      ∧ (0.9 <= 0.85 → rul = 0.0).
Proof.
  intros st9. split.
  - refine (proj1 (prognostics_gate example_scalers (constant_pinn 0)
                     (constant_lstm 0.85) initial_state (replicate 2601 0) 0
                     _ _) _).
    + rewrite stress_loop_constant. vm_compute. reflexivity.
    + vm_compute. reflexivity.
    + vm_compute. discriminate.
  - refine (proj2 (prognostics_gate example_scalers (constant_pinn 0)
                     (constant_lstm 0.85) st9 (replicate 2601 0) 0
                     _ _) _).
    + rewrite stress_loop_constant. vm_compute. reflexivity.
    + vm_compute. reflexivity.
    + vm_compute. reflexivity.
Defined.

(** ** The history window *)

(** C7.  The history deque never holds more than 10 samples.  A push on a
    full window drops exactly the oldest sample and appends the new one
    behind the others, which keep their order.  After any sequence of pushes
    from the empty window it holds the last 10 samples pushed, in arrival
    order (all of them when fewer than 10 were pushed).  In the server,
    after any number of iterations from the initial state the window is the
    last 10 of the samples pushed by the ticks, one per message sent (and
    one more when the prognostics raised after the push). *)
Theorem history_window_fifo :
  (∀ (h : list (Q * Q)) (x : Q * Q),
      (length h ≤ 10)%nat →
      (length (Py.deque_append history_maxlen h x) ≤ 10)%nat)
  ∧ (∀ (h : list (Q * Q)) (x : Q * Q),
      length h = 10%nat →
      Py.deque_append history_maxlen h x = drop 1 h ++ [x])
  ∧ (∀ xs : list (Q * Q),
      let h := foldl (Py.deque_append history_maxlen) [] xs in
      h = last_n 10 xs
      ∧ (length h ≤ 10)%nat
      ∧ ((10 ≤ length xs)%nat → length h = 10%nat))
  ∧ (∀ (scalers : gmap string (gmap string Q))
       (pinn : list Q → result PinnRow) (lstm : list (Q * Q) → result Q)
       (n : nat),
      let r := websocket_endpoint scalers pinn lstm n initial_state in
      ∃ samples,
        Forall2 sample_of r.1.2 (take (length r.1.2) samples)
        ∧ (length r.1.2 ≤ length samples ≤ S (length r.1.2))%nat
        ∧ history r.1.1 = last_n 10 samples
        ∧ (length (history r.1.1) ≤ 10)%nat).
Proof.
  split; [|split; [|split]].
  - intros h x. apply length_deque_append.
  - intros h x Hlen. apply deque_append_full; [unfold history_maxlen; lia|exact Hlen].
  - intros xs h. subst h. rewrite foldl_deque_append.
    unfold history_maxlen. rewrite length_last_n. repeat split; lia.
  - intros scalers pinn lstm n r.
    destruct (run_history scalers pinn lstm n initial_state)
      as (samples & Hh & Hs & Hlen & _).
    exists samples. fold r in Hh, Hs, Hlen.
    change (history initial_state) with (@nil (Q * Q)) in Hh.
    rewrite foldl_deque_append in Hh. unfold history_maxlen in Hh.
    repeat split; try assumption; try lia.
    rewrite Hh, length_last_n. lia.
Qed.

Lemma history_window_fifo_witness :
  let r := websocket_endpoint example_scalers (constant_pinn 0)
             (constant_lstm 0.85) 12 initial_state in
  length r.1.2 = 12%nat
  ∧ history r.1.1 = replicate 10 (0, 0)
  ∧ ∃ samples,
      Forall2 sample_of r.1.2 (take (length r.1.2) samples)
      ∧ (length r.1.2 ≤ length samples ≤ S (length r.1.2))%nat
      ∧ history r.1.1 = last_n 10 samples
      ∧ (length (history r.1.1) ≤ 10)%nat.
Proof.
  intros r. split; [|split].
  - subst r. rewrite run_constant. vm_compute. reflexivity.
  - subst r. rewrite run_constant. vm_compute. reflexivity.
  - exact (proj2 (proj2 (proj2 history_window_fifo))
             example_scalers (constant_pinn 0) (constant_lstm 0.85) 12%nat).
Defined.

(** ** The grid sampler *)

Lemma mapM_bind {A B C : Type} (f : A → result B) (g : B → result C)
    (l : list A) (k : list B) :
  mapM f l = Ok k → mapM (λ x, f x ≫= g) l = mapM g k.
Proof.
  revert k. induction l as [|x l IH]; intros k.
  - intros [= <-]. reflexivity.
  - rewrite mapM_cons. destruct (f x) as [y|e] eqn:Hy; [|discriminate].
    destruct (mapM f l) as [k'|e] eqn:Hk; [|discriminate].
    intros [= <-]. rewrite !mapM_cons, Hy. cbn [mbind result_bind].
    by rewrite (IH k' eq_refl).
Qed.

(** The rows built by the mesh loop, and the loop as the sequence of
    queries on them. *)
Lemma stress_loop_rows (scalers : gmap string (gmap string Q))
    (R : nat) (L H : Q) :
  complete scalers → (0 < R)%nat →
  ∃ Xs, mapM (λ p : nat * nat, features scalers R L H p.1 p.2) (grid R) = Ok Xs
        ∧ length Xs = (S R * S R)%nat
        ∧ (∀ ix iy : nat, (ix ≤ R)%nat → (iy ≤ R)%nat →
             ∃ X, Xs !! (iy * S R + ix)%nat = Some X
                  ∧ features scalers R L H ix iy = Ok X)
        ∧ ∀ (pinn : list Q → result PinnRow) (c : Q),
            stress_loop scalers pinn R L H c = mapM (query pinn c) Xs.
Proof.
  intros Hc HR.
  destruct (mapM_total (λ p : nat * nat, features scalers R L H p.1 p.2)
              (grid R)) as [Xs HXs].
  { intros [x y]. destruct (features_ok scalers R L H x y Hc HR) as (X & HX & _).
    by exists X. }
  exists Xs. split; [exact HXs|].
  pose proof (proj1 (mapM_Ok _ _ _) HXs) as Hall.
  assert (Hlen : length Xs = (S R * S R)%nat).
  { rewrite <- (Forall2_length _ _ _ Hall). apply length_grid. }
  split; [exact Hlen|]. split.
  - intros ix iy Hix Hiy. pose proof (lookup_grid R ix iy Hix Hiy) as Hg.
    destruct (Forall2_lookup_l _ _ _ _ _ Hall Hg) as (X & HX & Hf).
    by exists X.
  - intros pinn c. unfold stress_loop.
    exact (mapM_bind (λ p : nat * nat, features scalers R L H p.1 p.2)
             (query pinn c) (grid R) Xs HXs).
Qed.

(** C6.  For a scaler table with a mean and a non-zero scale for each of
    the six features and a mesh resolution R > 0, the mesh loop builds
    exactly (R+1)^2 input rows, y outer and x inner: the row of the point
    (ix, iy) is at position iy*(R+1)+ix and holds the six features
    normalised as (value - mean) / scale, the first two values being
    phys_x = (ix/R - 0.5) * L and phys_y = (iy/R - 0.5) * H.  The loop is the
    sequence of the surrogate's queries on these rows, in that order; so is
    every tick, on the rows of the 51 x 51 mesh: a tick raises what the
    first failing query raises, and a tick that sends a message has queried
    the surrogate on each of the rows and put the amplified answers, in
    order, in the stress field.  For R = 2 the 9 points run from (0,0) to
    (2,2). *)
Theorem grid_sampler
    (scalers : gmap string (gmap string Q)) (R : nat) (L H : Q) :
  complete scalers → (0 < R)%nat →
  length (grid R) = ((R + 1) * (R + 1))%nat
  ∧ (∀ ix iy : nat, (ix ≤ R)%nat → (iy ≤ R)%nat →
       grid R !! (iy * (R + 1) + ix)%nat = Some (ix, iy))
  ∧ (∀ ix iy : nat,
       ∃ X, features scalers R L H ix iy = Ok X
            ∧ Forall2 Qeq X
                [normalised scalers (phys_coord ix R L) "x";
                 normalised scalers (phys_coord iy R H) "y";
                 normalised scalers 50000 "load_mag";
                 normalised scalers 5.5 "global_deflection";
                 normalised scalers 25 "fc";
                 normalised scalers 314 "fy"])
  ∧ (∀ (pinn : list Q → result PinnRow) (c : Q) (sf : list Q),
       stress_loop scalers pinn R L H c = Ok sf →
       length sf = ((R + 1) * (R + 1))%nat
       ∧ Forall2 (λ p s, ∃ X row, features scalers R L H p.1 p.2 = Ok X
                                  ∧ pinn X = Ok row
                                  ∧ s = amplify c (out_stress row))
                 (grid R) sf)
  ∧ grid 2 = [(0, 0); (1, 0); (2, 0); (0, 1); (1, 1); (2, 1);
              (0, 2); (1, 2); (2, 2)]%nat
  ∧ (∃ Xs,
       mapM (λ p : nat * nat, features scalers R L H p.1 p.2) (grid R) = Ok Xs
       ∧ length Xs = ((R + 1) * (R + 1))%nat
       ∧ (∀ ix iy : nat, (ix ≤ R)%nat → (iy ≤ R)%nat →
            ∃ X, Xs !! (iy * (R + 1) + ix)%nat = Some X
                 ∧ features scalers R L H ix iy = Ok X)
       ∧ ∀ (pinn : list Q → result PinnRow) (c : Q),
           stress_loop scalers pinn R L H c = mapM (query pinn c) Xs)
  ∧ (∃ Xs,
       mapM (λ p : nat * nat,
               features scalers RESOLUTION BEAM_LENGTH BEAM_HEIGHT p.1 p.2)
         (grid RESOLUTION) = Ok Xs
       ∧ length Xs = ((RESOLUTION + 1) * (RESOLUTION + 1))%nat
       ∧ ∀ (pinn : list Q → result PinnRow) (lstm : list (Q * Q) → result Q)
           (st : State),
           tick scalers pinn lstm st
           = match mapM (query pinn (damage_state st)) Xs with
             | Ok stress_field => after_mesh lstm st stress_field
             | Raise e => (st, Raise e)
             end
           ∧ ∀ st' m, tick scalers pinn lstm st = (st', Ok m) →
               Forall2 (λ X s, ∃ row, pinn X = Ok row
                                      ∧ s = amplify (damage_state st)
                                              (out_stress row))
                       Xs (msg_stress_field m)).
Proof.
  intros Hc HR. replace (R + 1)%nat with (S R) by lia.
  split; [apply length_grid|]. split; [apply lookup_grid|].
  split; [intros ix iy; by apply features_ok|]. split; [|split; [reflexivity|]].
  { intros pinn c sf Hsf. split.
    - by apply length_stress_loop in Hsf.
    - by apply stress_loop_inv. }
  split; [by apply stress_loop_rows|].
  destruct (stress_loop_rows scalers RESOLUTION BEAM_LENGTH BEAM_HEIGHT Hc)
    as (Xs & HXs & Hlen & _ & Hloop); [unfold RESOLUTION; lia|].
  exists Xs. split; [exact HXs|]. split; [exact Hlen|].
  intros pinn lstm st.
  assert (Htick : tick scalers pinn lstm st
                  = match mapM (query pinn (damage_state st)) Xs with
                    | Ok stress_field => after_mesh lstm st stress_field
                    | Raise e => (st, Raise e)
                    end).
  { unfold tick. cbn [DEBUG_NO_VGG]. by rewrite Hloop. }
  split; [exact Htick|]. intros st' m Hm. rewrite Htick in Hm.
  destruct (mapM (query pinn (damage_state st)) Xs) as [sf|e] eqn:Hsf;
    [|discriminate].
  assert (Hfield : msg_stress_field m = sf).
  { unfold after_mesh in Hm. destruct (Py.np_max sf); [|discriminate].
    destruct (prognostics _ _ _) as [[dp rul]|e]; [|discriminate].
    by injection Hm as _ <-. }
  rewrite Hfield. apply mapM_Ok in Hsf.
  eapply Forall2_impl; [exact Hsf|]. cbn beta. intros X s. unfold query.
  destruct (pinn X) as [row|e]; [|discriminate].
  cbn [mbind result_bind]. intros [= <-]. by exists row.
Qed.

Lemma grid_sampler_witness :
  (length (grid RESOLUTION) = 2601%nat
   ∧ grid RESOLUTION !! 0%nat = Some (0, 0)%nat
   ∧ grid RESOLUTION !! 2600%nat = Some (50, 50)%nat
   ∧ ∃ X, features example_scalers RESOLUTION BEAM_LENGTH BEAM_HEIGHT 50 0 = Ok X
          ∧ Forall2 Qeq X [1; -1; 1; 0.25; -1; -1.72])
  ∧ ∃ Xs,
      mapM (λ p : nat * nat,
              features example_scalers RESOLUTION BEAM_LENGTH BEAM_HEIGHT p.1 p.2)
        (grid RESOLUTION) = Ok Xs
      ∧ length Xs = 2601%nat
      ∧ (∃ X, Xs !! 50%nat = Some X
              ∧ Forall2 Qeq X [1; -1; 1; 0.25; -1; -1.72])
      ∧ stress_loop example_scalers (constant_pinn 1000)
          RESOLUTION BEAM_LENGTH BEAM_HEIGHT 0.05
        = mapM (query (constant_pinn 1000) 0.05) Xs
      ∧ (∃ Xs',
           length Xs' = 2601%nat
           ∧ tick example_scalers (constant_pinn 1000) (constant_lstm 0.85)
               initial_state
             = match mapM (query (constant_pinn 1000)
                             (damage_state initial_state)) Xs' with
               | Ok stress_field =>
                 after_mesh (constant_lstm 0.85) initial_state stress_field
               | Raise e => (initial_state, Raise e)
               end
           ∧ ∀ st' m,
               tick example_scalers (constant_pinn 1000) (constant_lstm 0.85)
                 initial_state = (st', Ok m) →
               Forall2 (λ X s, ∃ row, constant_pinn 1000 X = Ok row
                                      ∧ s = amplify (damage_state initial_state)
                                              (out_stress row))
                       Xs' (msg_stress_field m)).
Proof.
  destruct (grid_sampler example_scalers RESOLUTION BEAM_LENGTH BEAM_HEIGHT
              complete_example ltac:(unfold RESOLUTION; lia))
    as (Hlen & Hidx & Hfeat & _ & _ & (Xs & HXs & HlenX & HrowX & Hloop)
        & (Xs' & _ & HlenX' & Htick)).
  assert (H50 : Forall2 Qeq
            [normalised example_scalers (phys_coord 50 RESOLUTION BEAM_LENGTH) "x";
             normalised example_scalers (phys_coord 0 RESOLUTION BEAM_HEIGHT) "y";
             normalised example_scalers 50000 "load_mag";
             normalised example_scalers 5.5 "global_deflection";
             normalised example_scalers 25 "fc";
             normalised example_scalers 314 "fy"]
            [1; -1; 1; 0.25; -1; -1.72]).
  { repeat constructor; vm_compute; reflexivity. }
  split.
  - split; [exact Hlen|].
    split; [exact (Hidx 0%nat 0%nat ltac:(unfold RESOLUTION; lia)
                     ltac:(unfold RESOLUTION; lia))|].
    split; [exact (Hidx 50%nat 50%nat ltac:(unfold RESOLUTION; lia)
                     ltac:(unfold RESOLUTION; lia))|].
    destruct (Hfeat 50%nat 0%nat) as (X & HX & HQ).
    exists X. split; [exact HX|].
    eapply Forall2_impl; [|intros ? ? Heq; exact Heq].
    etransitivity; [exact HQ|exact H50].
  - exists Xs. split; [exact HXs|]. split; [exact HlenX|]. split.
    + destruct (HrowX 50%nat 0%nat ltac:(unfold RESOLUTION; lia)
                  ltac:(unfold RESOLUTION; lia)) as (X & HX & HfX).
      exists X. split; [exact HX|].
      destruct (Hfeat 50%nat 0%nat) as (X' & HX' & HQ).
      rewrite HfX in HX'. injection HX' as <-.
      eapply Forall2_impl; [|intros ? ? Heq; exact Heq].
      etransitivity; [exact HQ|exact H50].
    + split; [apply Hloop|].
      exists Xs'. split; [exact HlenX'|].
      exact (Htick (constant_pinn 1000) (constant_lstm 0.85) initial_state).
Defined.

(** ** Failures *)

Lemma norm_raise_kind (scalers : gmap string (gmap string Q))
    (v : Q) (key : string) (e : exn) :
  norm scalers v key = Raise e →
  e = ZeroDivisionError ∨ ∃ k, e = KeyError k.
Proof.
  unfold norm, Py.getitem, Py.truediv, mbind, result_bind.
  destruct (scalers !! key) as [entry|]; [|intros [= <-]; eauto].
  destruct (entry !! "mean"%string); [|intros [= <-]; eauto].
  destruct (entry !! "scale"%string); [|intros [= <-]; eauto].
  destruct (Qeq_bool _ _); [intros [= <-]; eauto|discriminate].
Qed.

Lemma features_missing (scalers : gmap string (gmap string Q))
    (R : nat) (L H : Q) (x y : nat) (key : string) :
  key ∈ required_features → scalers !! key = None → (0 < R)%nat →
  ∃ e, features scalers R L H x y = Raise e
       ∧ (e = ZeroDivisionError ∨ ∃ k, e = KeyError k).
Proof.
  intros Hkey Hnone HR.
  destruct (phys_ok x R L HR) as (px & Hpx & _).
  destruct (phys_ok y R H HR) as (py & Hpy & _).
  unfold features, mbind, result_bind. rewrite Hpx, Hpy.
  unfold required_features in Hkey.
  repeat match goal with
         | |- context [norm scalers ?v ?k] =>
           let E := fresh "E" in
           destruct (norm scalers v k) as [?|?] eqn:E;
           [|eexists; split; [reflexivity|exact (norm_raise_kind _ _ _ _ E)]]
         end.
  exfalso.
  repeat match goal with
         | Hk : _ ∈ _ :: _ |- _ =>
           apply elem_of_cons in Hk; destruct Hk as [->|Hk];
           [rewrite norm_missing in * by assumption; discriminate|]
         end.
  by apply elem_of_nil in Hkey.
Qed.

Lemma grid_head (R : nat) : ∃ l, grid R = (0, 0)%nat :: l.
Proof. eexists. reflexivity. Qed.

Lemma stress_loop_missing (scalers : gmap string (gmap string Q))
    (pinn : list Q → result PinnRow) (c : Q) (key : string) :
  key ∈ required_features → scalers !! key = None →
  ∃ e, stress_loop scalers pinn RESOLUTION BEAM_LENGTH BEAM_HEIGHT c = Raise e
       ∧ (e = ZeroDivisionError ∨ ∃ k, e = KeyError k).
Proof.
  intros Hkey Hnone.
  destruct (features_missing scalers RESOLUTION BEAM_LENGTH BEAM_HEIGHT
              0 0 key Hkey Hnone) as (e & He & Hkind);
    [unfold RESOLUTION; lia|].
  exists e. split; [|exact Hkind].
  unfold stress_loop. destruct (grid_head RESOLUTION) as [l ->].
  apply mapM_Raise_head. unfold mesh_point, mbind, result_bind. simpl.
  by rewrite He.
Qed.

Lemma prognostics_raise_inv (lstm : list (Q * Q) → result Q)
    (d : Q) (hist : list (Q * Q)) (e : exn) :
  prognostics lstm d hist = Raise e →
  length hist = 10%nat ∧ lstm hist = Raise e.
Proof.
  unfold prognostics. change history_maxlen with 10%nat.
  destruct (Nat.eqb_spec (length hist) 10) as [Hlen|Hlen]; [|discriminate].
  unfold mbind, result_bind.
  destruct (lstm hist) as [p|e']; [|intros [= <-]; done].
  destruct (Py.lt p FAILURE_THRESHOLD); [|discriminate].
  rewrite truediv_ok by (unfold TIME_STEP; lra). discriminate.
Qed.

Lemma norm_outcome (scalers : gmap string (gmap string Q)) (v : Q) (key : string) :
  match norm_error scalers key with
  | Some e => norm scalers v key = Raise e
  | None => ∃ r, norm scalers v key = Ok r
  end.
Proof.
  unfold norm_error, norm, Py.getitem, Py.truediv, mbind, result_bind.
  destruct (scalers !! key) as [entry|]; [|reflexivity].
  destruct (entry !! "mean"%string) as [mean|]; [|reflexivity].
  destruct (entry !! "scale"%string) as [scale|]; [|reflexivity].
  destruct (Qeq_bool scale 0); [reflexivity|by eexists].
Qed.

Lemma features_first_error (scalers : gmap string (gmap string Q))
    (R : nat) (L H : Q) (x y : nat) (e : exn) :
  (0 < R)%nat → first_error scalers = Some e →
  features scalers R L H x y = Raise e.
Proof.
  intros HR. destruct (phys_ok x R L HR) as (px & Hpx & _).
  destruct (phys_ok y R H HR) as (py & Hpy & _).
  unfold features, mbind, result_bind. rewrite Hpx, Hpy.
  unfold first_error, required_features. cbn [omap list_omap].
  repeat match goal with
         | |- context [norm scalers ?v ?k] =>
           let E := fresh "E" in
           let r := fresh "r" in
           pose proof (norm_outcome scalers v k) as E;
           destruct (norm_error scalers k);
           [rewrite E; cbn [head]; by intros [= <-]
           |destruct E as [r ->]]
         end.
  discriminate.
Qed.

Lemma first_error_missing (scalers : gmap string (gmap string Q))
    (key : string) (pre post : list string) :
  required_features = pre ++ key :: post →
  Forall (λ k, norm_error scalers k = None) pre →
  scalers !! key = None →
  first_error scalers = Some (KeyError key).
Proof.
  intros Hsplit Hpre Hnone. unfold first_error. rewrite Hsplit.
  rewrite omap_app.
  assert (Hempty : omap (norm_error scalers) pre = []).
  { clear Hsplit. induction Hpre as [|k pre Hk _ IH]; [reflexivity|].
    cbn [omap list_omap]. by rewrite Hk. }
  rewrite Hempty. cbn [app omap list_omap].
  unfold norm_error at 1. by rewrite Hnone.
Qed.

Lemma first_error_is_Some (scalers : gmap string (gmap string Q)) (key : string) :
  key ∈ required_features → scalers !! key = None →
  ∃ e, first_error scalers = Some e.
Proof.
  intros Hkey Hnone.
  assert (Hin : KeyError key ∈ omap (norm_error scalers) required_features).
  { apply list_elem_of_omap. exists key. split; [exact Hkey|].
    unfold norm_error. by rewrite Hnone. }
  unfold first_error.
  destruct (omap (norm_error scalers) required_features) as [|e l];
    [by apply elem_of_nil in Hin|by exists e].
Qed.

(** C9 (as amended).  A scaler table lacking an entry for a required
    feature does not stop start-up: the module loads the table unchecked and
    the service starts with the initial state.  The failure comes later, in
    the first tick of every connection, at the first mesh point: the loop
    body raises the error of the first feature, in the order x, y, load_mag,
    global_deflection, fc, fy, whose normalisation fails ([KeyError] with
    the feature name for a missing entry, [KeyError] 'mean' or 'scale' for
    an entry without that field, [ZeroDivisionError] for a zero scale).
    When the entries of the features before the missing one are well
    formed, this is [KeyError] with the missing key.  The coroutine ends
    without sending a message, and the globals are left as they were. *)
Theorem missing_scaler_fails_in_tick
    (scalers : gmap string (gmap string Q))
    (pinn : list Q → result PinnRow) (lstm : list (Q * Q) → result Q)
    (key : string) :
  key ∈ required_features → scalers !! key = None →
  startup (Ok pinn) (Ok lstm) (Ok scalers)
  = Ok {| svc_pinn := pinn; svc_lstm := lstm;
          svc_scalers := scalers; svc_state := initial_state |}
  ∧ ∃ e, first_error scalers = Some e
         ∧ (∀ (st : State) (n : nat),
              websocket_endpoint scalers pinn lstm (S n) st
              = (st, [], Crashed e))
         ∧ (e = ZeroDivisionError ∨ ∃ k, e = KeyError k)
         ∧ (∀ pre post, required_features = pre ++ key :: post →
              Forall (λ k, norm_error scalers k = None) pre →
              e = KeyError key).
Proof.
  intros Hkey Hnone. split; [reflexivity|].
  destruct (first_error_is_Some scalers key Hkey Hnone) as [e He].
  exists e. split; [exact He|].
  assert (Hloop : ∀ c, stress_loop scalers pinn RESOLUTION BEAM_LENGTH
                         BEAM_HEIGHT c = Raise e).
  { intros c. unfold stress_loop. destruct (grid_head RESOLUTION) as [l ->].
    apply mapM_Raise_head. unfold mesh_point, mbind, result_bind. cbn [fst snd].
    rewrite (features_first_error scalers RESOLUTION BEAM_LENGTH BEAM_HEIGHT
               0 0 e); [reflexivity|unfold RESOLUTION; lia|exact He]. }
  split; [|split].
  - intros st n. rewrite run_S.
    by rewrite (tick_state_raised scalers pinn lstm st e (Hloop _)).
  - destruct (stress_loop_missing scalers pinn 0 key Hkey Hnone)
      as (e' & He' & Hkind).
    rewrite Hloop in He'. by injection He' as <-.
  - intros pre post Hsplit Hpre.
    rewrite (first_error_missing scalers key pre post Hsplit Hpre Hnone) in He.
    by injection He as <-.
Qed.

Lemma missing_scaler_fails_in_tick_witness :
  let table := delete "fy"%string example_scalers in
  let table' := <["x"%string := {[ "scale"%string := 525 ]}]> table in
  (startup (Ok (constant_pinn 1000)) (Ok (constant_lstm 0.85)) (Ok table)
   = Ok {| svc_pinn := constant_pinn 1000; svc_lstm := constant_lstm 0.85;
           svc_scalers := table; svc_state := initial_state |}
   ∧ ∃ e, first_error table = Some e
          ∧ (∀ (st : State) (n : nat),
               websocket_endpoint table (constant_pinn 1000)
                 (constant_lstm 0.85) (S n) st
               = (st, [], Crashed e))
          ∧ (e = ZeroDivisionError ∨ ∃ k, e = KeyError k)
          ∧ (∀ pre post, required_features = pre ++ "fy"%string :: post →
               Forall (λ k, norm_error table k = None) pre →
               e = KeyError "fy"))
  ∧ first_error table = Some (KeyError "fy")
  ∧ (startup (Ok (constant_pinn 1000)) (Ok (constant_lstm 0.85)) (Ok table')
     = Ok {| svc_pinn := constant_pinn 1000; svc_lstm := constant_lstm 0.85;
             svc_scalers := table'; svc_state := initial_state |}
     ∧ ∃ e, first_error table' = Some e
            ∧ (∀ (st : State) (n : nat),
                 websocket_endpoint table' (constant_pinn 1000)
                   (constant_lstm 0.85) (S n) st
                 = (st, [], Crashed e))
            ∧ (e = ZeroDivisionError ∨ ∃ k, e = KeyError k)
            ∧ (∀ pre post, required_features = pre ++ "fy"%string :: post →
                 Forall (λ k, norm_error table' k = None) pre →
                 e = KeyError "fy"))
  ∧ first_error table' = Some (KeyError "mean").
Proof.
  split; [|split; [|split]].
  - apply (missing_scaler_fails_in_tick (delete "fy"%string example_scalers)
             (constant_pinn 1000) (constant_lstm 0.85) "fy"%string).
    + vm_compute. set_solver.
    + vm_compute. reflexivity.
  - vm_compute. reflexivity.
  - apply (missing_scaler_fails_in_tick
             (<["x"%string := {[ "scale"%string := 525 ]}]>
                (delete "fy"%string example_scalers))
             (constant_pinn 1000) (constant_lstm 0.85) "fy"%string).
    + vm_compute. set_solver.
    + vm_compute. reflexivity.
  - vm_compute. reflexivity.
Defined.

(** C9, counterexample.  With the entry for "fy" removed from the table the
    start-up succeeds, and the first tick of a connection raises
    [KeyError "fy"] instead. *)
Lemma startup_accepts_incomplete_table :
  let table := delete "fy"%string example_scalers in
  table !! "fy"%string = None
  ∧ (∃ svc, startup (Ok (constant_pinn 1000)) (Ok (constant_lstm 0.85)) (Ok table)
            = Ok svc)
  ∧ websocket_endpoint table (constant_pinn 1000) (constant_lstm 0.85)
      1 initial_state
    = (initial_state, [], Crashed (KeyError "fy")).
Proof.
  split; [vm_compute; reflexivity|]. split; [eexists; reflexivity|].
  vm_compute. reflexivity.
Qed.

(** ** Non-finite answers of the collaborators *)

Lemma mapM_lift {A B C : Type} (f : A → result B) (g : A → result C)
    (h : B → C) (l : list A) :
  (∀ x, g x = lift h (f x)) → mapM g l = lift (fmap (M:=list) h) (mapM f l).
Proof.
  intros Hg. induction l as [|x l IH]; [reflexivity|].
  rewrite !mapM_cons, Hg, IH.
  destruct (f x) as [y|e]; [|reflexivity].
  by destruct (mapM f l) as [k|e].
Qed.

Lemma foldl_maximum_fin (l : list Q) (a : Q) :
  foldl PyFloat.maximum (PyFloat.Fin a) (PyFloat.Fin <$> l)
  = PyFloat.Fin (foldl Py.maximum a l).
Proof.
  revert a. induction l as [|x l IH]; intros a; [reflexivity|].
  cbn [fmap list_fmap foldl]. rewrite <- IH. f_equal.
  unfold PyFloat.maximum, Py.maximum, PyFloat.lt. by destruct (Py.lt a x).
Qed.

Lemma np_max_fin (l : list Q) :
  PyFloat.np_max (PyFloat.Fin <$> l) = lift PyFloat.Fin (Py.np_max l).
Proof.
  destruct l as [|x l]; [reflexivity|].
  cbn [fmap list_fmap PyFloat.np_max Py.np_max lift].
  by rewrite foldl_maximum_fin.
Qed.

Lemma foldl_add_fin (l : list Q) (a : Q) :
  foldl PyFloat.add (PyFloat.Fin a) (PyFloat.Fin <$> l)
  = PyFloat.Fin (foldl Py.add a l).
Proof.
  revert a. induction l as [|x l IH]; intros a; [reflexivity|].
  cbn [fmap list_fmap foldl]. by rewrite <- IH.
Qed.

Lemma np_mean_fin (l : list Q) :
  PyFloat.np_mean (PyFloat.Fin <$> l) = PyFloat.Fin (Py.np_mean l).
Proof.
  unfold PyFloat.np_mean, PyFloat.np_sum, Py.np_mean, Py.np_sum.
  by rewrite foldl_add_fin, length_fmap.
Qed.

Lemma deque_append_fmap {A B : Type} (f : A → B) (k : nat) (d : list A) (x : A) :
  Py.deque_append k (f <$> d) (f x) = f <$> Py.deque_append k d x.
Proof.
  unfold Py.deque_append.
  replace ((f <$> d) ++ [f x]) with (f <$> (d ++ [x])) by (by rewrite fmap_app).
  rewrite length_fmap. destruct (_ <? _)%nat; [|reflexivity].
  by rewrite fmap_drop.
Qed.

Lemma evolve_fin (d m : Q) :
  NonFinite.evolve (PyFloat.Fin d) (PyFloat.Fin m) = PyFloat.Fin (evolve d m).
Proof.
  unfold NonFinite.evolve, NonFinite.growth_rate, evolve, growth_rate.
  cbn [PyFloat.add PyFloat.mul]. unfold PyFloat.min, Py.min, PyFloat.lt.
  by destruct (Py.lt _ _).
Qed.

Section Refinement.

Variable scalers : gmap string (gmap string Q).
Variable pinn : list Q → result PinnRow.
Variable lstm : list (Q * Q) → result Q.
Variable pinnF : list Q → result NonFinite.PinnRow.
Variable lstmF : list (PyFloat.t * PyFloat.t) → result PyFloat.t.

Hypothesis pinnF_finite : ∀ X, pinnF X = lift fin_row (pinn X).
Hypothesis lstmF_finite :
  ∀ h, lstmF (fin_sample <$> h) = lift PyFloat.Fin (lstm h).

Lemma stress_loop_finite (R : nat) (L H c : Q) :
  NonFinite.stress_loop scalers pinnF R L H (PyFloat.Fin c)
  = lift (fmap PyFloat.Fin) (stress_loop scalers pinn R L H c).
Proof.
  unfold NonFinite.stress_loop, stress_loop. apply mapM_lift. intros p.
  unfold NonFinite.mesh_point, mesh_point.
  destruct (features scalers R L H p.1 p.2) as [X|e]; [|reflexivity].
  cbn [mbind result_bind]. rewrite pinnF_finite.
  by destruct (pinn X) as [row|e].
Qed.

Lemma prognostics_finite (d : Q) (h : list (Q * Q)) :
  NonFinite.prognostics lstmF (PyFloat.Fin d) (fin_sample <$> h)
  = lift (λ r : Q * option Q, (PyFloat.Fin r.1, PyFloat.Fin <$> r.2))
      (prognostics lstm d h).
Proof.
  unfold NonFinite.prognostics, prognostics. rewrite length_fmap.
  destruct (_ =? _)%nat; [|reflexivity].
  rewrite lstmF_finite. destruct (lstm h) as [p|e]; [|reflexivity].
  cbn [lift mbind result_bind PyFloat.lt].
  destruct (Py.lt p FAILURE_THRESHOLD); [|reflexivity].
  cbn [PyFloat.sub]. unfold PyFloat.truediv, Py.truediv.
  by destruct (Qeq_bool TIME_STEP 0).
Qed.

(** On finite answers the loop body over possibly non-finite floats is the
    loop body [tick]. *)
Lemma tick_finite (st : State) :
  NonFinite.tick scalers pinnF lstmF (fin_state st)
  = (fin_state (tick scalers pinn lstm st).1,
     lift fin_message (tick scalers pinn lstm st).2).
Proof.
  unfold NonFinite.tick, tick. cbn [DEBUG_NO_VGG fin_state NonFinite.damage_state].
  rewrite stress_loop_finite.
  destruct (stress_loop scalers pinn _ _ _ _) as [sf|e]; [|reflexivity].
  cbn [lift]. unfold NonFinite.after_mesh, after_mesh.
  rewrite np_max_fin. destruct (Py.np_max sf) as [ms|e]; [|reflexivity].
  cbn [lift]. rewrite np_mean_fin.
  assert (Hst : NonFinite.update_state (fin_state st)
                  (PyFloat.Fin ms) (PyFloat.Fin (Py.np_mean sf))
                = fin_state (update_state st ms (Py.np_mean sf))).
  { unfold NonFinite.update_state, update_state, fin_state.
    cbn [NonFinite.time NonFinite.damage_state NonFinite.history
         time damage_state history].
    rewrite evolve_fin. f_equal.
    exact (deque_append_fmap fin_sample history_maxlen (history st)
             (ms, Py.np_mean sf)). }
  rewrite Hst. unfold fin_state at 1 2.
  cbn [NonFinite.damage_state NonFinite.history NonFinite.time].
  rewrite prognostics_finite.
  by destruct (prognostics lstm _ _) as [[dp rul]|e].
Qed.

End Refinement.

Lemma foldl_add_NaN (l : list PyFloat.t) :
  foldl PyFloat.add PyFloat.NaN l = PyFloat.NaN.
Proof. induction l as [|x l IH]; [reflexivity|]. simpl. by destruct x. Qed.

Lemma np_sum_NaN (l : list PyFloat.t) (a : PyFloat.t) :
  PyFloat.NaN ∈ l → foldl PyFloat.add a l = PyFloat.NaN.
Proof.
  revert a. induction l as [|x l IH]; intros a Hin;
    [by apply elem_of_nil in Hin|].
  apply elem_of_cons in Hin as [<-|Hin]; cbn [foldl].
  - replace (PyFloat.add a PyFloat.NaN) with PyFloat.NaN by (by destruct a).
    apply foldl_add_NaN.
  - by apply IH.
Qed.

Lemma foldl_maximum_NaN (l : list PyFloat.t) :
  foldl PyFloat.maximum PyFloat.NaN l = PyFloat.NaN.
Proof. induction l as [|x l IH]; [reflexivity|]. simpl. by destruct x. Qed.

Lemma np_max_NaN (l : list PyFloat.t) (m : PyFloat.t) :
  PyFloat.NaN ∈ l → PyFloat.np_max l = Ok m → m = PyFloat.NaN.
Proof.
  destruct l as [|x l]; [discriminate|]. intros Hin [= <-].
  revert x Hin. induction l as [|y l IH]; intros x Hin.
  - apply elem_of_cons in Hin as [<-|Hin]; [reflexivity|].
    by apply elem_of_nil in Hin.
  - cbn [foldl]. apply elem_of_cons in Hin as [<-|Hin].
    + replace (PyFloat.maximum PyFloat.NaN y) with PyFloat.NaN
        by (by destruct y).
      apply foldl_maximum_NaN.
    + apply elem_of_cons in Hin as [<-|Hin].
      * replace (PyFloat.maximum x PyFloat.NaN) with PyFloat.NaN
          by (by destruct x).
        apply foldl_maximum_NaN.
      * apply IH. by right.
Qed.

Lemma evolve_non_finite (d : PyFloat.t) :
  NonFinite.evolve d PyFloat.NaN = PyFloat.Fin 1.0
  ∧ NonFinite.evolve d PyFloat.PosInf = PyFloat.Fin 1.0
  ∧ ∀ q, d = PyFloat.Fin q → NonFinite.evolve d PyFloat.NegInf = PyFloat.NegInf.
Proof.
  split; [by destruct d|]. split; [by destruct d|]. by intros q ->.
Qed.

Lemma length_stress_loopF (scalers : gmap string (gmap string Q))
    (pinnF : list Q → result NonFinite.PinnRow) (R : nat) (L H : Q)
    (c : PyFloat.t) (sf : list PyFloat.t) :
  NonFinite.stress_loop scalers pinnF R L H c = Ok sf →
  length sf = (S R * S R)%nat.
Proof.
  unfold NonFinite.stress_loop. intros Hsf. apply mapM_Ok in Hsf.
  rewrite <- (Forall2_length _ _ _ Hsf). apply length_grid.
Qed.

(** With the example table a constant surrogate fills the stress field with
    one value, finite or not. *)
Lemma stress_loop_constantF (s c : PyFloat.t) :
  NonFinite.stress_loop example_scalers (constant_pinnF s)
    RESOLUTION BEAM_LENGTH BEAM_HEIGHT c
  = Ok (replicate 2601 (NonFinite.amplify c s)).
Proof.
  unfold NonFinite.stress_loop. apply mapM_Ok.
  change 2601%nat with (S RESOLUTION * S RESOLUTION)%nat.
  rewrite <- length_grid. apply Forall2_replicate_r.
  apply Forall_forall. intros [x y] _.
  destruct (features_ok example_scalers RESOLUTION BEAM_LENGTH BEAM_HEIGHT x y)
    as (X & HX & _); [apply complete_example|unfold RESOLUTION; lia|].
  unfold NonFinite.mesh_point, mbind, result_bind. simpl. by rewrite HX.
Qed.

(** What a tick does once the mesh loop has returned a stress field,
    non-finite entries or not. *)
Lemma tick_non_finite (scalers : gmap string (gmap string Q))
    (pinnF : list Q → result NonFinite.PinnRow)
    (lstmF : list (PyFloat.t * PyFloat.t) → result PyFloat.t)
    (stF : NonFinite.State) (sf : list PyFloat.t) :
  NonFinite.stress_loop scalers pinnF RESOLUTION BEAM_LENGTH BEAM_HEIGHT
    (NonFinite.damage_state stF) = Ok sf →
  ∃ max_stress,
    PyFloat.np_max sf = Ok max_stress
    ∧ let st1 := NonFinite.update_state stF max_stress (PyFloat.np_mean sf) in
      (NonFinite.tick scalers pinnF lstmF stF).1 = st1
      ∧ (length (NonFinite.history st1) ≠ 10%nat →
         (NonFinite.tick scalers pinnF lstmF stF).2
         = Ok {| NonFinite.msg_time := NonFinite.time stF;
                 NonFinite.msg_stress_field := sf;
                 NonFinite.msg_damage_prediction := NonFinite.damage_state st1;
                 NonFinite.msg_rul := None |})
      ∧ (length (NonFinite.history st1) = 10%nat →
         lstmF (NonFinite.history st1) = Ok PyFloat.NaN →
         (NonFinite.tick scalers pinnF lstmF stF).2
         = Ok {| NonFinite.msg_time := NonFinite.time stF;
                 NonFinite.msg_stress_field := sf;
                 NonFinite.msg_damage_prediction := PyFloat.NaN;
                 NonFinite.msg_rul := Some (PyFloat.Fin 0.0) |})
      ∧ (PyFloat.NaN ∈ sf →
         max_stress = PyFloat.NaN ∧ PyFloat.np_mean sf = PyFloat.NaN
         ∧ NonFinite.damage_state st1 = PyFloat.Fin 1.0)
      ∧ (max_stress = PyFloat.PosInf →
         NonFinite.damage_state st1 = PyFloat.Fin 1.0)
      ∧ (max_stress = PyFloat.NegInf →
         ∀ d, NonFinite.damage_state stF = PyFloat.Fin d →
              NonFinite.damage_state st1 = PyFloat.NegInf).
Proof.
  intros Hsf.
  assert (Hne : ∃ x l, sf = x :: l).
  { apply length_stress_loopF in Hsf. destruct sf as [|x l]; [discriminate|].
    by exists x, l. }
  destruct Hne as (x & l & Hxl).
  exists (foldl PyFloat.maximum x l).
  assert (Hmax : PyFloat.np_max sf = Ok (foldl PyFloat.maximum x l))
    by (by rewrite Hxl).
  split; [exact Hmax|]. cbn zeta.
  set (ms := foldl PyFloat.maximum x l) in *.
  set (st1 := NonFinite.update_state stF ms (PyFloat.np_mean sf)).
  assert (Htick : NonFinite.tick scalers pinnF lstmF stF
                  = (st1,
                     match NonFinite.prognostics lstmF
                             (NonFinite.damage_state st1) (NonFinite.history st1)
                     with
                     | Ok (damage_pred, rul) =>
                       Ok {| NonFinite.msg_time := NonFinite.time stF;
                             NonFinite.msg_stress_field := sf;
                             NonFinite.msg_damage_prediction := damage_pred;
                             NonFinite.msg_rul := rul |}
                     | Raise e => Raise e
                     end)).
  { unfold NonFinite.tick. cbn [DEBUG_NO_VGG]. rewrite Hsf.
    unfold NonFinite.after_mesh. rewrite Hmax. fold st1.
    by destruct (NonFinite.prognostics lstmF _ _) as [[dp rul]|e]. }
  rewrite Htick. cbn [fst snd].
  split; [reflexivity|]. split; [|split; [|split; [|split]]].
  - intros Hlen. unfold NonFinite.prognostics.
    change history_maxlen with 10%nat.
    apply Nat.eqb_neq in Hlen. by rewrite Hlen.
  - intros Hlen Hlstm. unfold NonFinite.prognostics.
    change history_maxlen with 10%nat.
    apply Nat.eqb_eq in Hlen. by rewrite Hlen, Hlstm.
  - intros Hin. assert (Hms : ms = PyFloat.NaN) by (by eapply np_max_NaN).
    split; [exact Hms|]. split.
    + unfold PyFloat.np_mean, PyFloat.np_sum. by rewrite np_sum_NaN.
    + subst st1. cbn [NonFinite.update_state NonFinite.damage_state].
      rewrite Hms. apply evolve_non_finite.
  - intros Hms. subst st1. cbn [NonFinite.update_state NonFinite.damage_state].
    rewrite Hms. apply evolve_non_finite.
  - intros Hms d Hd. subst st1.
    cbn [NonFinite.update_state NonFinite.damage_state].
    rewrite Hms. by eapply evolve_non_finite.
Qed.




(** ** Several connections on the shared globals *)

Lemma serve_cons (body : State → State * result Message)
    (i : nat) (sched : list nat) (p : Process) :
  serve body (i :: sched) p =
  ((serve body sched (resume body i p).1).1,
   match (resume body i p).2 with
   | Some m => (i, m) :: (serve body sched (resume body i p).1).2
   | None => (serve body sched (resume body i p).1).2
   end).
Proof.
  simpl. destruct (resume body i p) as [p1 sent]. cbn [fst snd].
  by destruct (serve body sched p1) as [p2 rest].
Qed.

Lemma resume_ext (body1 body2 : State → State * result Message) :
  (∀ st, body1 st = body2 st) →
  ∀ i p, resume body1 i p = resume body2 i p.
Proof. intros Hbody i p. unfold resume. by rewrite Hbody. Qed.

Lemma serve_ext (body1 body2 : State → State * result Message) :
  (∀ st, body1 st = body2 st) →
  ∀ sched p, serve body1 sched p = serve body2 sched p.
Proof.
  intros Hbody. induction sched as [|i sched IH]; intros p; [reflexivity|].
  rewrite !serve_cons, (resume_ext body1 body2 Hbody). by rewrite !IH.
Qed.

Lemma serve_constant (s : Q) (lstm : list (Q * Q) → result Q)
    (sched : list nat) (p : Process) :
  serve (tick example_scalers (constant_pinn s) lstm) sched p
  = serve (constant_tick s lstm) sched p.
Proof. apply serve_ext. intros st. apply tick_constant. Qed.

(** A closed connection stays closed. *)
Lemma resume_closed (body : State → State * result Message)
    (j : nat) (p : Process) (i : nat) (e : exn) :
  conns p !! i = Some (Closed e) →
  conns (resume body j p).1 !! i = Some (Closed e).
Proof.
  intros Hi. unfold resume.
  destruct (conns p !! j) as [[| |e']|] eqn:Hj; [| |exact Hi|exact Hi].
  - assert (i ≠ j) by (intros ->; congruence).
    destruct (body (globals p)) as [st1 [m|e']]; simpl;
      by rewrite list_lookup_insert_ne.
  - assert (i ≠ j) by (intros ->; congruence).
    simpl. by rewrite list_lookup_insert_ne.
Qed.

Lemma serve_closed (body : State → State * result Message)
    (sched : list nat) (p : Process) (i : nat) (e : exn) :
  conns p !! i = Some (Closed e) →
  conns (serve body sched p).1 !! i = Some (Closed e).
Proof.
  revert p. induction sched as [|j sched IH]; intros p Hi; [exact Hi|].
  rewrite serve_cons. simpl. apply IH. by apply resume_closed.
Qed.

Lemma same_structure_set_time (g st : State) :
  same_structure g st → g = set_time (time g) st.
Proof. destruct g, st. unfold same_structure, set_time. simpl. by intros [-> ->]. Qed.

Lemma tick_timeless (scalers : gmap string (gmap string Q))
    (pinn : list Q → result PinnRow) (lstm : list (Q * Q) → result Q) :
  timeless (tick scalers pinn lstm).
Proof.
  intros t st. unfold tick, after_mesh. simpl.
  destruct (stress_loop _ _ _ _ _ _) as [sf|e]; [|reflexivity].
  destruct (Py.np_max sf) as [ms|e]; [|reflexivity].
  unfold update_state. simpl.
  by destruct (prognostics _ _ _) as [[dp rul]|e].
Qed.

(** Whatever the schedule, as long as no connection was closed the messages
    sent by all connections together are, apart from their time stamps,
    those of a single connection served alone, and so are the damage and the
    history left in the globals. *)
Lemma serve_timeline (body : State → State * result Message) :
  timeless body →
  ∀ (sched : list nat) (p : Process) (g : State),
    same_structure g (globals p) →
    (∀ i e, conns (serve body sched p).1 !! i ≠ Some (Closed e)) →
    content <$> (snd <$> (serve body sched p).2)
    = content <$> (while_True body (length (serve body sched p).2) g).1.2
    ∧ same_structure
        (while_True body (length (serve body sched p).2) g).1.1
        (globals (serve body sched p).1)
    ∧ (while_True body (length (serve body sched p).2) g).2 = Running.
Proof.
  intros Hbody. induction sched as [|i sched IH]; intros p g Hg Hopen.
  - simpl. split; [reflexivity|]. split; [exact Hg|reflexivity].
  - rewrite serve_cons in *. cbn [fst snd] in *.
    unfold resume in *.
    destruct (conns p !! i) as [[| |e']|] eqn:Hi; cbn [fst snd] in *;
      [| |by apply IH|by apply IH].
    + destruct (body (globals p)) as [st1 [m|e]] eqn:Hb; cbn [fst snd] in *.
      * cbn [length while_True].
        rewrite (same_structure_set_time g (globals p) Hg), Hbody, Hb.
        cbn [fst snd set_msg_time].
        set (g1 := advance_clock (set_time (time g) st1)).
        destruct (IH {| globals := st1; conns := <[i:=Sending]> (conns p) |} g1)
          as (Hc & Hs & Hr); [by split|exact Hopen|].
        cbn [globals] in *.
        destruct (while_True body _ g1) as [[st2 ms] o]. cbn [fst snd] in *.
        split; [|by split]. cbn [fmap list_fmap].
        f_equal. exact Hc.
      * exfalso. eapply Hopen. apply serve_closed. cbn [conns].
        apply list_lookup_insert_eq. by eapply lookup_lt_Some.
    + apply IH; [|exact Hopen]. cbn [globals]. destruct Hg. by split.
Qed.

(** A connection alone on the process is the loop of [websocket_endpoint]:
    resumed 2n times it has run n iterations. *)
Lemma serve_all_closed (body : State → State * result Message)
    (sched : list nat) (g : State) (e : exn) :
  serve body sched {| globals := g; conns := [Closed e] |}
  = ({| globals := g; conns := [Closed e] |}, []).
Proof.
  induction sched as [|i sched IH]; [reflexivity|].
  rewrite serve_cons. unfold resume. cbn [conns].
  destruct i as [|i]; simpl; by rewrite IH.
Qed.

Lemma serve_alone (body : State → State * result Message) (n : nat) (st : State) :
  serve body (replicate (2 * n) 0%nat) {| globals := st; conns := [Looping] |}
  = ({| globals := (while_True body n st).1.1;
        conns := [match (while_True body n st).2 with
                  | Running => Looping
                  | Crashed e => Closed e
                  end] |},
     (λ m, (0%nat, m)) <$> (while_True body n st).1.2).
Proof.
  revert st. induction n as [|n IH]; intros st; [reflexivity|].
  replace (2 * S n)%nat with (S (S (2 * n))) by lia.
  cbn [replicate]. rewrite serve_cons. unfold resume.
  simpl. destruct (body st) as [st1 [m|e]]; simpl.
  - rewrite IH.
    by destruct (while_True body n (advance_clock st1)) as [[st2 ms] o].
  - by rewrite serve_all_closed.
Qed.

(** ** Claims on concurrent connections *)

(** C3 (as amended).  The damage state, the clock and the history are module
    globals: one of each for the process, read and written by every
    connection.  The code holds no lock; the stretches between two
    suspension points run without interleaving.  Each connection drives its
    own ticks on the shared state, so each message is the next sample of the
    one shared trajectory: whatever the schedule, while no connection was
    closed by an exception, the messages of all connections taken together
    in sending order carry the stress fields, damage predictions and RULs
    that a single connection served alone would be sent, and the globals
    hold the same damage and history.  Two concurrent connections therefore
    receive different, interleaved samples of that trajectory, not the same
    sequence each. *)
Theorem shared_timeline
    (scalers : gmap string (gmap string Q))
    (pinn : list Q → result PinnRow) (lstm : list (Q * Q) → result Q)
    (k : nat) (sched : list nat) :
  let r := serve (tick scalers pinn lstm) sched (start k) in
  (∀ i e, conns r.1 !! i ≠ Some (Closed e)) →
  let solo := websocket_endpoint scalers pinn lstm (length r.2) initial_state in
  content <$> (snd <$> r.2) = content <$> solo.1.2
  ∧ damage_state (globals r.1) = damage_state solo.1.1
  ∧ history (globals r.1) = history solo.1.1
  ∧ solo.2 = Running.
Proof.
  intros r Hopen solo. subst r solo. unfold websocket_endpoint.
  destruct (serve_timeline (tick scalers pinn lstm)
              (tick_timeless scalers pinn lstm) sched (start k) initial_state)
    as (Hc & [Hd Hh] & Hr); [by split|exact Hopen|].
  by repeat split.
Qed.

Lemma shared_timeline_witness :
  let r := serve (tick example_scalers (constant_pinn 0) (constant_lstm 0.85))
             [0; 1; 0; 1; 1; 0]%nat (start 2) in
  let solo := websocket_endpoint example_scalers (constant_pinn 0)
                (constant_lstm 0.85) (length r.2) initial_state in
  length r.2 = 4%nat
  ∧ content <$> (snd <$> r.2) = content <$> solo.1.2
  ∧ damage_state (globals r.1) = damage_state solo.1.1
  ∧ history (globals r.1) = history solo.1.1
  ∧ solo.2 = Running.
Proof.
  intros r solo. split.
  - subst r. rewrite serve_constant. vm_compute. reflexivity.
  - apply (shared_timeline example_scalers (constant_pinn 0) (constant_lstm 0.85)
             2 [0; 1; 0; 1; 1; 0]%nat).
    intros i e. fold r. subst r. rewrite serve_constant.
    vm_compute. destruct i as [|[|i]]; discriminate.
Defined.

(** C3, counterexample.  Two connections, resumed in turn.  Their first
    messages carry the same time 0.0 and different damage, 0.052 and 0.054:
    the two connections do not observe the same damage trajectory, and the
    second tick ran before the clock advance of the first. *)
Lemma connections_observe_different_damage :
  let r := serve (tick example_scalers (constant_pinn 0) (constant_lstm 0.85))
             [0; 1; 0; 1]%nat (start 2) in
  Forall2 Qeq (msg_damage_prediction <$> received 0 r.2) [0.052]
  ∧ Forall2 Qeq (msg_damage_prediction <$> received 1 r.2) [0.054]
  ∧ msg_time <$> received 0 r.2 = [0.0]
  ∧ msg_time <$> received 1 r.2 = [0.0]
  ∧ msg_damage_prediction <$> received 0 r.2
    ≠ msg_damage_prediction <$> received 1 r.2.
Proof.
  intros r. subst r. rewrite serve_constant.
  vm_compute. repeat split; try (repeat constructor; fail); discriminate.
Qed.

(** ** The clock *)

Lemma tick_time (scalers : gmap string (gmap string Q))
    (pinn : list Q → result PinnRow) (lstm : list (Q * Q) → result Q)
    (st : State) :
  time (tick scalers pinn lstm st).1 = time st.
Proof. by destruct (tick_spec scalers pinn lstm st). Qed.

Lemma tick_msg_time (scalers : gmap string (gmap string Q))
    (pinn : list Q → result PinnRow) (lstm : list (Q * Q) → result Q)
    (st st' : State) (m : Message) :
  tick scalers pinn lstm st = (st', Ok m) → msg_time m = time st.
Proof. intros Ht. apply tick_inv in Ht. by inversion Ht. Qed.

(** While no connection is between its send and its clock advance, the next
    message sent, by whichever connection, carries the current clock. *)
Lemma serve_first_time (scalers : gmap string (gmap string Q))
    (pinn : list Q → result PinnRow) (lstm : list (Q * Q) → result Q)
    (sched : list nat) (p : Process) (i : nat) (m : Message) :
  (∀ j, conns p !! j ≠ Some Sending) →
  head (serve (tick scalers pinn lstm) sched p).2 = Some (i, m) →
  msg_time m = time (globals p).
Proof.
  revert p. induction sched as [|j sched IH]; intros p Hp; [discriminate|].
  rewrite serve_cons. cbn [snd]. unfold resume.
  destruct (conns p !! j) as [[| |e']|] eqn:Hj; cbn [fst snd];
    [|by destruct (Hp j)|by apply IH|by apply IH].
  destruct (tick scalers pinn lstm (globals p)) as [st1 [m1|e]] eqn:Ht;
    cbn [fst snd].
  - intros [= <- <-]. by eapply tick_msg_time.
  - intros Hhead. apply IH in Hhead.
    + rewrite Hhead. cbn [globals].
      change st1 with (st1, @Raise Message e).1. rewrite <- Ht. apply tick_time.
    + intros j'. cbn [conns]. destruct (decide (j' = j)) as [->|Hne].
      * rewrite list_lookup_insert_eq by (by eapply lookup_lt_Some). discriminate.
      * rewrite list_lookup_insert_ne by done. apply Hp.
Qed.

(** C10 (as amended).  At process start the globals hold damage 0.05 and
    time 0.0, and the first message the process sends, on whichever
    connection, reports time 0.0.  A tick leaves the clock unchanged; it is
    advanced by TIME_STEP after the message was sent.  On a connection
    served alone the k-th message therefore reports the time at which the
    connection started plus k, and consecutive messages differ by exactly
    1.0. *)
Theorem clock_advances_after_send :
  damage_state initial_state = 0.05
  ∧ time initial_state = 0.0
  ∧ (∀ (scalers : gmap string (gmap string Q))
       (pinn : list Q → result PinnRow) (lstm : list (Q * Q) → result Q)
       (k : nat) (sched : list nat) (i : nat) (m : Message),
       head (serve (tick scalers pinn lstm) sched (start k)).2 = Some (i, m) →
       msg_time m = 0.0)
  ∧ (∀ (scalers : gmap string (gmap string Q))
       (pinn : list Q → result PinnRow) (lstm : list (Q * Q) → result Q)
       (st : State),
       time (tick scalers pinn lstm st).1 = time st)
  ∧ (∀ (scalers : gmap string (gmap string Q))
       (pinn : list Q → result PinnRow) (lstm : list (Q * Q) → result Q)
       (n : nat) (st : State) (j : nat) (m : Message),
       (websocket_endpoint scalers pinn lstm n st).1.2 !! j = Some m →
       msg_time m == time st + inject_Z (Z.of_nat j) * 1.0)
  ∧ (∀ (scalers : gmap string (gmap string Q))
       (pinn : list Q → result PinnRow) (lstm : list (Q * Q) → result Q)
       (n : nat) (st : State) (j : nat) (m1 m2 : Message),
       (websocket_endpoint scalers pinn lstm n st).1.2 !! j = Some m1 →
       (websocket_endpoint scalers pinn lstm n st).1.2 !! S j = Some m2 →
       msg_time m2 == msg_time m1 + 1.0).
Proof.
  split; [reflexivity|]. split; [reflexivity|]. split; [|split; [|split]].
  - intros scalers pinn lstm k sched i m Hhead.
    apply serve_first_time in Hhead; [exact Hhead|].
    intros j. unfold start. cbn [conns]. intros Hj.
    apply lookup_replicate in Hj as [Hj _]. discriminate.
  - apply tick_time.
  - intros scalers pinn lstm n st j m Hj.
    apply run_times in Hj. exact Hj.
  - intros scalers pinn lstm n st j m1 m2 H1 H2.
    apply run_times in H1, H2. rewrite H1, H2.
    rewrite Nat2Z.inj_succ, <- Z.add_1_r, inject_Z_plus.
    unfold TIME_STEP. change (inject_Z 1) with 1. lra.
Qed.

Lemma clock_advances_after_send_witness :
  let ms := (websocket_endpoint example_scalers (constant_pinn 0)
               (constant_lstm 0.85) 3 initial_state).1.2 in
  ∃ m1 m2 : Message,
    ms !! 1%nat = Some m1 ∧ ms !! 2%nat = Some m2
    ∧ msg_time m2 == msg_time m1 + 1.0.
Proof.
  intros ms.
  destruct (ms !! 1%nat) as [m1|] eqn:H1;
    [|subst ms; rewrite run_constant in H1; vm_compute in H1; discriminate].
  destruct (ms !! 2%nat) as [m2|] eqn:H2;
    [|subst ms; rewrite run_constant in H2; vm_compute in H2; discriminate].
  exists m1, m2. split; [reflexivity|]. split; [reflexivity|].
  exact (proj2 (proj2 (proj2 (proj2 (proj2 clock_advances_after_send))))
           example_scalers (constant_pinn 0) (constant_lstm 0.85)
           3%nat initial_state 1%nat m1 m2 H1 H2).
Defined.

(** C10, counterexample.  Two connections, each resumed for a whole
    iteration in turn.  The first connection is sent the times 0.0 and 2.0,
    a step of 2.0 between consecutive messages; the first message of the
    second connection reports 1.0. *)
Lemma time_step_doubles_with_two_connections :
  let r := serve (tick example_scalers (constant_pinn 0) (constant_lstm 0.85))
             [0; 0; 1; 1; 0; 0]%nat (start 2) in
  Forall2 Qeq (msg_time <$> received 0 r.2) [0.0; 2.0]
  ∧ Forall2 Qeq (msg_time <$> received 1 r.2) [1.0]
  ∧ ¬ Forall2 Qeq (msg_time <$> received 0 r.2) [0.0; 1.0]
  ∧ ¬ Forall2 Qeq (msg_time <$> received 1 r.2) [0.0].
Proof.
  intros r. subst r. rewrite serve_constant. vm_compute.
  repeat split; try (repeat constructor; fail).
  - intros H. inversion H as [|? ? ? ? _ H']. inversion H' as [|? ? ? ? Hq _].
    discriminate Hq.
  - intros H. inversion H as [|? ? ? ? Hq _]. discriminate Hq.
Qed.

(** * Further properties of [server.py] *)

(** ** The maximum of a stress field *)

Lemma maximum_ge_l (a b : Q) : a <= Py.maximum a b.
Proof.
  unfold Py.maximum. destruct (Py.lt a b) eqn:E.
  - apply lt_spec in E. lra.
  - lra.
Qed.

Lemma maximum_ge_r (a b : Q) : b <= Py.maximum a b.
Proof.
  unfold Py.maximum. destruct (Py.lt a b) eqn:E.
  - lra.
  - by apply lt_false in E.
Qed.

Lemma foldl_maximum_ge (l : list Q) (a : Q) :
  a <= foldl Py.maximum a l ∧ Forall (λ y, y <= foldl Py.maximum a l) l.
Proof.
  revert a. induction l as [|x l IH]; intros a; simpl.
  - split; [lra|constructor].
  - destruct (IH (Py.maximum a x)) as [Ha Hl].
    pose proof (maximum_ge_l a x). pose proof (maximum_ge_r a x).
    split; [lra|]. constructor; [lra|exact Hl].
Qed.

Lemma foldl_maximum_elem (l : list Q) (a : Q) :
  foldl Py.maximum a l ∈ a :: l.
Proof.
  revert a. induction l as [|x l IH]; intros a; simpl; [by left|].
  specialize (IH (Py.maximum a x)).
  apply elem_of_cons in IH as [IH|IH].
  - rewrite IH. unfold Py.maximum.
    destruct (Py.lt a x); [right; left|left].
  - by do 2 right.
Qed.

Lemma np_max_spec (l : list Q) (m : Q) :
  Py.np_max l = Ok m → m ∈ l ∧ Forall (λ y, y <= m) l.
Proof.
  destruct l as [|x l]; [discriminate|]. intros [= <-]. split.
  - apply foldl_maximum_elem.
  - destruct (foldl_maximum_ge l x). by constructor.
Qed.

(** ** The invariant *)

Lemma sound_initial : sound initial_state.
Proof. unfold sound, initial_state. simpl. split; [lra|lia]. Qed.

Lemma sound_advance_clock (st : State) : sound st → sound (advance_clock st).
Proof. by intros. Qed.

Lemma sound_tick (scalers : gmap string (gmap string Q))
    (pinn : list Q → result PinnRow) (lstm : list (Q * Q) → result Q)
    (st : State) :
  sound st → sound (tick scalers pinn lstm st).1.
Proof.
  intros (Hd & Hlen).
  destruct (tick_spec scalers pinn lstm st)
    as [e He|sf ms e Hsf Hm st1 Hprog|sf ms dp rul Hsf Hm st1 Hprog];
    [done| |].
  all: subst st1; unfold sound, update_state; cbn [damage_state history];
    split; [apply evolve_le_1|by apply length_deque_append].
Qed.

Lemma while_True_invariant (P : State → Prop)
    (body : State → State * result Message) :
  (∀ st, P st → P (body st).1) → (∀ st, P st → P (advance_clock st)) →
  ∀ n st, P st → P (while_True body n st).1.1.
Proof.
  intros Hbody Hclock. induction n as [|n IH]; intros st Hst; [exact Hst|].
  simpl. specialize (Hbody st Hst).
  destruct (body st) as [st1 [m|e]]; [|exact Hbody].
  specialize (IH (advance_clock st1) (Hclock _ Hbody)).
  by destruct (while_True body n (advance_clock st1)) as [[st2 ms] o].
Qed.

Lemma serve_invariant (P : State → Prop)
    (body : State → State * result Message) :
  (∀ st, P st → P (body st).1) → (∀ st, P st → P (advance_clock st)) →
  ∀ sched p, P (globals p) → P (globals (serve body sched p).1).
Proof.
  intros Hbody Hclock. induction sched as [|i sched IH]; intros p Hp; [exact Hp|].
  rewrite serve_cons. cbn [fst]. apply IH. unfold resume.
  destruct (conns p !! i) as [[| |e]|]; [| |exact Hp|exact Hp].
  - specialize (Hbody _ Hp). by destruct (body (globals p)) as [st1 [m|e]].
  - by apply Hclock.
Qed.

Lemma serve_messages (P : Message → Prop)
    (body : State → State * result Message) :
  (∀ st st' m, body st = (st', Ok m) → P m) →
  ∀ sched p, Forall (λ im : nat * Message, P im.2) (serve body sched p).2.
Proof.
  intros Hbody. induction sched as [|i sched IH]; intros p; [constructor|].
  rewrite serve_cons. cbn [snd]. unfold resume.
  destruct (conns p !! i) as [[| |e]|]; cbn [fst snd]; [|apply IH..].
  destruct (body (globals p)) as [st1 [m|e]] eqn:Hb; cbn [fst snd]; [|apply IH].
  constructor; [by eapply Hbody|apply IH].
Qed.

Lemma length_deque_append_min {A : Type} (k : nat) (d : list A) (x : A) :
  (length d ≤ k)%nat → (0 < k)%nat →
  length (Py.deque_append k d x) = Nat.min k (S (length d)).
Proof.
  intros Hd Hk. unfold Py.deque_append.
  destruct (_ <? _)%nat eqn:E.
  - apply Nat.ltb_lt in E. rewrite length_drop, length_app in *. simpl in *. lia.
  - apply Nat.ltb_ge in E. rewrite length_app in *. simpl in *. lia.
Qed.

Lemma prognostics_inv (lstm : list (Q * Q) → result Q)
    (d : Q) (hist : list (Q * Q)) (dp : Q) (rul : option Q) :
  prognostics lstm d hist = Ok (dp, rul) →
  (length hist ≠ 10%nat ∧ dp = d ∧ rul = None)
  ∨ (length hist = 10%nat ∧ lstm hist = Ok dp
     ∧ ∃ r, rul = Some r ∧ 0 <= r
            ∧ (dp < 0.9 → r == 0.9 - dp ∧ 0 < r)
            ∧ (0.9 <= dp → r == 0)).
Proof.
  unfold prognostics. change history_maxlen with 10%nat.
  destruct (length hist =? 10)%nat eqn:Hlen.
  - apply Nat.eqb_eq in Hlen. destruct (lstm hist) as [p|e]; [|discriminate].
    simpl. destruct (Py.lt p FAILURE_THRESHOLD) eqn:Hlt.
    + apply lt_spec in Hlt. unfold FAILURE_THRESHOLD in Hlt.
      intros [= <- <-]. right. split; [done|]. split; [done|].
      eexists. split; [reflexivity|].
      assert (Hr : Qred ((FAILURE_THRESHOLD - p)%py / TIME_STEP) == 0.9 - p).
      { rewrite Qred_correct, sub_spec. unfold FAILURE_THRESHOLD, TIME_STEP.
        field. }
      rewrite Hr. repeat split; lra.
    + apply lt_false in Hlt. unfold FAILURE_THRESHOLD in Hlt.
      intros [= <- <-]. right. split; [done|]. split; [done|].
      eexists. split; [reflexivity|]. repeat split; lra.
  - apply Nat.eqb_neq in Hlen. intros [= <- <-]. by left.
Qed.

(** What a tick that sends a message puts in it. *)
Lemma tick_message (scalers : gmap string (gmap string Q))
    (pinn : list Q → result PinnRow) (lstm : list (Q * Q) → result Q)
    (st st' : State) (m : Message) :
  tick scalers pinn lstm st = (st', Ok m) →
  length (msg_stress_field m) = 2601%nat
  ∧ (∀ r, msg_rul m = Some r →
       0 <= r
       ∧ (msg_damage_prediction m < 0.9 →
          r == 0.9 - msg_damage_prediction m ∧ 0 < r)
       ∧ (0.9 <= msg_damage_prediction m → r == 0))
  ∧ (msg_rul m = None →
     msg_damage_prediction m = damage_state st'
     ∧ msg_damage_prediction m <= 1).
Proof.
  intros Ht. apply tick_inv in Ht.
  inversion Ht as [| |sf ms dp rul Hsf Hm st1 Hprog]; subst. cbn [msg_stress_field msg_rul msg_damage_prediction].
  split; [by rewrite (length_stress_loop _ _ _ _ _ _ _ Hsf)|].
  apply prognostics_inv in Hprog
    as [(_ & -> & ->)|(_ & _ & r & -> & Hr)].
  - split; [discriminate|]. intros _. split; [reflexivity|].
    subst st1. cbn [update_state damage_state]. apply evolve_le_1.
  - split; [|discriminate]. by intros r' [= <-].
Qed.

(** How a tick moves the length of the history, and when its message
    carries no RUL. *)
Lemma tick_warm_up (scalers : gmap string (gmap string Q))
    (pinn : list Q → result PinnRow) (lstm : list (Q * Q) → result Q)
    (st st' : State) (r : result Message) :
  tick scalers pinn lstm st = (st', r) →
  (length (history st) ≤ 10)%nat →
  match r with
  | Ok m =>
    length (history st') = Nat.min 10 (S (length (history st)))
    ∧ (msg_rul m = None ↔ (length (history st) < 9)%nat)
  | Raise e =>
    st' = st ∨ (length (history st') = 10%nat ∧ (9 ≤ length (history st))%nat)
  end.
Proof.
  intros Ht Hlen. apply tick_inv in Ht.
  destruct Ht as [e He|sf ms e Hsf Hm st1 Hprog|sf ms dp rul Hsf Hm st1 Hprog];
    [by left| |].
  - right. apply prognostics_raise_inv in Hprog as [Hfull _].
    split; [exact Hfull|]. subst st1. cbn [update_state history] in Hfull.
    rewrite length_deque_append_min in Hfull by (unfold history_maxlen; lia).
    unfold history_maxlen in Hfull. lia.
  - assert (Hl : length (history st1) = Nat.min 10 (S (length (history st)))).
    { subst st1. cbn [update_state history].
      by rewrite length_deque_append_min by (unfold history_maxlen; lia). }
    split; [exact Hl|]. cbn [msg_rul].
    apply prognostics_inv in Hprog
      as [(Hne & _ & ->)|(Heq & _ & r & -> & _)].
    + split; [intros _; lia|done].
    + split; [discriminate|lia].
Qed.

Lemma serve_warm_up (scalers : gmap string (gmap string Q))
    (pinn : list Q → result PinnRow) (lstm : list (Q * Q) → result Q)
    (sched : list nat) (p : Process) (j i : nat) (m : Message) :
  (length (history (globals p)) ≤ 10)%nat →
  (serve (tick scalers pinn lstm) sched p).2 !! j = Some (i, m) →
  (msg_rul m = None ↔ (length (history (globals p)) + j < 9)%nat).
Proof.
  revert p j. induction sched as [|k sched IH]; intros p j Hlen; [done|].
  rewrite serve_cons. cbn [snd]. unfold resume.
  destruct (conns p !! k) as [[| |e]|]; cbn [fst snd];
    [| |by apply IH|by apply IH].
  - destruct (tick scalers pinn lstm (globals p)) as [st1 [m1|e]] eqn:Ht;
      cbn [fst snd];
      pose proof (tick_warm_up _ _ _ _ _ _ Ht Hlen) as Hw; cbn beta iota in Hw.
    + destruct Hw as [Hl Hnone]. destruct j as [|j]; cbn [lookup list_lookup].
      * intros [= <- <-]. rewrite Nat.add_0_r. exact Hnone.
      * intros Hj. apply IH in Hj; cbn [globals] in *; [|lia].
        rewrite Hj. lia.
    + intros Hj. destruct Hw as [->|[Hl H9]].
      * by apply IH in Hj.
      * apply IH in Hj; cbn [globals] in *; [|lia]. rewrite Hj. lia.
  - intros Hj. by apply IH in Hj.
Qed.

(** ** Properties of every reachable state and every message *)

(** Whatever the scaler table, the surrogate and the prognostics model do,
    and however the event loop schedules the connections, the globals
    reached from the initial state keep the damage at most 1.0 and at most
    10 samples in the history. *)
Theorem reachable_globals_invariant
    (scalers : gmap string (gmap string Q))
    (pinn : list Q → result PinnRow) (lstm : list (Q * Q) → result Q)
    (k : nat) (sched : list nat) :
  let g := globals (serve (tick scalers pinn lstm) sched (start k)).1 in
  damage_state g <= 1
  ∧ (length (history g) ≤ 10)%nat.
Proof.
  apply (serve_invariant sound (tick scalers pinn lstm)).
  - intros st. apply sound_tick.
  - intros st. apply sound_advance_clock.
  - apply sound_initial.
Qed.

(** Every message sent, to whichever connection and under whatever
    schedule, carries one stress per mesh point (2601 of them); a reported
    RUL is never negative, equals 0.9 minus the predicted damage and is
    positive when that prediction is below 0.9, and is zero otherwise; and
    a message without RUL reports a damage of at most 1.0. *)
Theorem messages_well_formed
    (scalers : gmap string (gmap string Q))
    (pinn : list Q → result PinnRow) (lstm : list (Q * Q) → result Q)
    (sched : list nat) (p : Process) :
  Forall
    (λ im : nat * Message,
       length (msg_stress_field im.2) = ((RESOLUTION + 1) * (RESOLUTION + 1))%nat
       ∧ (∀ r, msg_rul im.2 = Some r →
            0 <= r
            ∧ (msg_damage_prediction im.2 < FAILURE_THRESHOLD →
               r == FAILURE_THRESHOLD - msg_damage_prediction im.2 ∧ 0 < r)
            ∧ (FAILURE_THRESHOLD <= msg_damage_prediction im.2 → r == 0))
       ∧ (msg_rul im.2 = None → msg_damage_prediction im.2 <= 1))
    (serve (tick scalers pinn lstm) sched p).2.
Proof.
  apply (serve_messages
           (λ m, length (msg_stress_field m)
                 = ((RESOLUTION + 1) * (RESOLUTION + 1))%nat
                 ∧ (∀ r, msg_rul m = Some r →
                      0 <= r
                      ∧ (msg_damage_prediction m < FAILURE_THRESHOLD →
                         r == FAILURE_THRESHOLD - msg_damage_prediction m
                         ∧ 0 < r)
                      ∧ (FAILURE_THRESHOLD <= msg_damage_prediction m → r == 0))
                 ∧ (msg_rul m = None → msg_damage_prediction m <= 1))).
  intros st st' m Ht.
  destruct (tick_message _ _ _ _ _ _ Ht) as (Hlen & Hrul & Hnone).
  split; [exact Hlen|]. split; [exact Hrul|]. intros H. by apply Hnone.
Qed.

Lemma serve_ws_cons (body : State → State * result Message)
    (send_json : nat → Message → result ()) (i : nat) (sched : list nat)
    (p : Process) :
  serve_ws body send_json (i :: sched) p
  = ((serve_ws body send_json sched (resume_ws body send_json i p).1).1,
     match (resume_ws body send_json i p).2 with
     | Some m =>
       (i, m) :: (serve_ws body send_json sched (resume_ws body send_json i p).1).2
     | None => (serve_ws body send_json sched (resume_ws body send_json i p).1).2
     end).
Proof.
  simpl. destruct (resume_ws body send_json i p) as [p1 sent]. cbn [fst snd].
  by destruct (serve_ws body send_json sched p1) as [p2 rest].
Qed.

(** While every send returns, the process on websockets is [serve]. *)
Lemma serve_ws_ok (body : State → State * result Message)
    (send_json : nat → Message → result ()) :
  (∀ i m, send_json i m = Ok ()) →
  ∀ sched p, serve_ws body send_json sched p = serve body sched p.
Proof.
  intros Hsend. induction sched as [|i sched IH]; intros p; [reflexivity|].
  rewrite serve_ws_cons, serve_cons.
  assert (Hres : resume_ws body send_json i p = resume body i p).
  { unfold resume_ws, resume. destruct (conns p !! i) as [[| |e]|]; try done.
    destruct (body (globals p)) as [st1 [m|e]]; [|done]. by rewrite Hsend. }
  by rewrite Hres, !IH.
Qed.

Lemma while_True_ws_ok (body : State → State * result Message)
    (send_json : Message → result ()) :
  (∀ m, send_json m = Ok ()) →
  ∀ n st, while_True_ws body send_json n st = while_True body n st.
Proof.
  intros Hsend. induction n as [|n IH]; intros st; [reflexivity|].
  simpl. destruct (body st) as [st1 [m|e]]; [|done].
  by rewrite Hsend, IH.
Qed.

Lemma serve_ws_warm_up (scalers : gmap string (gmap string Q))
    (pinn : list Q → result PinnRow) (lstm : list (Q * Q) → result Q)
    (send_json : nat → Message → result ())
    (sched : list nat) (p : Process) (j i : nat) (m : Message) :
  (length (history (globals p)) ≤ 10)%nat →
  (serve_ws (tick scalers pinn lstm) send_json sched p).2 !! j = Some (i, m) →
  msg_rul m = None → (length (history (globals p)) + j < 9)%nat.
Proof.
  revert p j. induction sched as [|k sched IH]; intros p j Hlen; [done|].
  rewrite serve_ws_cons. cbn [snd]. unfold resume_ws.
  destruct (conns p !! k) as [[| |e]|]; cbn [fst snd];
    [| |by apply IH|by apply IH].
  - destruct (tick scalers pinn lstm (globals p)) as [st1 [m1|e]] eqn:Ht;
      pose proof (tick_warm_up _ _ _ _ _ _ Ht Hlen) as Hw; cbn beta iota in Hw.
    + destruct Hw as [Hl Hnone].
      destruct (send_json k m1) as [[]|e]; cbn [fst snd].
      * destruct j as [|j]; cbn [lookup list_lookup].
        -- intros [= <- <-] Hrul. rewrite Nat.add_0_r. by apply Hnone.
        -- intros Hj Hrul. apply IH in Hj; cbn [globals] in *; [|lia|exact Hrul].
           lia.
      * intros Hj Hrul. apply IH in Hj; cbn [globals] in *; [|lia|exact Hrul].
        lia.
    + cbn [fst snd]. intros Hj Hrul. destruct Hw as [->|[Hl H9]].
      * by apply IH in Hj.
      * apply IH in Hj; cbn [globals] in *; [|lia|exact Hrul]. lia.
  - intros Hj Hrul. by apply IH in Hj.
Qed.

(** Warm-up: counted from process start over all connections, a message
    without RUL can only be among the first nine messages delivered,
    whatever the schedule, whatever the collaborators return and whichever
    sends fail; while every send returns, exactly the first nine messages
    delivered carry no RUL. *)
Theorem rul_absent_only_during_warm_up
    (scalers : gmap string (gmap string Q))
    (pinn : list Q → result PinnRow) (lstm : list (Q * Q) → result Q)
    (send_json : nat → Message → result ())
    (k : nat) (sched : list nat) (j i : nat) (m : Message) :
  (serve_ws (tick scalers pinn lstm) send_json sched (start k)).2 !! j
  = Some (i, m) →
  (msg_rul m = None → (j < 9)%nat)
  ∧ ((∀ i' m', send_json i' m' = Ok ()) → (j < 9)%nat → msg_rul m = None).
Proof.
  intros Hj. split.
  - intros Hrul.
    assert (Hlen : (length (history (globals (start k))) ≤ 10)%nat)
      by (simpl; lia).
    pose proof (serve_ws_warm_up _ _ _ _ _ _ _ _ _ Hlen Hj Hrul) as H.
    simpl in H. lia.
  - intros Hsend Hlt. rewrite (serve_ws_ok _ _ Hsend) in Hj.
    apply serve_warm_up in Hj; [|simpl; lia]. apply Hj. simpl. lia.
Qed.

Lemma rul_absent_only_during_warm_up_witness :
  let body := tick example_scalers (constant_pinn 1000) (constant_lstm 0.85) in
  let send_json : nat → Message → result () :=
    λ i m, if (i =? 0)%nat then disconnected m else Ok () in
  let delivered : nat → Message → result () := λ _ _, Ok () in
  (∃ m, (serve_ws body send_json [0; 1; 1; 1]%nat (start 2)).2 !! 1%nat
        = Some (1%nat, m)
        ∧ (msg_rul m = None → (1 < 9)%nat)
        ∧ ((∀ i' m', send_json i' m' = Ok ()) → (1 < 9)%nat → msg_rul m = None))
  ∧ (∃ m, (serve_ws body delivered [0; 1; 1; 1]%nat (start 2)).2 !! 1%nat
          = Some (1%nat, m)
          ∧ (∀ i' m', delivered i' m' = Ok ())
          ∧ (1 < 9)%nat
          ∧ msg_rul m = None).
Proof.
  intros body send_json delivered. subst body.
  assert (Hext : ∀ send sched p,
            serve_ws (tick example_scalers (constant_pinn 1000)
                        (constant_lstm 0.85)) send sched p
            = serve_ws (constant_tick 1000 (constant_lstm 0.85)) send sched p).
  { intros send. induction sched as [|i sched IH]; intros p; [reflexivity|].
    rewrite !serve_ws_cons. unfold resume_ws. rewrite tick_constant.
    by rewrite !IH. }
  split.
  - assert (Hm : ∃ m, (serve_ws (tick example_scalers (constant_pinn 1000)
                                 (constant_lstm 0.85))
                       send_json [0; 1; 1; 1]%nat (start 2)).2
                      !! 1%nat = Some (1%nat, m)).
    { rewrite Hext. eexists. vm_compute. reflexivity. }
    destruct Hm as [m Hm]. exists m. split; [exact Hm|].
    exact (rul_absent_only_during_warm_up example_scalers (constant_pinn 1000)
             (constant_lstm 0.85) send_json 2 [0; 1; 1; 1]%nat 1 1 m Hm).
  - assert (Hm : ∃ m, (serve_ws (tick example_scalers (constant_pinn 1000)
                                 (constant_lstm 0.85))
                       delivered [0; 1; 1; 1]%nat (start 2)).2
                      !! 1%nat = Some (1%nat, m)).
    { rewrite Hext. eexists. vm_compute. reflexivity. }
    destruct Hm as [m Hm]. exists m. split; [exact Hm|].
    split; [reflexivity|]. split; [repeat constructor|].
    apply (rul_absent_only_during_warm_up example_scalers (constant_pinn 1000)
             (constant_lstm 0.85) delivered 2 [0; 1; 1; 1]%nat 1 1 m Hm);
      [reflexivity|repeat constructor].
Defined.

(** ** Progress *)

Lemma tick_total (scalers : gmap string (gmap string Q))
    (pinn : list Q → result PinnRow) (lstm : list (Q * Q) → result Q)
    (st : State) :
  complete scalers →
  (∀ X, ∃ row, pinn X = Ok row) → (∀ h, ∃ d, lstm h = Ok d) →
  ∃ m, (tick scalers pinn lstm st).2 = Ok m.
Proof.
  intros Hsc Hpinn Hlstm.
  destruct (mapM_total
              (mesh_point scalers pinn RESOLUTION BEAM_LENGTH BEAM_HEIGHT
                 (damage_state st)) (grid RESOLUTION)) as [sf Hsf].
  { intros [x y]. unfold mesh_point. cbn [fst snd].
    destruct (features_ok scalers RESOLUTION BEAM_LENGTH BEAM_HEIGHT x y Hsc)
      as (X & -> & _); [unfold RESOLUTION; lia|].
    destruct (Hpinn X) as [row Hrow]. simpl. rewrite Hrow. simpl. by eexists. }
  fold (stress_loop scalers pinn RESOLUTION BEAM_LENGTH BEAM_HEIGHT
          (damage_state st)) in Hsf.
  destruct (np_max_nonempty sf) as [ms Hms].
  { rewrite (length_stress_loop _ _ _ _ _ _ _ Hsf). lia. }
  rewrite (tick_unfold _ _ _ _ _ _ Hsf Hms). cbn [snd].
  unfold prognostics. destruct (_ =? _)%nat; [|by eexists].
  destruct (Hlstm (history (update_state st ms (Py.np_mean sf)))) as [d ->].
  simpl. destruct (Py.lt d FAILURE_THRESHOLD); by eexists.
Qed.

Lemma while_True_ws_total (body : State → State * result Message)
    (send_json : Message → result ()) :
  (∀ st, ∃ m, (body st).2 = Ok m) →
  ∀ n st,
    ((while_True_ws body send_json n st).2 = Running
     ∧ length (while_True_ws body send_json n st).1.2 = n)
    ∨ ∃ e m, (while_True_ws body send_json n st).2 = Crashed e
             ∧ send_json m = Raise e.
Proof.
  intros Hbody. induction n as [|n IH]; intros st; [by left|].
  simpl. destruct (Hbody st) as [m Hm].
  destruct (body st) as [st1 r]. cbn [snd] in Hm. subst r.
  destruct (send_json m) as [[]|e] eqn:Hsend.
  - specialize (IH (advance_clock st1)).
    destruct (while_True_ws body send_json n (advance_clock st1))
      as [[st2 ms] o].
    simpl in *. destruct IH as [[-> <-]|IH]; [by left|by right].
  - right. by exists e, m.
Qed.

Lemma serve_ws_closed (body : State → State * result Message)
    (send_json : nat → Message → result ()) :
  (∀ st, ∃ m, (body st).2 = Ok m) →
  ∀ sched p,
    (∀ i e, conns p !! i = Some (Closed e) → ∃ m, send_json i m = Raise e) →
    ∀ i e, conns (serve_ws body send_json sched p).1 !! i = Some (Closed e) →
           ∃ m, send_json i m = Raise e.
Proof.
  intros Hbody. induction sched as [|j sched IH]; intros p Hp; [exact Hp|].
  rewrite serve_ws_cons. cbn [fst]. apply IH. unfold resume_ws.
  destruct (conns p !! j) as [[| |e']|] eqn:Hj; [| |exact Hp|exact Hp].
  - destruct (Hbody (globals p)) as [m Hm].
    destruct (body (globals p)) as [st1 r]. cbn [snd] in Hm. subst r.
    destruct (send_json j m) as [[]|e'] eqn:Hsend; cbn [fst conns];
      intros i e; destruct (decide (i = j)) as [->|Hne].
    + rewrite list_lookup_insert_eq by (by eapply lookup_lt_Some). discriminate.
    + rewrite list_lookup_insert_ne by done. apply Hp.
    + rewrite list_lookup_insert_eq by (by eapply lookup_lt_Some).
      intros [= <-]. by exists m.
    + rewrite list_lookup_insert_ne by done. apply Hp.
  - cbn [fst conns]. intros i e. destruct (decide (i = j)) as [->|Hne].
    + rewrite list_lookup_insert_eq by (by eapply lookup_lt_Some). discriminate.
    + rewrite list_lookup_insert_ne by done. apply Hp.
Qed.

(** With a scaler table that has a mean and a non-zero scale for the six
    features, and collaborators whose [predict] does not raise, every
    iteration of the loop reaches [ws.send_json] with a message: nothing
    before the send raises.  A session therefore ends only by an exception
    raised by a send: observed for [n] iterations it has delivered [n]
    messages and is still running, or it was ended by the exception of a
    failed send; while every send returns it keeps running; and under any
    schedule a connection of the process is closed only by an exception
    that its own websocket raised. *)
Theorem session_ends_only_by_failed_send
    (scalers : gmap string (gmap string Q))
    (pinn : list Q → result PinnRow) (lstm : list (Q * Q) → result Q) :
  complete scalers →
  (∀ X, ∃ row, pinn X = Ok row) → (∀ h, ∃ d, lstm h = Ok d) →
  (∀ st, ∃ m, (tick scalers pinn lstm st).2 = Ok m)
  ∧ (∀ (send_json : Message → result ()) n st,
       let r := while_True_ws (tick scalers pinn lstm) send_json n st in
       (r.2 = Running ∧ length r.1.2 = n)
       ∨ ∃ e m, r.2 = Crashed e ∧ send_json m = Raise e)
  ∧ (∀ (send_json : Message → result ()) n st,
       (∀ m, send_json m = Ok ()) →
       let r := while_True_ws (tick scalers pinn lstm) send_json n st in
       r.2 = Running ∧ length r.1.2 = n)
  ∧ (∀ (send_json : nat → Message → result ()) k sched i e,
       conns (serve_ws (tick scalers pinn lstm) send_json sched (start k)).1 !! i
       = Some (Closed e) →
       ∃ m, send_json i m = Raise e).
Proof.
  intros Hsc Hpinn Hlstm.
  assert (Htick : ∀ st, ∃ m, (tick scalers pinn lstm st).2 = Ok m)
    by (intros st; by apply tick_total).
  split; [exact Htick|]. split; [|split].
  - intros send_json n st. by apply while_True_ws_total.
  - intros send_json n st Hsend. cbn zeta.
    destruct (while_True_ws_total _ send_json Htick n st)
      as [Hrun|(e & m & _ & Hraise)]; [exact Hrun|].
    rewrite Hsend in Hraise. discriminate.
  - intros send_json k sched. apply serve_ws_closed; [exact Htick|].
    intros i e. unfold start. cbn [conns]. intros Hi.
    apply lookup_replicate in Hi as [Hi _]. discriminate.
Qed.

Lemma session_ends_only_by_failed_send_witness :
  ((∀ st, ∃ m, (tick example_scalers (constant_pinn 1000) (constant_lstm 0.85)
                  st).2 = Ok m)
   ∧ (∀ (send_json : Message → result ()) n st,
        let r := while_True_ws (tick example_scalers (constant_pinn 1000)
                                  (constant_lstm 0.85)) send_json n st in
        (r.2 = Running ∧ length r.1.2 = n)
        ∨ ∃ e m, r.2 = Crashed e ∧ send_json m = Raise e)
   ∧ (∀ (send_json : Message → result ()) n st,
        (∀ m, send_json m = Ok ()) →
        let r := while_True_ws (tick example_scalers (constant_pinn 1000)
                                  (constant_lstm 0.85)) send_json n st in
        r.2 = Running ∧ length r.1.2 = n)
   ∧ (∀ (send_json : nat → Message → result ()) k sched i e,
        conns (serve_ws (tick example_scalers (constant_pinn 1000)
                           (constant_lstm 0.85)) send_json sched (start k)).1 !! i
        = Some (Closed e) →
        ∃ m, send_json i m = Raise e))
  ∧ (while_True_ws (tick example_scalers (constant_pinn 1000)
                      (constant_lstm 0.85)) disconnected 3 initial_state).2
    = Crashed (Exception "WebSocketDisconnect")
  ∧ length (while_True_ws (tick example_scalers (constant_pinn 1000)
                             (constant_lstm 0.85)) (λ _, Ok ()) 3
              initial_state).1.2 = 3%nat.
Proof.
  split; [|split].
  - apply (session_ends_only_by_failed_send example_scalers
             (constant_pinn 1000) (constant_lstm 0.85)).
    + apply complete_example.
    + intros X. by eexists.
    + intros h. by eexists.
  - cbn [while_True_ws]. rewrite tick_constant. vm_compute. reflexivity.
  - rewrite (while_True_ws_ok
               (tick example_scalers (constant_pinn 1000) (constant_lstm 0.85))
               (λ _, Ok ()) (λ _, eq_refl) 3 initial_state).
    rewrite (while_True_ext _ _ (tick_constant 1000 (constant_lstm 0.85))).
    vm_compute. reflexivity.
Defined.

(** ** Saturation of the damage *)

Lemma amplify_nonneg (c b : Q) : 0 <= c → 0 <= b → 0 <= amplify c b.
Proof. intros Hc Hb. rewrite amplify_spec. nra. Qed.

Lemma tick_growth (scalers : gmap string (gmap string Q))
    (pinn : list Q → result PinnRow) (lstm : list (Q * Q) → result Q)
    (st st' : State) (m : Message) :
  (∀ X row, pinn X = Ok row → 0 <= out_stress row) →
  0 <= damage_state st →
  tick scalers pinn lstm st = (st', Ok m) →
  Qmin 1 (damage_state st + 0.002) <= damage_state st'
  ∧ damage_state st' <= 1.
Proof.
  intros Hpinn Hd Ht. apply tick_inv in Ht.
  inversion Ht as [| |sf ms dp rul Hsf Hm st1 Hprog]; subst.
  subst st1. cbn [update_state damage_state]. split; [|apply evolve_le_1].
  assert (Hms : 0 <= ms).
  { apply np_max_spec in Hm as [Hin _].
    apply stress_loop_inv in Hsf.
    apply list_elem_of_lookup in Hin as [i Hi].
    destruct (Forall2_lookup_r _ _ _ _ _ Hsf Hi) as (p & _ & X & row & _ & Hrow & ->).
    apply amplify_nonneg; [exact Hd|by eapply Hpinn]. }
  pose proof (evolve_spec (damage_state st) ms) as He.
  pose proof (growth_rate_spec ms) as Hg.
  pose proof (Q.min_spec 1 (damage_state st + 0.002)) as H1.
  pose proof (Q.min_spec 1.0 (damage_state st + growth_rate ms)) as H2.
  lra.
Qed.

(** When the surrogate predicts no negative stress, the damage grows by at
    least 0.002 with every tick until it is capped: after [n] iterations of
    a session that is still running the damage is at least
    min(1, d + 0.002 n), so it is exactly 1.0 once 0.002 n covers the
    distance 1 - d. *)
Theorem damage_saturates
    (scalers : gmap string (gmap string Q))
    (pinn : list Q → result PinnRow) (lstm : list (Q * Q) → result Q)
    (n : nat) (st : State) :
  (∀ X row, pinn X = Ok row → 0 <= out_stress row) →
  0 <= damage_state st → damage_state st <= 1 →
  (websocket_endpoint scalers pinn lstm n st).2 = Running →
  let st' := (websocket_endpoint scalers pinn lstm n st).1.1 in
  Qmin 1 (damage_state st + 0.002 * inject_Z (Z.of_nat n)) <= damage_state st'
  ∧ damage_state st' <= 1
  ∧ (1 <= damage_state st + 0.002 * inject_Z (Z.of_nat n) →
     damage_state st' == 1).
Proof.
  intros Hpinn. unfold websocket_endpoint.
  assert (Hmain : ∀ n st, 0 <= damage_state st → damage_state st <= 1 →
            (while_True (tick scalers pinn lstm) n st).2 = Running →
            Qmin 1 (damage_state st + 0.002 * inject_Z (Z.of_nat n))
            <= damage_state (while_True (tick scalers pinn lstm) n st).1.1
            ∧ damage_state (while_True (tick scalers pinn lstm) n st).1.1 <= 1).
  { clear n st. induction n as [|n IH]; intros st Hd0 Hd1.
    - intros _. simpl. change (inject_Z (Z.of_nat 0)) with 0.
      pose proof (Q.min_spec 1 (damage_state st + 0.002 * 0)). lra.
    - cbn [while_True].
      destruct (tick scalers pinn lstm st) as [st1 [m|e]] eqn:Ht; [|discriminate].
      destruct (tick_growth _ _ _ _ _ _ Hpinn Hd0 Ht) as [Hlo Hhi].
      assert (Hd0' : 0 <= damage_state (advance_clock st1)).
      { cbn [advance_clock damage_state].
        pose proof (Q.min_spec 1 (damage_state st + 0.002)). lra. }
      specialize (IH (advance_clock st1) Hd0' Hhi).
      destruct (while_True (tick scalers pinn lstm) n (advance_clock st1))
        as [[st2 ms] o]. cbn [fst snd] in *.
      intros Ho. destruct (IH Ho) as [IHlo IHhi]. split; [|exact IHhi].
      rewrite Nat2Z.inj_succ, <- Z.add_1_r, inject_Z_plus.
      change (inject_Z 1) with 1.
      change (damage_state (advance_clock st1)) with (damage_state st1) in *.
      assert (0 <= inject_Z (Z.of_nat n)).
      { change 0 with (inject_Z 0). rewrite <- Zle_Qle. lia. }
      pose proof (Q.min_spec 1 (damage_state st + 0.002)).
      pose proof (Q.min_spec 1 (damage_state st1 + 0.002 * inject_Z (Z.of_nat n))).
      pose proof (Q.min_spec 1
        (damage_state st + 0.002 * (inject_Z (Z.of_nat n) + 1))).
      lra. }
  intros Hd0 Hd1 Hrun. destruct (Hmain n st Hd0 Hd1 Hrun) as [Hlo Hhi].
  cbn zeta. split; [exact Hlo|]. split; [exact Hhi|].
  intros Hn.
  pose proof (Q.min_spec 1 (damage_state st + 0.002 * inject_Z (Z.of_nat n))).
  lra.
Qed.

Lemma damage_saturates_witness :
  let st' := (websocket_endpoint example_scalers (constant_pinn 1000)
                (constant_lstm 0.85) 3 initial_state).1.1 in
  Qmin 1 (damage_state initial_state + 0.002 * inject_Z (Z.of_nat 3))
  <= damage_state st'
  ∧ damage_state st' <= 1
  ∧ (1 <= damage_state initial_state + 0.002 * inject_Z (Z.of_nat 3) →
     damage_state st' == 1).
Proof.
  apply (damage_saturates example_scalers (constant_pinn 1000)
           (constant_lstm 0.85) 3 initial_state).
  - intros X row [= <-]. simpl. lra.
  - simpl. lra.
  - simpl. lra.
  - rewrite run_constant. vm_compute. reflexivity.
Defined.

(** ** Time stamps under any schedule *)

(** The shared clock never goes back, and neither do the time stamps: taken
    over all connections in sending order, the reported times are
    non-decreasing, and each lies between the clock at the start of the
    schedule and the clock at its end. *)
Theorem timestamps_never_go_back
    (scalers : gmap string (gmap string Q))
    (pinn : list Q → result PinnRow) (lstm : list (Q * Q) → result Q)
    (sched : list nat) (p : Process) :
  let r := serve (tick scalers pinn lstm) sched p in
  time (globals p) <= time (globals r.1)
  ∧ Forall (λ im : nat * Message,
              time (globals p) <= msg_time im.2
              ∧ msg_time im.2 <= time (globals r.1)) r.2
  ∧ StronglySorted (λ a b : nat * Message, msg_time a.2 <= msg_time b.2) r.2.
Proof.
  revert p. induction sched as [|i sched IH]; intros p; cbn zeta.
  { simpl. split; [lra|]. split; constructor. }
  rewrite serve_cons. cbn [fst snd]. unfold resume.
  destruct (conns p !! i) as [[| |e]|]; cbn [fst snd];
    [| |apply IH|apply IH].
  - pose proof (tick_time scalers pinn lstm (globals p)) as Htime.
    destruct (tick scalers pinn lstm (globals p)) as [st1 [m|e]] eqn:Ht;
      cbn [fst snd] in *.
    + pose proof (tick_msg_time _ _ _ _ _ _ Ht) as Hm.
      destruct (IH {| globals := st1; conns := <[i:=Sending]> (conns p) |})
        as (Hc & Hall & Hs).
      cbn [globals] in *. rewrite Htime in *.
      split; [exact Hc|]. split.
      * constructor; [|exact Hall]. cbn [snd]. rewrite Hm. split; [lra|exact Hc].
      * constructor; [exact Hs|].
        eapply Forall_impl; [exact Hall|]. cbn [snd]. intros im [H1 _].
        by rewrite Hm.
    + destruct (IH {| globals := st1; conns := <[i:=Closed e]> (conns p) |})
        as (Hc & Hall & Hs).
      cbn [globals] in *. rewrite Htime in *. by split.
  - destruct (IH {| globals := advance_clock (globals p);
                    conns := <[i:=Looping]> (conns p) |}) as (Hc & Hall & Hs).
    cbn [globals advance_clock time] in *.
    assert (Hstep : time (globals p) <= (time (globals p) + TIME_STEP)%py).
    { rewrite add_spec. unfold TIME_STEP. lra. }
    split; [lra|]. split; [|exact Hs].
    eapply Forall_impl; [exact Hall|]. cbn beta. intros im [H1 H2].
    split; [lra|exact H2].
Qed.

(** ** The prognostics model does not feed back *)

Lemma tick_state_lstm (scalers : gmap string (gmap string Q))
    (pinn : list Q → result PinnRow) (lstm1 lstm2 : list (Q * Q) → result Q)
    (st : State) :
  (tick scalers pinn lstm1 st).1 = (tick scalers pinn lstm2 st).1.
Proof.
  unfold tick, after_mesh. simpl.
  destruct (stress_loop _ _ _ _ _ _) as [sf|e]; [|reflexivity].
  destruct (Py.np_max sf) as [ms|e]; [|reflexivity].
  by destruct (prognostics lstm1 _ _) as [[dp1 r1]|e1],
              (prognostics lstm2 _ _) as [[dp2 r2]|e2].
Qed.

Lemma tick_message_lstm (scalers : gmap string (gmap string Q))
    (pinn : list Q → result PinnRow) (lstm1 lstm2 : list (Q * Q) → result Q)
    (st st1 st2 : State) (m1 m2 : Message) :
  tick scalers pinn lstm1 st = (st1, Ok m1) →
  tick scalers pinn lstm2 st = (st2, Ok m2) →
  msg_stress_field m1 = msg_stress_field m2 ∧ msg_time m1 = msg_time m2.
Proof.
  unfold tick, after_mesh. simpl.
  destruct (stress_loop _ _ _ _ _ _) as [sf|e]; [|discriminate].
  destruct (Py.np_max sf) as [ms|e]; [|discriminate].
  destruct (prognostics lstm1 _ _) as [[dp1 r1]|e1]; [|discriminate].
  destruct (prognostics lstm2 _ _) as [[dp2 r2]|e2]; [|discriminate].
  by intros [= <- <-] [= <- <-].
Qed.

(** The output of the LSTM is reported and nothing more: it is never
    written to the globals.  Two services that differ in the prognostics
    model only, both still running after [n] iterations from the same
    state, hold the same globals and have sent the same stress fields with
    the same time stamps. *)
Theorem prognostics_never_feeds_back
    (scalers : gmap string (gmap string Q))
    (pinn : list Q → result PinnRow) (lstm1 lstm2 : list (Q * Q) → result Q)
    (n : nat) (st : State) :
  (websocket_endpoint scalers pinn lstm1 n st).2 = Running →
  (websocket_endpoint scalers pinn lstm2 n st).2 = Running →
  (websocket_endpoint scalers pinn lstm1 n st).1.1
  = (websocket_endpoint scalers pinn lstm2 n st).1.1
  ∧ msg_stress_field <$> (websocket_endpoint scalers pinn lstm1 n st).1.2
    = msg_stress_field <$> (websocket_endpoint scalers pinn lstm2 n st).1.2
  ∧ msg_time <$> (websocket_endpoint scalers pinn lstm1 n st).1.2
    = msg_time <$> (websocket_endpoint scalers pinn lstm2 n st).1.2.
Proof.
  unfold websocket_endpoint. revert st.
  induction n as [|n IH]; intros st; [done|].
  cbn [while_True].
  pose proof (tick_state_lstm scalers pinn lstm1 lstm2 st) as Hst.
  destruct (tick scalers pinn lstm1 st) as [s1 [m1|e1]] eqn:H1; [|discriminate].
  destruct (tick scalers pinn lstm2 st) as [s2 [m2|e2]] eqn:H2; [|discriminate].
  cbn [fst] in Hst. subst s2.
  destruct (tick_message_lstm _ _ _ _ _ _ _ _ _ H1 H2) as [Hf Ht].
  specialize (IH (advance_clock s1)).
  destruct (while_True (tick scalers pinn lstm1) n (advance_clock s1))
    as [[sa msa] oa].
  destruct (while_True (tick scalers pinn lstm2) n (advance_clock s1))
    as [[sb msb] ob].
  cbn [fst snd] in *. intros Ha Hb.
  destruct (IH Ha Hb) as (-> & Hfs & Hts).
  split; [reflexivity|]. cbn [fmap list_fmap].
  split; f_equal; assumption.
Qed.

Lemma prognostics_never_feeds_back_witness :
  let r1 := websocket_endpoint example_scalers (constant_pinn 0)
              (constant_lstm 0.85) 11 initial_state in
  let r2 := websocket_endpoint example_scalers (constant_pinn 0)
              (constant_lstm 0.2) 11 initial_state in
  (r1.1.1 = r2.1.1
   ∧ msg_stress_field <$> r1.1.2 = msg_stress_field <$> r2.1.2
   ∧ msg_time <$> r1.1.2 = msg_time <$> r2.1.2)
  ∧ msg_damage_prediction <$> drop 9 r1.1.2 = [0.85; 0.85]
  ∧ msg_damage_prediction <$> drop 9 r2.1.2 = [0.2; 0.2].
Proof.
  split.
  - apply (prognostics_never_feeds_back example_scalers (constant_pinn 0)
             (constant_lstm 0.85) (constant_lstm 0.2) 11 initial_state).
    + rewrite run_constant. vm_compute. reflexivity.
    + rewrite run_constant. vm_compute. reflexivity.
  - rewrite !run_constant. split; vm_compute; reflexivity.
Defined.

(** ** The mesh *)

(** The two loops visit every point of the (R+1) x (R+1) mesh, no point
    outside it, and no point twice. *)
Theorem mesh_points_visited_once (R : nat) :
  NoDup (grid R)
  ∧ ∀ x y : nat, (x, y) ∈ grid R ↔ (x ≤ R)%nat ∧ (y ≤ R)%nat.
Proof.
  split.
  - apply NoDup_alt. intros i j p Hi Hj.
    assert (Hpos : ∀ k q, grid R !! k = Some q →
              q = (k mod S R, k / S R)%nat).
    { intros k q Hk. pose proof (lookup_lt_Some _ _ _ Hk) as Hlt.
      rewrite length_grid in Hlt.
      assert (Hk' : grid R !! (k / S R * S R + k mod S R)%nat = Some q).
      { replace (k / S R * S R + k mod S R)%nat with k; [exact Hk|].
        rewrite (Nat.div_mod_eq k (S R)) at 1. lia. }
      rewrite lookup_grid in Hk'.
      - by injection Hk' as <-.
      - pose proof (Nat.mod_upper_bound k (S R)). lia.
      - assert (k / S R < S R)%nat by (apply Nat.Div0.div_lt_upper_bound; lia).
        lia. }
    apply Hpos in Hi, Hj. rewrite Hi in Hj.
    pose proof (f_equal fst Hj) as Hmod. pose proof (f_equal snd Hj) as Hdiv.
    cbn [fst snd] in Hmod, Hdiv.
    rewrite (Nat.div_mod_eq i (S R)), Hmod, Hdiv. symmetry.
    apply Nat.div_mod_eq.
  - intros x y. unfold grid. rewrite list_elem_of_bind. split.
    + intros (y' & Hin & Hy'). apply list_elem_of_fmap in Hin as (x' & Heq & Hx').
      injection Heq as -> ->. apply elem_of_seq in Hx', Hy'. lia.
    + intros [Hx Hy]. exists y. split.
      * apply list_elem_of_fmap. exists x. split; [reflexivity|].
        apply elem_of_seq. lia.
      * apply elem_of_seq. lia.
Qed.

Lemma ratio_bounds (i R : nat) :
  (0 < R)%nat → (i ≤ R)%nat →
  0 <= inject_Z (Z.of_nat i) / inject_Z (Z.of_nat R)
  ∧ inject_Z (Z.of_nat i) / inject_Z (Z.of_nat R) <= 1.
Proof.
  intros HR Hi.
  assert (HR' : 0 < inject_Z (Z.of_nat R)).
  { change 0 with (inject_Z 0). rewrite <- Zlt_Qlt. lia. }
  split.
  - apply Qle_shift_div_l; [exact HR'|]. rewrite Qmult_0_l.
    change 0 with (inject_Z 0). rewrite <- Zle_Qle. lia.
  - apply Qle_shift_div_r; [exact HR'|]. rewrite Qmult_1_l.
    rewrite <- Zle_Qle. lia.
Qed.

Lemma ratio_monotone (i j R : nat) :
  (0 < R)%nat → (i ≤ j)%nat →
  inject_Z (Z.of_nat i) / inject_Z (Z.of_nat R)
  <= inject_Z (Z.of_nat j) / inject_Z (Z.of_nat R).
Proof.
  intros HR Hij. unfold Qdiv. apply Qmult_le_compat_r.
  - rewrite <- Zle_Qle. lia.
  - apply Qinv_le_0_compat. change 0 with (inject_Z 0).
    rewrite <- Zle_Qle. lia.
Qed.

(** The physical coordinates of the mesh span the beam and nothing more:
    for a mesh index between 0 and R the coordinate lies within half the
    extent on either side of the centre, index 0 sits on one face and
    index R on the other, and the coordinate does not decrease with the
    index. *)
Theorem mesh_spans_beam (i R : nat) (extent : Q) :
  (0 < R)%nat → (i ≤ R)%nat → 0 <= extent →
  ∃ p, phys i R extent = Ok p
       ∧ - (extent / 2) <= p ∧ p <= extent / 2
       ∧ (i = 0%nat → p == - (extent / 2))
       ∧ (i = R → p == extent / 2)
       ∧ (∀ j q, (i ≤ j)%nat → phys j R extent = Ok q → p <= q).
Proof.
  intros HR Hi He.
  destruct (phys_ok i R extent HR) as (p & Hp & Hpv).
  exists p. split; [exact Hp|]. unfold phys_coord in Hpv.
  destruct (ratio_bounds i R HR Hi) as [Ht0 Ht1].
  assert (HR' : ¬ inject_Z (Z.of_nat R) == 0).
  { change 0 with (inject_Z 0). rewrite inject_Z_injective. lia. }
  assert (Hhalf : extent / 2 == extent * (1 # 2)) by field.
  assert (Hb : ∀ t, 0 <= t → t <= 1 →
            - (extent * (1 # 2)) <= (t - 0.5) * extent
            ∧ (t - 0.5) * extent <= extent * (1 # 2)).
  { intros t H0 H1.
    pose proof (Qmult_le_0_compat t extent H0 He).
    assert (H1' : 0 <= 1 - t) by lra.
    pose proof (Qmult_le_0_compat (1 - t) extent H1' He). lra. }
  destruct (Hb _ Ht0 Ht1) as [Hlo Hhi].
  split; [by rewrite Hpv, Hhalf|]. split; [by rewrite Hpv, Hhalf|].
  split; [|split].
  - intros ->. rewrite Hpv. change (inject_Z (Z.of_nat 0)) with 0. field.
    exact HR'.
  - intros ->. rewrite Hpv. field. exact HR'.
  - intros j q Hij Hq.
    destruct (phys_ok j R extent HR) as (q' & Hq' & Hqv).
    rewrite Hq in Hq'. injection Hq' as <-. unfold phys_coord in Hqv.
    pose proof (ratio_monotone i j R HR Hij) as Hmono.
    rewrite Hpv, Hqv. apply Qmult_le_compat_r; [lra|exact He].
Qed.

Lemma mesh_spans_beam_witness :
  ∃ p, phys 20 RESOLUTION BEAM_LENGTH = Ok p
       ∧ - (BEAM_LENGTH / 2) <= p ∧ p <= BEAM_LENGTH / 2
       ∧ (20%nat = 0%nat → p == - (BEAM_LENGTH / 2))
       ∧ (20%nat = RESOLUTION → p == BEAM_LENGTH / 2)
       ∧ (∀ j q, (20 ≤ j)%nat → phys j RESOLUTION BEAM_LENGTH = Ok q → p <= q).
Proof.
  apply (mesh_spans_beam 20 RESOLUTION BEAM_LENGTH).
  - unfold RESOLUTION. lia.
  - unfold RESOLUTION. lia.
  - unfold BEAM_LENGTH. lra.
Defined.

(** ** A scaler table in the training format *)

Lemma norm_without_mean (scalers : gmap string (gmap string Q))
    (v : Q) (key : string) (entry : gmap string Q) :
  scalers !! key = Some entry → entry !! "mean"%string = None →
  norm scalers v key = Raise (KeyError "mean").
Proof. intros Hk Hm. unfold norm, Py.getitem. rewrite Hk. simpl. by rewrite Hm. Qed.

(** The training notebook keeps, for every column, the keys [min] and [max]
    ([models/PINN/Code.py], lines 127-128); the server reads [mean] and
    [scale].  A table whose entry for [x] has no [mean] is loaded without
    complaint and ends every session in its first iteration with
    [KeyError: 'mean'], before any message is sent and with the globals
    untouched. *)
Theorem table_without_mean_ends_session
    (scalers : gmap string (gmap string Q))
    (pinn : list Q → result PinnRow) (lstm : list (Q * Q) → result Q)
    (entry : gmap string Q) (n : nat) (st : State) :
  scalers !! "x"%string = Some entry → entry !! "mean"%string = None →
  startup (Ok pinn) (Ok lstm) (Ok scalers)
  = Ok {| svc_pinn := pinn; svc_lstm := lstm;
          svc_scalers := scalers; svc_state := initial_state |}
  ∧ websocket_endpoint scalers pinn lstm (S n) st
    = (st, [], Crashed (KeyError "mean")).
Proof.
  intros Hx Hmean. split; [reflexivity|].
  unfold websocket_endpoint. cbn [while_True].
  rewrite (tick_state_raised scalers pinn lstm st (KeyError "mean"));
    [reflexivity|].
  unfold stress_loop. destruct (grid_head RESOLUTION) as [l ->].
  apply mapM_Raise_head. unfold mesh_point, features. cbn [fst snd].
  destruct (phys_ok 0 RESOLUTION BEAM_LENGTH) as (px & -> & _);
    [unfold RESOLUTION; lia|].
  destruct (phys_ok 0 RESOLUTION BEAM_HEIGHT) as (py & -> & _);
    [unfold RESOLUTION; lia|].
  cbn [mbind result_bind].
  by rewrite (norm_without_mean scalers px "x" entry Hx Hmean).
Qed.

Lemma table_without_mean_ends_session_witness :
  let scalers : gmap string (gmap string Q) :=
    {[ "x"%string := {[ "min"%string := -525; "max"%string := 525 ]} ]} in
  startup (Ok (constant_pinn 1000)) (Ok (constant_lstm 0.85)) (Ok scalers)
  = Ok {| svc_pinn := constant_pinn 1000; svc_lstm := constant_lstm 0.85;
          svc_scalers := scalers; svc_state := initial_state |}
  ∧ websocket_endpoint scalers (constant_pinn 1000) (constant_lstm 0.85) 1
      initial_state
    = (initial_state, [], Crashed (KeyError "mean")).
Proof.
  apply (table_without_mean_ends_session _ (constant_pinn 1000)
           (constant_lstm 0.85)
           ({[ "min"%string := -525; "max"%string := 525 ]} : gmap string Q)
           0 initial_state).
  - reflexivity.
  - reflexivity.
Defined.

(** * Properties of the training notebook *)

(** ** Normalisation *)

Lemma normalize_column_spec (cast : Q → Q) (mn mx : Q) (values : list Q) :
  (∀ v, cast v == v) →
  Forall2 (λ v v', (¬ mx == mn → v' == (v - mn) / (mx - mn))
                   ∧ (mx == mn → v' == v - mn))
          values (Training.normalize_column cast mn mx values).
Proof.
  intros Hcast.
  unfold Training.normalize_column. apply Forall2_fmap_r, Forall_Forall2_diag.
  apply Forall_forall. intros v _. unfold Training.np_truediv.
  destruct (Qeq_bool (mx - mn)%py 0) eqn:E.
  - apply Qeq_bool_iff in E. rewrite sub_spec in E. split.
    + intros Hne. destruct Hne. lra.
    + intros _. rewrite Hcast, Qred_correct, sub_spec. field.
  - apply Qeq_bool_neq in E. rewrite sub_spec in E. split.
    + intros _. rewrite Hcast, Qred_correct, !sub_spec. reflexivity.
    + intros Heq. destruct E. lra.
Qed.

Lemma normalize_loop_spec (cast : Q → Q) (data : list (list Q))
    (scaler_dict : gmap string (gmap string Q)) (columns : list string) :
  ∀ (i : nat) (acc out : list (list Q)),
    Training.normalize_loop cast data scaler_dict i columns acc = Ok out →
    length acc = length data →
    length out = length data
    ∧ (∀ j, (j < i)%nat → out !! j = acc !! j)
    ∧ (∀ j, (i ≤ j)%nat →
         match columns !! (j - i)%nat ≫= (scaler_dict !!.) with
         | Some entry =>
           ∃ mn mx values,
             entry !! "min"%string = Some mn ∧ entry !! "max"%string = Some mx
             ∧ data !! j = Some values
             ∧ out !! j = Some (Training.normalize_column cast mn mx values)
         | None => out !! j = acc !! j
         end).
Proof.
  induction columns as [|col columns IH]; intros i acc out.
  { simpl. intros [= <-] Hlen. split; [exact Hlen|]. split; [done|].
    intros j _. by destruct (j - i)%nat. }
  cbn [Training.normalize_loop]. case_bool_decide as Hin.
  - destruct Hin as [entry Hentry]. unfold Py.getitem. rewrite Hentry.
    cbn [mbind result_bind].
    destruct (entry !! "min"%string) as [mn|] eqn:Hmn; [|discriminate].
    cbn [mbind result_bind].
    destruct (entry !! "max"%string) as [mx|] eqn:Hmx; [|discriminate].
    cbn [mbind result_bind]. unfold Training.column.
    destruct (data !! i) as [values|] eqn:Hdata; [|discriminate].
    cbn [mbind result_bind]. intros Hloop Hlen.
    assert (Hlen' : length (<[i := Training.normalize_column cast mn mx values]> acc)
                    = length data) by (by rewrite length_insert).
    destruct (IH _ _ _ Hloop Hlen') as (Hl & Hlt & Hge).
    split; [exact Hl|]. split.
    + intros j Hj. rewrite Hlt by lia. apply list_lookup_insert_ne. lia.
    + intros j Hj. destruct (decide (j = i)) as [->|Hne].
      * rewrite Nat.sub_diag. cbn [lookup list_lookup mbind option_bind].
        rewrite Hentry. exists mn, mx, values.
        repeat split; [exact Hmn|exact Hmx|exact Hdata|].
        rewrite Hlt by lia. apply list_lookup_insert_eq.
        rewrite Hlen. by eapply lookup_lt_Some.
      * replace (j - i)%nat with (S (j - S i)) by lia.
        cbn [lookup list_lookup]. specialize (Hge j ltac:(lia)).
        destruct (columns !! (j - S i)%nat ≫= (scaler_dict !!.)); [exact Hge|].
        rewrite Hge. apply list_lookup_insert_ne. lia.
  - intros Hloop Hlen. destruct (IH _ _ _ Hloop Hlen) as (Hl & Hlt & Hge).
    split; [exact Hl|]. split.
    + intros j Hj. apply Hlt. lia.
    + intros j Hj. destruct (decide (j = i)) as [->|Hne].
      * rewrite Nat.sub_diag. cbn [lookup list_lookup mbind option_bind].
        destruct (scaler_dict !! col) as [entry|] eqn:Hentry;
          [by destruct Hin|].
        apply Hlt. lia.
      * replace (j - i)%nat with (S (j - S i)) by lia.
        cbn [lookup list_lookup]. apply Hge. lia.
Qed.

Lemma normalize_data_spec (cast : Q → Q) (data : list (list Q)) (columns : list string)
    (scaler_dict : gmap string (gmap string Q)) (out : list (list Q)) :
  Training.normalize_data cast data columns scaler_dict = Ok out →
  length out = length data
  ∧ ∀ j,
      match columns !! j ≫= (scaler_dict !!.) with
      | Some entry =>
        ∃ mn mx values,
          entry !! "min"%string = Some mn ∧ entry !! "max"%string = Some mx
          ∧ data !! j = Some values
          ∧ out !! j = Some (Training.normalize_column cast mn mx values)
      | None => out !! j = data !! j
      end.
Proof.
  intros Hout. apply normalize_loop_spec in Hout as (Hl & _ & Hge); [|done].
  split; [exact Hl|]. intros j. specialize (Hge j ltac:(lia)).
  by rewrite Nat.sub_0_r in Hge.
Qed.

(** [normalize_data] returns an array of the shape of its input, and
    touches only the columns whose name is a key of the scaler: a column
    beyond the list of names, or whose name the scaler does not know, is
    returned as it was. *)
Theorem normalize_data_keeps_shape
    (cast : Q → Q) (data : list (list Q)) (columns : list string)
    (scaler_dict : gmap string (gmap string Q)) (out : list (list Q)) :
  Training.normalize_data cast data columns scaler_dict = Ok out →
  length out = length data
  ∧ Forall2 (λ values values', length values' = length values) data out
  ∧ (∀ j, (∀ col, columns !! j = Some col → scaler_dict !! col = None) →
          out !! j = data !! j).
Proof.
  intros Hout. apply normalize_data_spec in Hout as [Hl Hcols].
  split; [exact Hl|]. split.
  - apply Forall2_same_length_lookup. split; [done|].
    intros j values values' Hd Ho. specialize (Hcols j).
    destruct (columns !! j ≫= (scaler_dict !!.)) as [entry|].
    + destruct Hcols as (mn & mx & vs & _ & _ & Hd' & Ho').
      rewrite Hd in Hd'. injection Hd' as <-. rewrite Ho in Ho'.
      injection Ho' as ->. unfold Training.normalize_column.
      by rewrite length_fmap.
    + rewrite Hd in Hcols. rewrite Ho in Hcols. by injection Hcols as ->.
  - intros j Hj. specialize (Hcols j).
    destruct (columns !! j) as [col|]; cbn [mbind option_bind] in Hcols;
      [|exact Hcols].
    by rewrite (Hj col eq_refl) in Hcols.
Qed.

Lemma normalize_data_keeps_shape_witness :
  let scaler : gmap string (gmap string Q) :=
    {[ "fc"%string := {[ "min"%string := 20; "max"%string := 40 ]} ]} in
  let data := [[25; 30]; [314; 400]] in
  ∃ out, Training.normalize_data Training.astype_int data ["fc"; "fy"]%string
           scaler = Ok out
         ∧ length out = length data
         ∧ Forall2 (λ values values', length values' = length values) data out
         ∧ (∀ j, (∀ col, ["fc"; "fy"]%string !! j = Some col →
                         scaler !! col = None) →
                 out !! j = data !! j).
Proof.
  eexists. split; [vm_compute; reflexivity|].
  apply (normalize_data_keeps_shape Training.astype_int
           [[25; 30]; [314; 400]] ["fc"; "fy"]%string
           {[ "fc"%string := {[ "min"%string := 20; "max"%string := 40 ]} ]}).
  vm_compute. reflexivity.
Defined.

Lemma normalize_data_column (cast : Q → Q) (data : list (list Q)) (columns : list string)
    (scaler_dict : gmap string (gmap string Q)) (out : list (list Q))
    (j : nat) (col : string) (entry : gmap string Q) (mn mx : Q) :
  Training.normalize_data cast data columns scaler_dict = Ok out →
  columns !! j = Some col → scaler_dict !! col = Some entry →
  entry !! "min"%string = Some mn → entry !! "max"%string = Some mx →
  ∃ values, data !! j = Some values
            ∧ out !! j = Some (Training.normalize_column cast mn mx values).
Proof.
  intros Hout Hcol Hentry Hmn Hmx.
  apply normalize_data_spec in Hout as [_ Hcols]. specialize (Hcols j).
  rewrite Hcol in Hcols. cbn [mbind option_bind] in Hcols.
  rewrite Hentry in Hcols.
  destruct Hcols as (mn' & mx' & values & Hmn' & Hmx' & Hd & Ho).
  rewrite Hmn in Hmn'. rewrite Hmx in Hmx'.
  injection Hmn' as <-. injection Hmx' as <-. by exists values.
Qed.

(** Min-max scaling of a float array, whose dtype keeps the computed values
    as they are: for a column whose scaler entry has [min < max], every
    value is sent to (v - min) / (max - min); the minimum goes to 0, the
    maximum to 1, and every value between them lands in [0, 1]. *)
Theorem normalize_data_maps_range_to_unit_interval
    (cast : Q → Q) (data : list (list Q)) (columns : list string)
    (scaler_dict : gmap string (gmap string Q)) (out : list (list Q))
    (j : nat) (col : string) (entry : gmap string Q) (mn mx : Q) :
  (∀ v, cast v == v) →
  Training.normalize_data cast data columns scaler_dict = Ok out →
  columns !! j = Some col → scaler_dict !! col = Some entry →
  entry !! "min"%string = Some mn → entry !! "max"%string = Some mx →
  mn < mx →
  ∃ values values',
    data !! j = Some values ∧ out !! j = Some values'
    ∧ Forall2 (λ v v', v' == (v - mn) / (mx - mn)
                       ∧ (mn <= v → v <= mx → 0 <= v' ∧ v' <= 1)
                       ∧ (v == mn → v' == 0)
                       ∧ (v == mx → v' == 1))
              values values'.
Proof.
  intros Hcast Hout Hcol Hentry Hmn Hmx Hlt.
  destruct (normalize_data_column _ _ _ _ _ _ _ _ _ _ Hout Hcol Hentry Hmn Hmx)
    as (values & Hd & Ho).
  exists values, (Training.normalize_column cast mn mx values).
  split; [exact Hd|]. split; [exact Ho|].
  eapply Forall2_impl; [exact (normalize_column_spec cast mn mx values Hcast)|].
  intros v v' [Hne _]. cbn beta.
  assert (Hv : v' == (v - mn) / (mx - mn)) by (apply Hne; lra).
  assert (Hpos : 0 < mx - mn) by lra.
  split; [exact Hv|]. split; [|split].
  - intros H1 H2. rewrite Hv. split.
    + apply Qle_shift_div_l; [exact Hpos|]. lra.
    + apply Qle_shift_div_r; [exact Hpos|]. lra.
  - intros Heq. rewrite Hv, Heq. field. lra.
  - intros Heq. rewrite Hv, Heq. field. lra.
Qed.

Lemma normalize_data_maps_range_to_unit_interval_witness :
  let scaler : gmap string (gmap string Q) :=
    {[ "fc"%string := {[ "min"%string := 20; "max"%string := 40 ]} ]} in
  ∃ values values',
    [[20; 25; 40]] !! 0%nat = Some values
    ∧ [[0; 1 # 4; 1]] !! 0%nat = Some values'
    ∧ Forall2 (λ v v', v' == (v - 20) / (40 - 20)
                       ∧ (20 <= v → v <= 40 → 0 <= v' ∧ v' <= 1)
                       ∧ (v == 20 → v' == 0)
                       ∧ (v == 40 → v' == 1))
              values values'.
Proof.
  apply (normalize_data_maps_range_to_unit_interval (λ v, v) [[20; 25; 40]]
           ["fc"]%string
           {[ "fc"%string := {[ "min"%string := 20; "max"%string := 40 ]} ]}
           [[0; 1 # 4; 1]] 0 "fc"
           {[ "min"%string := 20; "max"%string := 40 ]} 20 40).
  - intros v. reflexivity.
  - vm_compute. reflexivity.
  - reflexivity.
  - reflexivity.
  - reflexivity.
  - reflexivity.
  - lra.
Defined.

(** The guard against a zero denominator, on a float array: for a column
    whose scaler entry has [max] equal to [min], the denominator is replaced
    by 1.0 and every value is sent to v - min; nothing is raised and nothing
    is divided by zero. *)
Theorem normalize_data_constant_column
    (cast : Q → Q) (data : list (list Q)) (columns : list string)
    (scaler_dict : gmap string (gmap string Q)) (out : list (list Q))
    (j : nat) (col : string) (entry : gmap string Q) (mn mx : Q) :
  (∀ v, cast v == v) →
  Training.normalize_data cast data columns scaler_dict = Ok out →
  columns !! j = Some col → scaler_dict !! col = Some entry →
  entry !! "min"%string = Some mn → entry !! "max"%string = Some mx →
  mx == mn →
  ∃ values values',
    data !! j = Some values ∧ out !! j = Some values'
    ∧ Forall2 (λ v v', v' == v - mn) values values'.
Proof.
  intros Hcast Hout Hcol Hentry Hmn Hmx Heq.
  destruct (normalize_data_column _ _ _ _ _ _ _ _ _ _ Hout Hcol Hentry Hmn Hmx)
    as (values & Hd & Ho).
  exists values, (Training.normalize_column cast mn mx values).
  split; [exact Hd|]. split; [exact Ho|].
  eapply Forall2_impl; [exact (normalize_column_spec cast mn mx values Hcast)|].
  intros v v' [_ H]. by apply H.
Qed.

Lemma normalize_data_constant_column_witness :
  let scaler : gmap string (gmap string Q) :=
    {[ "fy"%string := {[ "min"%string := 314; "max"%string := 314 ]} ]} in
  ∃ values values',
    [[314; 400]] !! 0%nat = Some values
    ∧ [[0; 86]] !! 0%nat = Some values'
    ∧ Forall2 (λ v v', v' == v - 314) values values'.
Proof.
  apply (normalize_data_constant_column (λ v, v) [[314; 400]] ["fy"]%string
           {[ "fy"%string := {[ "min"%string := 314; "max"%string := 314 ]} ]}
           [[0; 86]] 0 "fy"
           {[ "min"%string := 314; "max"%string := 314 ]} 314 314).
  - intros v. reflexivity.
  - vm_compute. reflexivity.
  - reflexivity.
  - reflexivity.
  - reflexivity.
  - reflexivity.
  - reflexivity.
Defined.

Lemma normalize_loop_raise (cast : Q → Q) (data : list (list Q))
    (scaler_dict : gmap string (gmap string Q)) (columns : list string) :
  ∀ (i : nat) (acc : list (list Q)) (e : exn),
    Training.normalize_loop cast data scaler_dict i columns acc = Raise e →
    ∃ j col entry,
      columns !! j = Some col ∧ scaler_dict !! col = Some entry
      ∧ ((entry !! "min"%string = None ∧ e = KeyError "min")
         ∨ (is_Some (entry !! "min"%string) ∧ entry !! "max"%string = None
            ∧ e = KeyError "max")
         ∨ (is_Some (entry !! "min"%string) ∧ is_Some (entry !! "max"%string)
            ∧ (length data ≤ i + j)%nat ∧ e = Training.IndexError)).
Proof.
  induction columns as [|col columns IH]; intros i acc e; [discriminate|].
  cbn [Training.normalize_loop].
  assert (Hrest : ∀ acc', Training.normalize_loop cast data scaler_dict (S i) columns acc'
                          = Raise e →
            ∃ j col0 entry,
              (col :: columns) !! j = Some col0 ∧ scaler_dict !! col0 = Some entry
              ∧ ((entry !! "min"%string = None ∧ e = KeyError "min")
                 ∨ (is_Some (entry !! "min"%string)
                    ∧ entry !! "max"%string = None ∧ e = KeyError "max")
                 ∨ (is_Some (entry !! "min"%string)
                    ∧ is_Some (entry !! "max"%string)
                    ∧ (length data ≤ i + j)%nat ∧ e = Training.IndexError))).
  { intros acc' Hloop. apply IH in Hloop as (j & col0 & entry & Hj & He & Hcases).
    exists (S j), col0, entry. split; [exact Hj|]. split; [exact He|].
    replace (i + S j)%nat with (S i + j)%nat by lia. exact Hcases. }
  case_bool_decide as Hin; [|apply Hrest].
  destruct Hin as [entry Hentry]. unfold Py.getitem. rewrite Hentry.
  cbn [mbind result_bind].
  destruct (entry !! "min"%string) as [mn|] eqn:Hmn; cbn [mbind result_bind].
  - destruct (entry !! "max"%string) as [mx|] eqn:Hmx; cbn [mbind result_bind].
    + unfold Training.column.
      destruct (data !! i) as [values|] eqn:Hdata; cbn [mbind result_bind];
        [apply Hrest|].
      intros [= <-]. exists 0%nat, col, entry. split; [reflexivity|].
      split; [exact Hentry|]. right. right.
      rewrite Hmn, Hmx. split; [by eexists|]. split; [by eexists|].
      split; [|reflexivity]. apply lookup_ge_None in Hdata. lia.
    + intros [= <-]. exists 0%nat, col, entry. split; [reflexivity|].
      split; [exact Hentry|]. right. left. rewrite Hmn.
      split; [by eexists|]. by split.
  - intros [= <-]. exists 0%nat, col, entry. split; [reflexivity|].
    split; [exact Hentry|]. left. by split.
Qed.

(** How [normalize_data] can fail, and that it fails in no other way: it
    raises only for a named column that the scaler knows, and then
    [KeyError] for a missing [min] or [max], or [IndexError] when the array
    has no column at that position.  It never divides by zero. *)
Theorem normalize_data_failures
    (cast : Q → Q) (data : list (list Q)) (columns : list string)
    (scaler_dict : gmap string (gmap string Q)) (e : exn) :
  Training.normalize_data cast data columns scaler_dict = Raise e →
  e ≠ ZeroDivisionError
  ∧ ∃ j col entry,
      columns !! j = Some col ∧ scaler_dict !! col = Some entry
      ∧ ((entry !! "min"%string = None ∧ e = KeyError "min")
         ∨ (is_Some (entry !! "min"%string) ∧ entry !! "max"%string = None
            ∧ e = KeyError "max")
         ∨ (is_Some (entry !! "min"%string) ∧ is_Some (entry !! "max"%string)
            ∧ (length data ≤ j)%nat ∧ e = Training.IndexError)).
Proof.
  intros Hraise. apply normalize_loop_raise in Hraise
    as (j & col & entry & Hj & He & Hcases).
  split.
  - destruct Hcases as [[_ ->]|[(_ & _ & ->)|(_ & _ & _ & ->)]]; discriminate.
  - exists j, col, entry. split; [exact Hj|]. split; [exact He|].
    exact Hcases.
Qed.

Lemma normalize_data_failures_witness :
  let scaler : gmap string (gmap string Q) :=
    {[ "fc"%string := {[ "min"%string := 20 ]} ]} in
  KeyError "max" ≠ ZeroDivisionError
  ∧ ∃ j col entry,
      ["fc"]%string !! j = Some col ∧ scaler !! col = Some entry
      ∧ ((entry !! "min"%string = None ∧ KeyError "max" = KeyError "min")
         ∨ (is_Some (entry !! "min"%string) ∧ entry !! "max"%string = None
            ∧ KeyError "max" = KeyError "max")
         ∨ (is_Some (entry !! "min"%string) ∧ is_Some (entry !! "max"%string)
            ∧ (length [[25 : Q]] ≤ j)%nat
            ∧ KeyError "max" = Training.IndexError)).
Proof.
  apply (normalize_data_failures (λ v, v) [[25]] ["fc"]%string
           {[ "fc"%string := {[ "min"%string := 20 ]} ]} (KeyError "max")).
  vm_compute. reflexivity.
Defined.

(** When every named column that the scaler knows has both a [min] and a
    [max], and the array has a column for every name, [normalize_data]
    returns. *)
Theorem normalize_data_succeeds
    (cast : Q → Q) (data : list (list Q)) (columns : list string)
    (scaler_dict : gmap string (gmap string Q)) :
  (length columns ≤ length data)%nat →
  (∀ col entry, col ∈ columns → scaler_dict !! col = Some entry →
                is_Some (entry !! "min"%string)
                ∧ is_Some (entry !! "max"%string)) →
  ∃ out, Training.normalize_data cast data columns scaler_dict = Ok out.
Proof.
  intros Hlen Hentries.
  destruct (Training.normalize_data cast data columns scaler_dict) as [out|e] eqn:H;
    [by exists out|].
  apply normalize_loop_raise in H as (j & col & entry & Hj & He & Hcases).
  assert (Hin : col ∈ columns) by (by eapply list_elem_of_lookup_2).
  destruct (Hentries col entry Hin He) as [[mn Hmn] [mx Hmx]].
  pose proof (lookup_lt_Some _ _ _ Hj).
  destruct Hcases as [[Hn _]|[(_ & Hn & _)|(_ & _ & Hn & _)]];
    [congruence|congruence|lia].
Qed.

Lemma normalize_data_succeeds_witness :
  ∃ out,
    Training.normalize_data (λ v, v) [[25; 30]; [314; 400]]
      ["fc"; "fy"]%string
      {[ "fc"%string := {[ "min"%string := 20; "max"%string := 40 ]} ]}
    = Ok out.
Proof.
  apply (normalize_data_succeeds (λ v, v) [[25; 30]; [314; 400]]
           ["fc"; "fy"]%string
           {[ "fc"%string := {[ "min"%string := 20; "max"%string := 40 ]} ]}).
  - simpl. lia.
  - intros col entry _ Hentry.
    destruct (decide (col = "fc"%string)) as [->|Hne].
    + rewrite lookup_singleton_eq in Hentry. injection Hentry as <-.
      split; by eexists.
    + by rewrite lookup_singleton_ne in Hentry.
Defined.

(** The unscaling applied to the predictions undoes the normalisation of a
    column of a float array exactly when the column's [max] differs from
    its [min]; for a constant column the normalised values all unscale to
    [min], whatever they were. *)
Theorem unscale_inverts_normalize_data
    (cast : Q → Q) (data : list (list Q)) (columns : list string)
    (scaler : gmap string (gmap string Q)) (out : list (list Q))
    (j : nat) (col : string) (entry : gmap string Q) (mn mx : Q) :
  (∀ v, cast v == v) →
  Training.normalize_data cast data columns scaler = Ok out →
  columns !! j = Some col → scaler !! col = Some entry →
  entry !! "min"%string = Some mn → entry !! "max"%string = Some mx →
  ∃ values values',
    data !! j = Some values ∧ out !! j = Some values'
    ∧ Forall2 (λ v v', ∃ u, Training.unscale scaler col v' = Ok u
                            ∧ (¬ mx == mn → u == v)
                            ∧ (mx == mn → u == mn))
              values values'.
Proof.
  intros Hcast Hout Hcol Hentry Hmn Hmx.
  destruct (normalize_data_column _ _ _ _ _ _ _ _ _ _ Hout Hcol Hentry Hmn Hmx)
    as (values & Hd & Ho).
  exists values, (Training.normalize_column cast mn mx values).
  split; [exact Hd|]. split; [exact Ho|].
  eapply Forall2_impl; [exact (normalize_column_spec cast mn mx values Hcast)|].
  intros v v' [Hne Heq]. cbn beta.
  unfold Training.unscale, Py.getitem. rewrite Hentry. cbn [mbind result_bind].
  rewrite Hmx, Hmn. cbn [mbind result_bind].
  eexists. split; [reflexivity|].
  rewrite add_spec, mul_spec, sub_spec. split.
  - intros H. rewrite (Hne H). field. lra.
  - intros H. rewrite (Heq H). rewrite H. ring.
Qed.

Lemma unscale_inverts_normalize_data_witness :
  let scaler : gmap string (gmap string Q) :=
    {[ "fc"%string := {[ "min"%string := 20; "max"%string := 40 ]};
       "fy"%string := {[ "min"%string := 314; "max"%string := 314 ]} ]} in
  (∃ values values',
     [[20; 25; 40]; [314; 400]] !! 0%nat = Some values
     ∧ [[0; 1 # 4; 1]; [0; 86]] !! 0%nat = Some values'
     ∧ Forall2 (λ v v', ∃ u, Training.unscale scaler "fc" v' = Ok u
                             ∧ (¬ 40 == 20 → u == v)
                             ∧ (40 == 20 → u == 20))
               values values')
  ∧ (∃ values values',
       [[20; 25; 40]; [314; 400]] !! 1%nat = Some values
       ∧ [[0; 1 # 4; 1]; [0; 86]] !! 1%nat = Some values'
       ∧ Forall2 (λ v v', ∃ u, Training.unscale scaler "fy" v' = Ok u
                               ∧ (¬ 314 == 314 → u == v)
                               ∧ (314 == 314 → u == 314))
                 values values').
Proof.
  split.
  - apply (unscale_inverts_normalize_data (λ v, v)
             [[20; 25; 40]; [314; 400]] ["fc"; "fy"]%string
             {[ "fc"%string := {[ "min"%string := 20; "max"%string := 40 ]};
                "fy"%string := {[ "min"%string := 314; "max"%string := 314 ]} ]}
             [[0; 1 # 4; 1]; [0; 86]] 0 "fc"
             {[ "min"%string := 20; "max"%string := 40 ]} 20 40).
    + intros v. reflexivity.
    + vm_compute. reflexivity.
    + reflexivity.
    + reflexivity.
    + reflexivity.
    + reflexivity.
  - apply (unscale_inverts_normalize_data (λ v, v)
             [[20; 25; 40]; [314; 400]] ["fc"; "fy"]%string
             {[ "fc"%string := {[ "min"%string := 20; "max"%string := 40 ]};
                "fy"%string := {[ "min"%string := 314; "max"%string := 314 ]} ]}
             [[0; 1 # 4; 1]; [0; 86]] 1 "fy"
             {[ "min"%string := 314; "max"%string := 314 ]} 314 314).
    + intros v. reflexivity.
    + vm_compute. reflexivity.
    + reflexivity.
    + reflexivity.
    + reflexivity.
    + reflexivity.
Defined.

(** ** The header search *)

Lemma scan_row_stress (r : nat) (row : list string) :
  ∀ (c : nat) (f : Training.Found),
    (Training.stress_col (Training.scan_row r c row f) = Training.stress_col f
     ∧ Forall (λ val, Training.is_stress_header val = false) row)
    ∨ ∃ k val, row !! k = Some val ∧ Training.is_stress_header val = true
               ∧ Training.stress_col (Training.scan_row r c row f)
                 = Some (c + k)%nat.
Proof.
  induction row as [|val row IH]; intros c f; [by left|].
  cbn [Training.scan_row].
  destruct (IH (S c)
    (if Training.is_stress_header val
     then {| Training.stress_col := Some c;
             Training.strain_col :=
               Training.strain_col
                 (if Training.is_strain_header val
                  then {| Training.stress_col := Training.stress_col f;
                          Training.strain_col := Some c;
                          Training.start_row := Some r |}
                  else f);
             Training.start_row :=
               Training.start_row
                 (if Training.is_strain_header val
                  then {| Training.stress_col := Training.stress_col f;
                          Training.strain_col := Some c;
                          Training.start_row := Some r |}
                  else f) |}
     else if Training.is_strain_header val
          then {| Training.stress_col := Training.stress_col f;
                  Training.strain_col := Some c;
                  Training.start_row := Some r |}
          else f)) as [[Heq Hall]|(k & val' & Hk & Hval & Hres)].
  - destruct (Training.is_stress_header val) eqn:Hs.
    + right. exists 0%nat, val. rewrite Heq, Nat.add_0_r. by split.
    + left. split; [|by constructor]. rewrite Heq.
      by destruct (Training.is_strain_header val).
  - right. exists (S k), val'. rewrite Hres.
    split; [exact Hk|]. split; [exact Hval|]. f_equal. lia.
Qed.

Lemma scan_row_strain (r : nat) (row : list string) :
  ∀ (c : nat) (f : Training.Found),
    (Training.strain_col (Training.scan_row r c row f) = Training.strain_col f
     ∧ Training.start_row (Training.scan_row r c row f) = Training.start_row f
     ∧ Forall (λ val, Training.is_strain_header val = false) row)
    ∨ ∃ k val, row !! k = Some val ∧ Training.is_strain_header val = true
               ∧ Training.strain_col (Training.scan_row r c row f)
                 = Some (c + k)%nat
               ∧ Training.start_row (Training.scan_row r c row f) = Some r.
Proof.
  induction row as [|val row IH]; intros c f; [by left|].
  cbn [Training.scan_row].
  destruct (IH (S c)
    (if Training.is_stress_header val
     then {| Training.stress_col := Some c;
             Training.strain_col :=
               Training.strain_col
                 (if Training.is_strain_header val
                  then {| Training.stress_col := Training.stress_col f;
                          Training.strain_col := Some c;
                          Training.start_row := Some r |}
                  else f);
             Training.start_row :=
               Training.start_row
                 (if Training.is_strain_header val
                  then {| Training.stress_col := Training.stress_col f;
                          Training.strain_col := Some c;
                          Training.start_row := Some r |}
                  else f) |}
     else if Training.is_strain_header val
          then {| Training.stress_col := Training.stress_col f;
                  Training.strain_col := Some c;
                  Training.start_row := Some r |}
          else f)) as [(Hc & Hr & Hall)|(k & val' & Hk & Hval & Hc & Hr)].
  - destruct (Training.is_strain_header val) eqn:Hs.
    + right. exists 0%nat, val. rewrite Hc, Hr, Nat.add_0_r.
      split; [reflexivity|]. split; [exact Hs|].
      by destruct (Training.is_stress_header val).
    + left. rewrite Hc, Hr.
      split; [by destruct (Training.is_stress_header val)|].
      split; [by destruct (Training.is_stress_header val)|by constructor].
  - right. exists (S k), val'. rewrite Hc, Hr.
    split; [exact Hk|]. split; [exact Hval|]. split; [f_equal; lia|reflexivity].
Qed.

Lemma header_at_row (is_header : string → bool) (T : list (list string))
    (r c : nat) (row : list string) :
  T !! r = Some row →
  Forall (λ val, is_header val = false) row →
  ¬ Training.header_at is_header T r c.
Proof.
  intros Hr Hall (row' & val & Hr' & Hc & Hval).
  rewrite Hr in Hr'. injection Hr' as <-.
  apply (Forall_lookup_1 _ _ _ _ Hall) in Hc. congruence.
Qed.

Lemma scan_row_scanned (T : list (list string)) (r : nat) (row : list string)
    (f : Training.Found) :
  T !! r = Some row → Training.scanned T r f →
  Training.scanned T (S r) (Training.scan_row r 0 row f).
Proof.
  intros Hrow [Hstress Hstrain]. split.
  - destruct (scan_row_stress r row 0 f) as [[-> Hall]|(k & val & Hk & Hval & ->)].
    + destruct (Training.stress_col f) as [c|].
      * destruct Hstress as (r' & Hr' & Hat). exists r'. split; [lia|exact Hat].
      * intros r' c Hr'. destruct (decide (r' = r)) as [->|Hne].
        -- by eapply header_at_row.
        -- apply Hstress. lia.
    + exists r. split; [lia|]. by exists row, val.
  - destruct (scan_row_strain r row 0 f)
      as [(-> & -> & Hall)|(k & val & Hk & Hval & -> & ->)].
    + destruct (Training.strain_col f) as [c|].
      * destruct Hstrain as (r' & Hsr & Hr' & Hat). exists r'.
        split; [exact Hsr|]. split; [lia|exact Hat].
      * destruct Hstrain as [Hsr Hnone]. split; [exact Hsr|].
        intros r' c Hr'. destruct (decide (r' = r)) as [->|Hne].
        -- by eapply header_at_row.
        -- apply Hnone. lia.
    + exists r. split; [reflexivity|]. split; [lia|]. by exists row, val.
Qed.

Lemma scan_rows_scanned (T : list (list string)) :
  ∀ (rest pre : list (list string)) (f : Training.Found),
    T = pre ++ rest → Training.scanned T (length pre) f →
    let f' := Training.scan_rows (length pre) rest f in
    ∃ n, (n ≤ length T)%nat ∧ Training.scanned T n f'
         ∧ (n = length T
            ∨ (is_Some (Training.stress_col f')
               ∧ is_Some (Training.strain_col f'))).
Proof.
  induction rest as [|row rest IH]; intros pre f HT Hsc; cbn zeta.
  { exists (length pre). rewrite app_nil_r in HT. subst T.
    split; [lia|]. split; [exact Hsc|by left]. }
  cbn [Training.scan_rows].
  assert (Hrow : T !! length pre = Some row).
  { subst T. by rewrite list_lookup_middle. }
  pose proof (scan_row_scanned T (length pre) row f Hrow Hsc) as Hsc'.
  case_bool_decide as Hboth.
  - exists (S (length pre)). split.
    + apply lookup_lt_Some in Hrow. lia.
    + split; [exact Hsc'|by right].
  - specialize (IH (pre ++ [row])
                  (Training.scan_row (length pre) 0 row f)).
    rewrite length_app, Nat.add_1_r in IH. apply IH; [|exact Hsc'].
    by rewrite <- app_assoc.
Qed.

Section HeaderFacts.

Variable cell : Type.
Variable str_lower : cell → string.

Local Abbreviation df_str_of df_raw :=
  ((λ row : list cell, str_lower <$> row) <$> df_raw).

Lemma header_at_take (is_header : string → bool) (df_raw : list (list cell))
    (r c : nat) :
  Training.header_at is_header
    (take (Nat.min 20 (length df_raw)) (df_str_of df_raw)) r c
  ↔ (r < 20)%nat ∧ Training.header_cell cell str_lower is_header df_raw r c.
Proof.
  unfold Training.header_at, Training.header_cell. split.
  - intros (row & val & Hr & Hc & Hval).
    apply lookup_take_Some in Hr as [Hr Hlt].
    rewrite list_lookup_fmap in Hr.
    destruct (df_raw !! r) as [row0|] eqn:Hrow; [|discriminate].
    injection Hr as <-. rewrite list_lookup_fmap in Hc.
    destruct (row0 !! c) as [x|] eqn:Hx; [|discriminate].
    injection Hc as <-. split; [lia|]. by exists row0, x.
  - intros (Hlt & row0 & x & Hrow & Hx & Hval).
    exists (str_lower <$> row0), (str_lower x). split; [|split].
    + apply lookup_take_Some. split.
      * by rewrite list_lookup_fmap, Hrow.
      * apply lookup_lt_Some in Hrow. lia.
    + by rewrite list_lookup_fmap, Hx.
    + exact Hval.
Qed.

(** The outcome of the header search in terms of the sheet. *)
Lemma get_columns_by_header_spec (df_raw : list (list cell))
    (sc nc sr : option nat) :
  Training.get_columns_by_header cell str_lower df_raw = (sc, nc, sr) →
  match sc with
  | Some c => ∃ r, (r < 20)%nat
                   ∧ Training.header_cell cell str_lower
                       Training.is_stress_header df_raw r c
  | None => ∀ r c, (r < 20)%nat →
                   ¬ Training.header_cell cell str_lower
                       Training.is_stress_header df_raw r c
  end
  ∧ match nc with
    | Some c => ∃ r, sr = Some r ∧ (r < 20)%nat
                     ∧ Training.header_cell cell str_lower
                         Training.is_strain_header df_raw r c
    | None => sr = None
              ∧ ∀ r c, (r < 20)%nat →
                       ¬ Training.header_cell cell str_lower
                           Training.is_strain_header df_raw r c
    end.
Proof.
  unfold Training.get_columns_by_header. cbv zeta.
  set (T := take (Nat.min 20 (length df_raw)) (df_str_of df_raw)).
  set (init := {| Training.stress_col := None; Training.strain_col := None;
                  Training.start_row := None |}).
  destruct (scan_rows_scanned T T [] init eq_refl) as (n & Hn & [Hs Hn'] & Hend).
  { split; [intros r c Hr; simpl in Hr; lia|].
    split; [reflexivity|intros r c Hr; simpl in Hr; lia]. }
  cbn [length] in *.
  set (f' := Training.scan_rows 0 T init) in *.
  intros Heq.
  assert (Hsc : sc = Training.stress_col f') by congruence.
  assert (Hnc : nc = Training.strain_col f') by congruence.
  assert (Hsr : sr = Training.start_row f') by congruence.
  clear Heq. subst sc nc sr.
  assert (Hfull : Training.stress_col f' = None ∨ Training.strain_col f' = None →
                  n = length T).
  { intros Hnone. destruct Hend as [->|[[c1 H1] [c2 H2]]]; [reflexivity|].
    destruct Hnone; congruence. }
  assert (Hcover : ∀ is_header r c, n = length T →
            Training.header_at is_header T r c → (r < n)%nat).
  { intros is_header r c -> (row & _ & Hr & _). by eapply lookup_lt_Some. }
  split.
  - destruct (Training.stress_col f') as [c|] eqn:Hc.
    + destruct Hs as (r & _ & Hat). exists r. by apply header_at_take.
    + intros r c Hr Hcell. apply (Hs r c).
      * eapply Hcover; [by apply Hfull; left|]. apply header_at_take. by split.
      * apply header_at_take. by split.
  - destruct (Training.strain_col f') as [c|] eqn:Hc.
    + destruct Hn' as (r & Hsr & _ & Hat). exists r. split; [exact Hsr|].
      by apply header_at_take.
    + destruct Hn' as [Hsr Hnone]. split; [exact Hsr|].
      intros r c Hr Hcell. apply (Hnone r c).
      * eapply Hcover; [by apply Hfull; right|]. apply header_at_take. by split.
      * apply header_at_take. by split.
Qed.

End HeaderFacts.

(** What [get_columns_by_header] returns points at headers: the stress
    column is a column of one of the first 20 rows whose lower-cased cell
    contains "stress", "sigma" or the Greek letter; the strain column comes
    with its row, [start_row], where the cell contains "inelastic" or
    "cracking"; and the strain column and the start row are found together
    or not at all. *)
Theorem header_search_points_at_headers
    (cell : Type) (str_lower : cell → string) (df_raw : list (list cell))
    (sc nc sr : option nat) :
  Training.get_columns_by_header cell str_lower df_raw = (sc, nc, sr) →
  (∀ c, sc = Some c →
        ∃ r, (r < 20)%nat
             ∧ Training.header_cell cell str_lower
                 Training.is_stress_header df_raw r c)
  ∧ (∀ c, nc = Some c →
          ∃ r, sr = Some r ∧ (r < 20)%nat ∧ (r < length df_raw)%nat
               ∧ Training.header_cell cell str_lower
                   Training.is_strain_header df_raw r c)
  ∧ (nc = None ↔ sr = None).
Proof.
  intros Hget. apply get_columns_by_header_spec in Hget as [Hs Hn].
  split; [|split].
  - intros c ->. exact Hs.
  - intros c ->. destruct Hn as (r & Hsr & Hr & Hcell).
    exists r. split; [exact Hsr|]. split; [exact Hr|]. split; [|exact Hcell].
    destruct Hcell as (row & x & Hrow & _). by eapply lookup_lt_Some.
  - destruct nc as [c|].
    + destruct Hn as (r & -> & _). split; discriminate.
    + destruct Hn as [-> _]. done.
Qed.

Lemma header_search_points_at_headers_witness :
  let df := [["material"; "grade 25"];
             ["yield stress"; "inelastic strain"];
             ["10"; "0.001"]]%string in
  (∀ c, Some 0%nat = Some c →
        ∃ r, (r < 20)%nat
             ∧ Training.header_cell string id Training.is_stress_header df r c)
  ∧ (∀ c, Some 1%nat = Some c →
          ∃ r, Some 1%nat = Some r ∧ (r < 20)%nat ∧ (r < length df)%nat
               ∧ Training.header_cell string id
                   Training.is_strain_header df r c)
  ∧ (Some 1%nat = None ↔ Some 1%nat = None).
Proof.
  apply (header_search_points_at_headers string id
           [["material"; "grade 25"];
            ["yield stress"; "inelastic strain"];
            ["10"; "0.001"]]%string (Some 0%nat) (Some 1%nat) (Some 1%nat)).
  vm_compute. reflexivity.
Defined.

(** The header search finds a column exactly when one of the first 20 rows
    has a header of that kind; rows from the twenty-first on are never
    looked at. *)
Theorem header_search_reads_first_20_rows
    (cell : Type) (str_lower : cell → string) (df_raw : list (list cell))
    (sc nc sr : option nat) :
  Training.get_columns_by_header cell str_lower df_raw = (sc, nc, sr) →
  (is_Some sc ↔ ∃ r c, (r < 20)%nat
                       ∧ Training.header_cell cell str_lower
                           Training.is_stress_header df_raw r c)
  ∧ (is_Some nc ↔ ∃ r c, (r < 20)%nat
                         ∧ Training.header_cell cell str_lower
                             Training.is_strain_header df_raw r c)
  ∧ Training.get_columns_by_header cell str_lower (take 20 df_raw)
    = (sc, nc, sr).
Proof.
  intros Hget. split; [|split].
  - apply get_columns_by_header_spec in Hget as [Hs _]. destruct sc as [c|].
    + split; [|by eexists]. intros _. destruct Hs as (r & Hr & Hcell).
      by exists r, c.
    + split; [by intros [c Hc]|]. intros (r & c & Hr & Hcell).
      by destruct (Hs r c Hr).
  - apply get_columns_by_header_spec in Hget as [_ Hn]. destruct nc as [c|].
    + split; [|by eexists]. intros _. destruct Hn as (r & _ & Hr & Hcell).
      by exists r, c.
    + split; [by intros [c Hc]|]. intros (r & c & Hr & Hcell).
      destruct Hn as [_ Hn]. by destruct (Hn r c Hr).
  - rewrite <- Hget. unfold Training.get_columns_by_header. cbv zeta.
    assert (HT : take (Nat.min 20 (length (take 20 df_raw)))
                   ((λ row : list cell, str_lower <$> row) <$> take 20 df_raw)
                 = take (Nat.min 20 (length df_raw))
                     ((λ row : list cell, str_lower <$> row) <$> df_raw)).
    { rewrite fmap_take, take_take, length_take. f_equal. lia. }
    by rewrite HT.
Qed.

Lemma header_search_reads_first_20_rows_witness :
  let df := replicate 20 ["material"; "grade 25"]%string
            ++ [["yield stress"; "inelastic strain"]]%string in
  (is_Some (@None nat)
   ↔ ∃ r c, (r < 20)%nat
            ∧ Training.header_cell string id Training.is_stress_header df r c)
  ∧ (is_Some (@None nat)
     ↔ ∃ r c, (r < 20)%nat
              ∧ Training.header_cell string id Training.is_strain_header df r c)
  ∧ Training.get_columns_by_header string id (take 20 df) = (None, None, None).
Proof.
  apply (header_search_reads_first_20_rows string id
           (replicate 20 ["material"; "grade 25"]%string
            ++ [["yield stress"; "inelastic strain"]]%string)
           None None None).
  vm_compute. reflexivity.
Defined.

(** ** The material curves *)

Lemma zip_with_pairs {A B C D : Type} (g : B → C → D) (f : A → C)
    (data : list (A * B)) :
  zip_with g (snd <$> data) (f <$> (fst <$> data))
  = (λ p, g p.2 (f p.1)) <$> data.
Proof. induction data as [|[a b] data IH]; [done|]. csimpl. by rewrite IH. Qed.

Lemma np_abs_spec (a : Q) : Training.np_abs a == Qabs a.
Proof. unfold Training.np_abs. apply Qred_correct. Qed.

Lemma np_neg_spec (a : Q) : Training.np_neg a == - a.
Proof. unfold Training.np_neg. apply Qred_correct. Qed.

Lemma tension_point (s e : Q) :
  Training.np_abs s == Qabs s
  ∧ (Training.np_abs e
     + Training.np_truediv (Training.np_abs (Training.np_abs s))
         Training.E_conc)%py
    == Qabs e + Qabs s * (1 # 25000).
Proof.
  split; [apply np_abs_spec|].
  rewrite add_spec. unfold Training.np_truediv. rewrite Qred_correct.
  rewrite (np_abs_spec e), (np_abs_spec (Training.np_abs s)).
  rewrite (Qabs_wd _ _ (np_abs_spec s)).
  rewrite (Qabs_pos (Qabs s)) by apply Qabs_nonneg.
  unfold Training.E_conc. field.
Qed.

Lemma compression_point (s e : Q) :
  Training.np_neg (Training.np_abs s) == - Qabs s
  ∧ Training.np_neg
      (Training.np_abs e
       + Training.np_truediv
           (Training.np_abs (Training.np_neg (Training.np_abs s)))
           Training.E_conc)%py
    == - (Qabs e + Qabs s * (1 # 25000)).
Proof.
  assert (H1 : Training.np_neg (Training.np_abs s) == - Qabs s).
  { by rewrite np_neg_spec, np_abs_spec. }
  split; [exact H1|].
  rewrite np_neg_spec, add_spec. unfold Training.np_truediv.
  rewrite Qred_correct.
  rewrite (np_abs_spec e), (np_abs_spec (Training.np_neg (Training.np_abs s))).
  rewrite (Qabs_wd _ _ H1), Qabs_opp.
  rewrite (Qabs_pos (Qabs s)) by apply Qabs_nonneg.
  unfold Training.E_conc. field.
Qed.

Section CurveFacts.

Variable cell : Type.
Variable str_lower : cell → string.
Variable to_numeric : cell → option Q.

Local Abbreviation extract :=
  (Training.extract_clean_cdp_data cell str_lower to_numeric).
Local Abbreviation block := (Training.numeric_block cell str_lower to_numeric).

Lemma extract_inv (df_raw : list (list cell)) (type : string)
    (strain stress : list Q) :
  extract df_raw type = Ok (strain, stress) →
  ∃ data, block df_raw = Ok data
    ∧ length strain = length data ∧ length stress = length data
    ∧ if String.eqb type "comp"
      then Forall2 (λ (p : Q * Q) s, s == - Qabs p.1) data stress
           ∧ Forall2 (λ (p : Q * Q) e,
                        e == - (Qabs p.2 + Qabs p.1 * (1 # 25000)))
                     data strain
      else Forall2 (λ (p : Q * Q) s, s == Qabs p.1) data stress
           ∧ Forall2 (λ (p : Q * Q) e,
                        e == Qabs p.2 + Qabs p.1 * (1 # 25000))
                     data strain.
Proof.
  unfold Training.extract_clean_cdp_data.
  destruct (block df_raw) as [data|e]; [|discriminate].
  cbn [mbind result_bind]. intros H. exists data. split; [reflexivity|].
  destruct (String.eqb type "comp").
  - injection H as <- <-. rewrite zip_with_pairs, <- list_fmap_compose.
    rewrite !length_fmap. split; [reflexivity|]. split; [reflexivity|].
    split; apply Forall2_fmap_r, Forall_Forall2_diag, Forall_forall;
      intros [s e] _; cbn [fst snd compose].
    + apply (proj1 (compression_point s e)).
    + apply (proj2 (compression_point s e)).
  - injection H as <- <-. rewrite zip_with_pairs, <- list_fmap_compose.
    rewrite !length_fmap. split; [reflexivity|]. split; [reflexivity|].
    split; apply Forall2_fmap_r, Forall_Forall2_diag, Forall_forall;
      intros [s e] _; cbn [fst snd compose].
    + apply (proj1 (tension_point s e)).
    + apply (proj2 (tension_point s e)).
Qed.

Lemma extract_raise (df_raw : list (list cell)) (type : string) (e : exn) :
  extract df_raw type = Raise e ↔ block df_raw = Raise e.
Proof.
  unfold Training.extract_clean_cdp_data.
  destruct (block df_raw) as [data|e']; cbn [mbind result_bind].
  - destruct (String.eqb type "comp"); split; discriminate.
  - split; by intros [= ->].
Qed.

Lemma extract_signs (df_raw : list (list cell)) (type : string)
    (strain stress : list Q) :
  extract df_raw type = Ok (strain, stress) →
  length strain = length stress
  ∧ (∃ data, block df_raw = Ok data
             ∧ Forall2 (λ (p : Q * Q) s, Qabs s == Qabs p.1) data stress
             ∧ Forall2 (λ (p : Q * Q) e, Qabs p.2 <= Qabs e) data strain)
  ∧ (if String.eqb type "comp"
     then Forall (λ s, s <= 0) stress ∧ Forall (λ e, e <= 0) strain
     else Forall (λ s, 0 <= s) stress ∧ Forall (λ e, 0 <= e) strain).
Proof.
  intros Hex. apply extract_inv in Hex as (data & Hdata & Hl1 & Hl2 & Hcases).
  split; [congruence|].
  assert (Habs : ∀ p : Q * Q, 0 <= Qabs p.1 ∧ 0 <= Qabs p.2)
    by (intros p; split; apply Qabs_nonneg).
  destruct (String.eqb type "comp"); destruct Hcases as [Hs He]; split.
  - exists data. split; [exact Hdata|]. split.
    + eapply Forall2_impl; [exact Hs|]. cbn beta. intros p s Hsv.
      rewrite (Qabs_wd _ _ Hsv), Qabs_opp. destruct (Habs p).
      by apply Qabs_pos.
    + eapply Forall2_impl; [exact He|]. cbn beta. intros p e Hev.
      rewrite (Qabs_wd _ _ Hev), Qabs_opp. destruct (Habs p).
      rewrite (Qabs_pos (Qabs p.2 + Qabs p.1 * (1 # 25000))) by lra. lra.
  - split.
    + apply Forall_forall. intros s Hin.
      apply list_elem_of_lookup in Hin as [i Hi].
      destruct (Forall2_lookup_r _ _ _ _ _ Hs Hi) as (p & _ & ->).
      destruct (Habs p). lra.
    + apply Forall_forall. intros e Hin.
      apply list_elem_of_lookup in Hin as [i Hi].
      destruct (Forall2_lookup_r _ _ _ _ _ He Hi) as (p & _ & ->).
      destruct (Habs p). lra.
  - exists data. split; [exact Hdata|]. split.
    + eapply Forall2_impl; [exact Hs|]. cbn beta. intros p s Hsv.
      rewrite (Qabs_wd _ _ Hsv). destruct (Habs p). by apply Qabs_pos.
    + eapply Forall2_impl; [exact He|]. cbn beta. intros p e Hev.
      rewrite (Qabs_wd _ _ Hev). destruct (Habs p).
      rewrite (Qabs_pos (Qabs p.2 + Qabs p.1 * (1 # 25000))) by lra. lra.
  - split.
    + apply Forall_forall. intros s Hin.
      apply list_elem_of_lookup in Hin as [i Hi].
      destruct (Forall2_lookup_r _ _ _ _ _ Hs Hi) as (p & _ & ->).
      destruct (Habs p). lra.
    + apply Forall_forall. intros e Hin.
      apply list_elem_of_lookup in Hin as [i Hi].
      destruct (Forall2_lookup_r _ _ _ _ _ He Hi) as (p & _ & ->).
      destruct (Habs p). lra.
Qed.

End CurveFacts.

Lemma Forall2_join {A B C : Type} (P : A → B → Prop) (Q' : A → C → Prop)
    (R : B → C → Prop) (data : list A) (l1 : list B) (l2 : list C) :
  (∀ p a b, P p a → Q' p b → R a b) →
  Forall2 P data l1 → Forall2 Q' data l2 → Forall2 R l1 l2.
Proof.
  intros HR H1. revert l2. induction H1 as [|p a data l1 Hp H1 IH]; intros l2 H2.
  - apply Forall2_nil_inv_l in H2 as ->. constructor.
  - apply Forall2_cons_inv_l in H2 as (b & l2' & Hq & H2 & ->).
    constructor; [by eapply HR|by apply IH].
Qed.

(** [extract_clean_cdp_data] returns exactly when the first 20 rows of the
    sheet hold both a stress header and a strain header.  Without a strain
    header it fails on [start_row + 1] with a [TypeError]; with a strain
    header and no stress header it fails in [iloc] with an [IndexError]. *)
Theorem cdp_extraction_needs_both_headers
    (cell : Type) (str_lower : cell → string) (to_numeric : cell → option Q)
    (df_raw : list (list cell)) (type : string) :
  let has_header is_header :=
    ∃ r c, (r < 20)%nat
           ∧ Training.header_cell cell str_lower is_header df_raw r c in
  match Training.extract_clean_cdp_data cell str_lower to_numeric df_raw type with
  | Ok _ =>
    has_header Training.is_stress_header ∧ has_header Training.is_strain_header
  | Raise e =>
    (¬ has_header Training.is_strain_header ∧ e = Training.TypeError)
    ∨ (has_header Training.is_strain_header
       ∧ ¬ has_header Training.is_stress_header
       ∧ e = Training.IndexError)
  end.
Proof.
  cbv zeta.
  destruct (Training.get_columns_by_header cell str_lower df_raw)
    as [[sc nc] sr] eqn:Hget.
  pose proof (get_columns_by_header_spec _ _ _ _ _ _ Hget) as [Hs Hn].
  assert (Hblock : Training.numeric_block cell str_lower to_numeric df_raw
            = match sr with
              | None => Raise Training.TypeError
              | Some r =>
                match sc, nc with
                | Some cs, Some cn =>
                  Ok (omap (Training.numeric_row cell to_numeric cs cn)
                        (drop (r + 1) df_raw))
                | _, _ => Raise Training.IndexError
                end
              end).
  { unfold Training.numeric_block. by rewrite Hget. }
  destruct (Training.extract_clean_cdp_data cell str_lower to_numeric df_raw type)
    as [[strain stress]|e] eqn:Hex.
  - apply extract_inv in Hex as (data & Hdata & _). rewrite Hblock in Hdata.
    destruct sr as [r|]; [|discriminate].
    destruct sc as [cs|]; [|discriminate].
    destruct nc as [cn|]; [|discriminate].
    destruct Hs as (r1 & Hr1 & Hc1). destruct Hn as (r2 & _ & Hr2 & Hc2).
    split; [by exists r1, cs|by exists r2, cn].
  - apply extract_raise in Hex. rewrite Hblock in Hex.
    destruct nc as [cn|].
    + destruct Hn as (r2 & -> & Hr2 & Hc2). right.
      split; [by exists r2, cn|].
      destruct sc as [cs|]; [discriminate|]. injection Hex as <-.
      split; [|reflexivity]. intros (r & c & Hr & Hc). by destruct (Hs r c Hr).
    + destruct Hn as [-> Hnone]. injection Hex as <-. left.
      split; [|reflexivity]. intros (r & c & Hr & Hc).
      by destruct (Hnone r c Hr).
Qed.

(** The sign convention of the curves: the two arrays returned have the
    same length, one point for each row of the sheet below the header row
    that holds two numbers; for type 'comp' every stress and every strain
    is at most zero, for any other type every stress and every strain is at
    least zero; a stress keeps the size of the number read from the sheet,
    and a strain is never smaller in size than the inelastic strain read
    from the sheet. *)
Theorem cdp_curve_sign_convention
    (cell : Type) (str_lower : cell → string) (to_numeric : cell → option Q)
    (df_raw : list (list cell)) (type : string) (strain stress : list Q) :
  Training.extract_clean_cdp_data cell str_lower to_numeric df_raw type
  = Ok (strain, stress) →
  length strain = length stress
  ∧ (∃ data, Training.numeric_block cell str_lower to_numeric df_raw = Ok data
             ∧ Forall2 (λ (p : Q * Q) s, Qabs s == Qabs p.1) data stress
             ∧ Forall2 (λ (p : Q * Q) e, Qabs p.2 <= Qabs e) data strain)
  ∧ (type = "comp"%string →
     Forall (λ s, s <= 0) stress ∧ Forall (λ e, e <= 0) strain)
  ∧ (type ≠ "comp"%string →
     Forall (λ s, 0 <= s) stress ∧ Forall (λ e, 0 <= e) strain).
Proof.
  intros Hex. apply extract_signs in Hex as (Hlen & Hdata & Hsign).
  split; [exact Hlen|]. split; [exact Hdata|].
  destruct (String.eqb_spec type "comp") as [->|Hne]; split; done.
Qed.

Lemma cdp_curve_sign_convention_witness :
  ∃ strain stress,
    Training.extract_clean_cdp_data (string * option Q) fst snd
      example_sheet "comp" = Ok (strain, stress)
    ∧ length strain = length stress
    ∧ (∃ data, Training.numeric_block (string * option Q) fst snd example_sheet
               = Ok data
               ∧ Forall2 (λ (p : Q * Q) s, Qabs s == Qabs p.1) data stress
               ∧ Forall2 (λ (p : Q * Q) e, Qabs p.2 <= Qabs e) data strain)
    ∧ ("comp"%string = "comp"%string →
       Forall (λ s, s <= 0) stress ∧ Forall (λ e, e <= 0) strain)
    ∧ ("comp"%string ≠ "comp"%string →
       Forall (λ s, 0 <= s) stress ∧ Forall (λ e, 0 <= e) strain).
Proof.
  eexists _, _. split; [vm_compute; reflexivity|].
  apply (cdp_curve_sign_convention (string * option Q) fst snd
           example_sheet "comp").
  vm_compute. reflexivity.
Defined.

(** Read from one sheet, the compression curve is the tension curve turned
    about the origin: any type other than 'comp' takes the tension branch,
    and type 'comp' then returns, point for point, the negated strains and
    the negated stresses. *)
Theorem compression_mirrors_tension
    (cell : Type) (str_lower : cell → string) (to_numeric : cell → option Q)
    (df_raw : list (list cell)) (type : string) (strain stress : list Q) :
  type ≠ "comp"%string →
  Training.extract_clean_cdp_data cell str_lower to_numeric df_raw type
  = Ok (strain, stress) →
  ∃ comp_strain comp_stress,
    Training.extract_clean_cdp_data cell str_lower to_numeric df_raw "comp"
    = Ok (comp_strain, comp_stress)
    ∧ Forall2 (λ c t, c == - t) comp_strain strain
    ∧ Forall2 (λ c t, c == - t) comp_stress stress.
Proof.
  intros Hne Hex.
  apply extract_inv in Hex as (data & Hdata & _ & _ & Hcases).
  apply String.eqb_neq in Hne. rewrite Hne in Hcases.
  destruct Hcases as [Hs He].
  destruct (Training.extract_clean_cdp_data cell str_lower to_numeric
              df_raw "comp") as [[cstrain cstress]|e] eqn:Hcomp.
  - exists cstrain, cstress. split; [reflexivity|].
    apply extract_inv in Hcomp as (data' & Hdata' & _ & _ & Hcs & Hce).
    rewrite Hdata in Hdata'. injection Hdata' as <-. split.
    + eapply (Forall2_join _ _ _ data); [|exact Hce|exact He].
      cbn beta. intros p a b -> ->. reflexivity.
    + eapply (Forall2_join _ _ _ data); [|exact Hcs|exact Hs].
      cbn beta. intros p a b -> ->. reflexivity.
  - apply extract_raise in Hcomp. congruence.
Qed.

Lemma compression_mirrors_tension_witness :
  ∃ strain stress comp_strain comp_stress,
    Training.extract_clean_cdp_data (string * option Q) fst snd
      example_sheet "tens" = Ok (strain, stress)
    ∧ Training.extract_clean_cdp_data (string * option Q) fst snd
        example_sheet "comp" = Ok (comp_strain, comp_stress)
    ∧ Forall2 (λ c t, c == - t) comp_strain strain
    ∧ Forall2 (λ c t, c == - t) comp_stress stress.
Proof.
  eexists _, _.
  destruct (compression_mirrors_tension (string * option Q) fst snd
              example_sheet "tens" _ _ ltac:(discriminate) eq_refl)
    as (cstrain & cstress & Hcomp & H1 & H2).
  exists cstrain, cstress. split; [reflexivity|]. split; [exact Hcomp|].
  split; [exact H1|exact H2].
Defined.

(** The joined curve handed to the interpolation: the strain and stress
    arrays have the same length; they pass through the origin at the index
    where the (non-empty) compression branch ends; before it strains and
    stresses are at most zero, after it at least zero; and the reference
    strength FC_REF_FILE is the size of the largest compressive stress,
    which the branch attains. *)
Theorem full_curve_passes_through_origin
    (cell : Type) (str_lower : cell → string) (to_numeric : cell → option Q)
    (df_comp_raw df_tens_raw : list (list cell))
    (FC_REF_FILE : Q) (full_strain full_stress : list Q) :
  Training.full_curve cell str_lower to_numeric df_comp_raw df_tens_raw
  = Ok (FC_REF_FILE, full_strain, full_stress) →
  length full_strain = length full_stress
  ∧ ∃ n, (0 < n)%nat
         ∧ full_strain !! n = Some 0 ∧ full_stress !! n = Some 0
         ∧ Forall (λ e, e <= 0) (take n full_strain)
         ∧ Forall (λ s, - FC_REF_FILE <= s ∧ s <= 0) (take n full_stress)
         ∧ Exists (λ s, s == - FC_REF_FILE) (take n full_stress)
         ∧ Forall (λ e, 0 <= e) (drop (S n) full_strain)
         ∧ Forall (λ s, 0 <= s) (drop (S n) full_stress).
Proof.
  unfold Training.full_curve.
  destruct (Training.extract_clean_cdp_data cell str_lower to_numeric
              df_comp_raw "comp") as [[cstrain cstress]|e] eqn:Hcomp;
    [|discriminate].
  cbn [mbind result_bind].
  destruct (Training.extract_clean_cdp_data cell str_lower to_numeric
              df_tens_raw "tens") as [[tstrain tstress]|e] eqn:Htens;
    [|discriminate].
  cbn [mbind result_bind fst snd].
  destruct (Py.np_max (Training.np_abs <$> cstress)) as [fc|e] eqn:Hmax;
    [|discriminate].
  cbn [mbind result_bind]. intros [= <- <- <-].
  apply extract_signs in Hcomp as (Hclen & _ & Hcs & Hce).
  apply extract_signs in Htens as (Htlen & _ & Hts & Hte).
  cbn [String.eqb Ascii.eqb Bool.eqb andb] in Hts, Hte.
  apply np_max_spec in Hmax as [Hin Hub].
  apply list_elem_of_fmap in Hin as (s0 & Hfc & Hs0).
  assert (Hneg : ∀ s, s ∈ cstress → s <= 0 ∧ Qabs s == - s).
  { intros s Hs. pose proof (proj1 (Forall_forall _ _) Hcs s Hs) as Hle.
    split; [exact Hle|by apply Qabs_neg]. }
  split.
  { rewrite !length_app, !length_reverse. cbn [length]. lia. }
  exists (length cstress).
  assert (Hr1 : length (reverse cstrain) = length cstress)
    by (by rewrite length_reverse).
  assert (Hr2 : length (reverse cstress) = length cstress)
    by (by rewrite length_reverse).
  split; [|split; [|split; [|split; [|split; [|split; [|split]]]]]].
  - destruct cstress; [by apply elem_of_nil in Hs0|simpl; lia].
  - rewrite lookup_app_r by lia. by rewrite Hr1, Nat.sub_diag.
  - rewrite lookup_app_r by lia. by rewrite Hr2, Nat.sub_diag.
  - rewrite take_app_length' by (symmetry; exact Hr1). by apply Forall_reverse.
  - rewrite take_app_length' by (symmetry; exact Hr2). apply Forall_reverse.
    apply Forall_forall. intros s Hs. destruct (Hneg s Hs) as [Hle Habs].
    split; [|exact Hle].
    assert (Hb : Training.np_abs s <= fc).
    { apply (proj1 (Forall_forall _ _) Hub). by apply list_elem_of_fmap_2. }
    rewrite np_abs_spec, Habs in Hb. lra.
  - rewrite take_app_length' by (symmetry; exact Hr2). apply Exists_exists.
    exists s0. split; [by apply elem_of_reverse|].
    destruct (Hneg s0 Hs0) as [_ Habs].
    rewrite Hfc, np_abs_spec, Habs. ring.
  - rewrite (cons_middle 0), app_assoc.
    rewrite drop_app_length' by (rewrite length_app, Hr1; simpl; lia).
    exact Hte.
  - rewrite (cons_middle 0), app_assoc.
    rewrite drop_app_length' by (rewrite length_app, Hr2; simpl; lia).
    exact Hts.
Qed.

Lemma full_curve_passes_through_origin_witness :
  ∃ FC_REF_FILE full_strain full_stress,
    Training.full_curve (string * option Q) fst snd example_sheet example_sheet
    = Ok (FC_REF_FILE, full_strain, full_stress)
    ∧ length full_strain = length full_stress
    ∧ ∃ n, (0 < n)%nat
           ∧ full_strain !! n = Some 0 ∧ full_stress !! n = Some 0
           ∧ Forall (λ e, e <= 0) (take n full_strain)
           ∧ Forall (λ s, - FC_REF_FILE <= s ∧ s <= 0) (take n full_stress)
           ∧ Exists (λ s, s == - FC_REF_FILE) (take n full_stress)
           ∧ Forall (λ e, 0 <= e) (drop (S n) full_strain)
           ∧ Forall (λ s, 0 <= s) (drop (S n) full_stress).
Proof.
  eexists _, _, _. split; [vm_compute; reflexivity|].
  apply (full_curve_passes_through_origin (string * option Q) fst snd
           example_sheet example_sheet).
  vm_compute. reflexivity.
Defined.
